(** * gittip/testing.py: the fixture loader, snapshot and diff helpers

    A shallow embedding of the [Context] class of [gittip/testing.py]
    (Python 2) and of the functions it is built from, followed by the
    properties of the loader, the snapshot diff, the primary-key
    introspection and the guarded reset.

    Python dictionaries are finite maps ([gmap]); a loop over
    [d.items()] runs over [map_to_list d].  Python 2 leaves the
    iteration order of a dictionary unspecified, so no statement below
    depends on the order in which [map_to_list] enumerates a map. *)

From Stdlib Require Import ZArith Ascii String.
From stdpp Require Import gmap strings list fin_maps sorting.

Local Open Scope string_scope.

(** ** Values, rows, snapshots *)

(** The values stored in a column or used as a primary key: [None],
    integers, text, and the not-a-number of [float] and [Decimal].  On
    the first three Python's [==] is structural equality.  A
    not-a-number is equal to nothing, not even to itself; as the key of
    a dictionary it is found by the identity of the object only, which
    [obj] stands for.  The code below uses the values through [!=] and
    as keys of dictionaries, nothing else. *)
Inductive value : Type :=
  | VNone
  | VInt (n : Z)
  | VStr (s : string)
  | VNaN (obj : positive).

#[global] Instance value_eq_dec : EqDecision value.
Proof. solve_decision. Defined.

Definition value_to_sum (v : value) : unit + (Z + (string + positive)) :=
  match v with
  | VNone => inl tt
  | VInt n => inr (inl n)
  | VStr s => inr (inr (inl s))
  | VNaN obj => inr (inr (inr obj))
  end.

Definition value_of_sum (x : unit + (Z + (string + positive))) : value :=
  match x with
  | inl _ => VNone
  | inr (inl n) => VInt n
  | inr (inr (inl s)) => VStr s
  | inr (inr (inr obj)) => VNaN obj
  end.

#[global] Instance value_countable : Countable value.
Proof.
  apply (inj_countable' value_to_sum value_of_sum).
  intros []; reflexivity.
Defined.

Definition is_nan (v : value) : bool :=
  match v with
  | VNaN _ => true
  | _ => false
  end.

(** [x != y]: the two values are not equal, or they are one
    not-a-number, which is unequal also to itself. *)
Definition py_ne (x y : value) : Prop := x ≠ y ∨ is_nan y = true.

#[global] Instance py_ne_dec : RelDecision py_ne.
Proof. intros x y. unfold py_ne. apply _. Defined.

(** A row is a mapping of column name to value, a table of a dump maps
    primary-key values to rows, a dump maps table names to tables. *)
Abbreviation row := (gmap string value).
Abbreviation table := (gmap value (gmap string value)).
Abbreviation snapshot := (gmap string (gmap value (gmap string value))).

(** ** Exceptions *)

Inductive exn : Type :=
  | KeyError (key : value)
  | ValueError (msg : string)
  | AssertionError (msg : string)
  | Exception (msg : string)
  | IndexError (msg : string)
  | UnboundLocalError (name : string)
  | AttributeError (name : string).

#[global] Instance exn_eq_dec : EqDecision exn.
Proof. solve_decision. Defined.

Inductive result (A : Type) : Type :=
  | Ok (a : A)
  | Raise (e : exn).
Arguments Ok {A} a.
Arguments Raise {A} e.

#[global] Instance result_ret : MRet result := λ A a, Ok a.
#[global] Instance result_bind : MBind result := λ A B f m,
  match m with
  | Ok a => f a
  | Raise e => Raise e
  end.
#[global] Instance result_fmap : FMap result := λ A B f m,
  match m with
  | Ok a => Ok (f a)
  | Raise e => Raise e
  end.

(** [d[k]] on a dictionary: [KeyError] when the key is missing. *)
Definition getitem `{Countable K} {V} (d : gmap K V) (k : K) (err : value) : result V :=
  match d !! k with
  | Some v => Ok v
  | None => Raise (KeyError err)
  end.

(** ** Strings: order, [join], [split], the column-name pattern *)

(** [x <= y] on Python strings is the lexicographic order on characters,
    stdpp's [String.le]. *)

(** [sep.join(l)] *)
Fixpoint join (sep : string) (l : list string) : string :=
  match l with
  | [] => ""
  | [x] => x
  | x :: rest => x ++ sep ++ join sep rest
  end.

(** [s.split(sep)] for a one-character separator: the pieces between the
    occurrences of [sep], always at least one piece. *)
Fixpoint split (sep : ascii) (s : string) : list string :=
  match s with
  | EmptyString => [""]
  | String c rest =>
      if Ascii.eqb c sep then "" :: split sep rest
      else match split sep rest with
           | piece :: pieces => String c piece :: pieces
           | [] => [String c ""]
           end
  end.

(** Whether the character [c] occurs in [s]. *)
Fixpoint has_char (c : ascii) (s : string) : bool :=
  match s with
  | EmptyString => false
  | String x rest => Ascii.eqb x c || has_char c rest
  end.

(** [pkey] is the text of [indexdef] after its first opening parenthesis,
    up to the next parenthesis of either kind or to the end. *)
Definition between_parens (indexdef pkey : string) : Prop :=
  ∃ before rest,
    indexdef = before ++ String "(" (pkey ++ rest) ∧
    has_char "(" before = false ∧
    has_char "(" pkey = false ∧ has_char ")" pkey = false ∧
    (rest = "" ∨ ∃ rest', rest = String "(" rest' ∨ rest = String ")" rest').

(** The character class [[A-Za-z0-9_]]. *)
Definition is_word_char (c : ascii) : bool :=
  let n := nat_of_ascii c in
  (((65 <=? n) && (n <=? 90)) || ((97 <=? n) && (n <=? 122))
   || ((48 <=? n) && (n <=? 57)) || (n =? 95))%nat.

Definition newline : ascii := ascii_of_nat 10.

(** [$] without [re.MULTILINE]: the end of the string, or just before a
    newline that is the last character of the string. *)
Definition at_dollar (s : string) : bool :=
  match s with
  | EmptyString => true
  | String c EmptyString => Ascii.eqb c newline
  | _ => false
  end.

(** What is left of [s] after the longest run of word characters. *)
Fixpoint skip_word_chars (s : string) : string :=
  match s with
  | String c rest => if is_word_char c then skip_word_chars rest else s
  | EmptyString => s
  end.

(** Whether [s] consists of word characters only. *)
Fixpoint all_word_chars (s : string) : bool :=
  match s with
  | String c rest => is_word_char c && all_word_chars rest
  | EmptyString => true
  end.

(** [colname_re = re.compile("^[A-Za-z0-9_]+$")];
    [colname_re_match s] is [colname_re.match(s) is not None].  The run
    [[A-Za-z0-9_]+] is matched greedily; giving characters back never
    helps, since [$] does not hold before a word character. *)
Definition colname_re_pattern : string := "^[A-Za-z0-9_]+$".

Definition colname_re_match (s : string) : bool :=
  match s with
  | String c rest => is_word_char c && at_dollar (skip_word_chars rest)
  | EmptyString => false
  end.

(** A non-empty word over [[A-Za-z0-9_]]. *)
Definition is_identifier (s : string) : bool :=
  match s with
  | EmptyString => false
  | _ => all_word_chars s
  end.

(** Such a word with one newline after it. *)
Definition identifier_and_newline (s : string) : Prop :=
  ∃ word, is_identifier word = true ∧ s = word ++ String newline "".

(** ** The store handle and the state of a [Context] *)

(** The database behind [self.db] is an external collaborator; it is
    kept abstract.  [fetchall] is represented by one read per query the
    module issues (the shape of the records is fixed by the [SELECT]
    list); a read yields [None] when the query has no rows, which is why
    the code tests [is None].  [execute] may raise, and then leaves the
    store as it was. *)
Class Backend (S : Type) : Type := {
  (** [fetchall("SELECT tablename FROM pg_tables WHERE schemaname='public'")]:
      the [tablename] of each record. *)
  pg_tables : S → option (list string);
  (** [fetchall("SELECT tablename, indexdef FROM pg_indexes WHERE
      schemaname='public' AND indexname LIKE '%_pkey'")]: the pair
      [(tablename, indexdef)] of each record. *)
  pg_indexes : S → option (list (string * string));
  (** [fetchall("SELECT * FROM %s" % table_name)] *)
  select_all : string → S → option (list row);
  (** [execute(SQL, values)] *)
  execute : string → list value → S → result S;
}.

(** A fixture item of [__call__]: a table name, a mapping of column name
    to value, or a sequence of values. *)
Inductive thing : Type :=
  | TStr (table_name : string)
  | TDict (r : row)
  | TSeq (values : list value).

(** One entry of the result of [_diff]: the list of three counts of the
    compact form, or the dictionary with the three lists. *)
Inductive diff_entry : Type :=
  | Compact (n_inserts n_updates n_deletes : nat)
  | Full (inserts updates deletes : list row).

#[global] Instance diff_entry_eq_dec : EqDecision diff_entry.
Proof. solve_decision. Defined.

(** The compact form of an entry: the three lengths. *)
Definition compact_form (entry : diff_entry) : diff_entry :=
  match entry with
  | Full inserts updates deletes =>
      Compact (length inserts) (length updates) (length deletes)
  | Compact _ _ _ => entry
  end.

Definition safety_belt_name : string := "YES_PLEASE_DELETE_ALL_MY_DATA_VERY_OFTEN".
Definition safety_belt_phrase : string := "Pretty please, with sugar on top.".
Definition ddl_message : string := "Sorry, diff isn't designed for DDL".
Definition colname_message : string := "colname must match " ++ colname_re_pattern.

(** The text of an [INSERT] that names the columns [colnames], with one
    placeholder for each. *)
Definition insert_statement (table_name : string) (colnames : list string) : string :=
  "INSERT INTO " ++ table_name ++ " (" ++ join ", " colnames ++ ") VALUES ("
    ++ join ", " (replicate (length colnames) "%s") ++ ")".

(** The specification names the errors by what they mean; the code
    raises built-in exceptions.  [assert ..., "Sorry, diff isn't designed
    for DDL"] is the SchemaDriftError, the [ValueError] on a column name
    is the InvalidIdentifierError. *)
Definition SchemaDriftError : exn := AssertionError ddl_message.
Definition InvalidIdentifierError : exn := ValueError colname_message.

(** The SafetyViolationError is what the check of the environment
    raises: the [KeyError] of [os.environ[...]] when the variable is not
    set, [Exception("Heck.")] when it has another value. *)
Definition SafetyViolationError (e : exn) : Prop :=
  e = KeyError (VStr safety_belt_name) ∨ e = Exception "Heck.".

(** *** The loops of [_diff], which touch no state *)

(** [for colname, value in row.items(): if a_table[key][colname] != value:
    update[colname] = value] *)
Fixpoint diff_columns (a_row : row) (items : list (string * value)) (update : row)
  : result row :=
  match items with
  | [] => Ok update
  | (colname, value) :: items' =>
      old ← getitem a_row colname (VStr colname);
      diff_columns a_row items'
        (if decide (py_ne old value) then <[colname := value]> update else update)
  end.

(** [for key, row in b_table.items(): ...], with the lists [inserts] and
    [updates] built so far. *)
Fixpoint diff_rows (pkeys : gmap string string) (table_name : string) (a_table : table)
    (items : list (value * row)) (inserts updates : list row)
  : result (list row * list row) :=
  match items with
  | [] => Ok (inserts, updates)
  | (key, row) :: items' =>
      match a_table !! key with
      | None => diff_rows pkeys table_name a_table items' (inserts ++ [row]) updates
      | Some a_row =>
          update ← diff_columns a_row (map_to_list row) ∅;
          if decide (update = ∅)
          then diff_rows pkeys table_name a_table items' inserts updates
          else
            pkey ← getitem pkeys table_name (VStr table_name);
            v ← getitem row pkey (VStr pkey);
            diff_rows pkeys table_name a_table items' inserts
              (updates ++ [<[pkey := v]> update])
      end
  end.

(** [for key, row in a_table.items(): if key not in b_table:
    deletes.append(row)] *)
Fixpoint diff_deletes (b_table : table) (items : list (value * row)) (deletes : list row)
  : list row :=
  match items with
  | [] => deletes
  | (key, row) :: items' =>
      diff_deletes b_table items'
        (match b_table !! key with None => deletes ++ [row] | Some _ => deletes end)
  end.

Definition nonempty {A} (l : list A) : bool :=
  match l with [] => false | _ => true end.

(** The body of the loop over the tables: the three lists of one table. *)
Definition diff_table (pkeys : gmap string string) (table_name : string)
    (a_table b_table : table) : result (list row * list row * list row) :=
  '(inserts, updates) ← diff_rows pkeys table_name a_table (map_to_list b_table) [] [];
  Ok (inserts, updates, diff_deletes b_table (map_to_list a_table) []).

(** [if inserts or updates or deletes: out[table_name] = ...] *)
Definition emit (compact : bool) (table_name : string) (lists : list row * list row * list row)
    (out : gmap string diff_entry) : gmap string diff_entry :=
  let '(inserts, updates, deletes) := lists in
  if nonempty inserts || nonempty updates || nonempty deletes
  then <[table_name :=
           if compact
           then Compact (length inserts) (length updates) (length deletes)
           else Full inserts updates deletes]> out
  else out.

(** [for table_name, b_table in b.items(): ...], with [out] as built so
    far. *)
Fixpoint diff_tables (pkeys : gmap string string) (a : snapshot) (compact : bool)
    (items : list (string * table)) (out : gmap string diff_entry)
  : result (gmap string diff_entry) :=
  match items with
  | [] => Ok out
  | (table_name, b_table) :: items' =>
      a_table ← getitem a table_name (VStr table_name);
      lists ← diff_table pkeys table_name a_table b_table;
      diff_tables pkeys a compact items' (emit compact table_name lists out)
  end.

(** [sorted(d.keys())] *)
Definition sorted_keys {V} (d : gmap string V) : list string :=
  merge_sort String.le (map_to_list d).*1.

(** [pkey = row['indexdef'].split('(')[1].split(')')[0]] *)
Definition parse_pkey (indexdef : string) : result string :=
  match split "(" indexdef with
  | _ :: inner :: _ =>
      match split ")" inner with
      | pkey :: _ => Ok pkey
      | [] => Raise (IndexError "list index out of range")
      end
  | _ => Raise (IndexError "list index out of range")
  end.

(** [for row in _pkeys: pkeys[row['tablename']] = pkey] *)
Fixpoint collect_pkeys (_pkeys : list (string * string)) (pkeys : gmap string string)
  : result (gmap string string) :=
  match _pkeys with
  | [] => Ok pkeys
  | (tablename, indexdef) :: rest =>
      pkey ← parse_pkey indexdef;
      collect_pkeys rest (<[tablename := pkey]> pkeys)
  end.

(** [for row in rows: key = row[pkey]; mapped[key] = row] *)
Fixpoint map_rows (pkey : string) (rows : list row) (mapped : table) : result table :=
  match rows with
  | [] => Ok mapped
  | row :: rows' =>
      key ← getitem row pkey (VStr pkey);
      map_rows pkey rows' (<[key := row]> mapped)
  end.

(** [for colname, value in sorted(row.iteritems()): ...]: the column
    names and the values, in the order of the items. *)
Fixpoint check_columns (items : list (string * value)) : result (list string * list value) :=
  match items with
  | [] => Ok ([], [])
  | (colname, value) :: items' =>
      if colname_re_match colname
      then '(colnames, values) ← check_columns items';
           Ok (colname :: colnames, value :: values)
      else Raise (ValueError colname_message)
  end.

(** [sorted(row.iteritems())]: the pairs compare by column name first,
    and no two items of a dictionary have the same name. *)
Definition item_le (x y : string * value) : Prop := String.le x.1 y.1.

#[global] Instance item_le_dec : RelDecision item_le.
Proof. intros x y. unfold item_le. apply _. Defined.

Definition sorted_items (r : row) : list (string * value) :=
  merge_sort item_le (map_to_list r).

(** [SQL = "INSERT INTO %s%sVALUES (%s)" % (table_name, colnames,
    ', '.join(['%s'] * n))] *)
Definition insert_sql (table_name colnames : string) (n : nat) : string :=
  "INSERT INTO " ++ table_name ++ colnames ++ "VALUES ("
    ++ join ", " (replicate n "%s") ++ ")".

(** ** The methods of [Context] *)

Section context.
Context {S : Type} `{!Backend S}.

(** What a method can read and change: the store behind [self.db],
    [os.environ], the attribute [self.a] (unset until the first load)
    and, to speak about it, the list of the statements handed to
    [self.db.execute] so far, oldest first. *)
Record world : Type := World {
  store : S;
  environ : gmap string string;
  self_a : option snapshot;
  issued : list (string * list value);
}.

(** A method runs on a world and returns or raises; what it did to the
    world before raising stays done. *)
Definition M (A : Type) : Type := world → result A * world.

#[export] Instance M_ret : MRet M := λ A a w, (Ok a, w).
#[export] Instance M_bind : MBind M := λ A B f m w,
  match m w with
  | (Ok a, w') => f a w'
  | (Raise e, w') => (Raise e, w')
  end.

Definition raise {A} (e : exn) : M A := λ w, (Raise e, w).
(** A computation that reads the world and changes nothing. *)
Definition reading {A} (f : world → result A) : M A := λ w, (f w, w).
Definition lift {A} (r : result A) : M A := reading (λ _, r).

(** [self.db.execute(SQL, values)] *)
Definition db_execute (sql : string) (values : list value) : M () := λ w,
  let log := (issued w ++ [(sql, values)])%list in
  match execute sql values (store w) with
  | Ok s' => (Ok (), World s' (environ w) (self_a w) log)
  | Raise e => (Raise e, World (store w) (environ w) (self_a w) log)
  end.

(** [tables.sort()] on what [pg_tables] lists, [[]] for [None] *)
Definition table_names (s : S) : list string :=
  match pg_tables s with
  | None => []
  | Some tables => merge_sort String.le tables
  end.

Definition _get_table_names : M (list string) :=
  reading (λ w, Ok (table_names (store w))).

(** The body of [_get_primary_keys] on the store.  When the query has
    no rows, [_pkeys] is rebound to the empty list and [pkeys] is never
    bound: [return pkeys] raises. *)
Definition primary_keys (s : S) : result (gmap string string) :=
  match pg_indexes s with
  | None => Raise (UnboundLocalError "pkeys")
  | Some _pkeys => collect_pkeys _pkeys ∅
  end.

Definition _get_primary_keys : M (gmap string string) :=
  reading (λ w, primary_keys (store w)).

(** [rows = self.db.fetchall("SELECT * FROM %s" % table_name)], and
    [[]] for [None] *)
Definition fetch_rows (table_name : string) : M (list row) :=
  reading (λ w, Ok (default [] (select_all table_name (store w)))).

(** [for table_name in self._get_table_names(): ...] of [dump] *)
Fixpoint dump_tables (pkeys : gmap string string) (table_names : list string)
    (out : snapshot) : M snapshot :=
  match table_names with
  | [] => mret out
  | table_name :: rest =>
      pkey ← lift (getitem pkeys table_name (VStr table_name));
      rows ← fetch_rows table_name;
      mapped ← lift (map_rows pkey rows ∅);
      dump_tables pkeys rest (<[table_name := mapped]> out)
  end.

Definition dump : M snapshot :=
  pkeys ← _get_primary_keys;
  table_names ← _get_table_names;
  dump_tables pkeys table_names ∅.

Definition _diff (a b : snapshot) (compact : bool) : M (gmap string diff_entry) :=
  pkeys ← _get_primary_keys;
  if decide (sorted_keys a = sorted_keys b)
  then lift (diff_tables pkeys a compact (map_to_list b) ∅)
  else raise (AssertionError ddl_message).

(** [copy.deepcopy] of a dump: an equal value that shares nothing with
    the original. *)
Definition deepcopy (a : snapshot) : snapshot := a.

(** [self.a], an [AttributeError] before the first load *)
Definition get_self_a : M snapshot :=
  reading (λ w,
    match self_a w with
    | Some a => Ok a
    | None => Raise (AttributeError "a")
    end).

Definition diff (compact : bool) : M (gmap string diff_entry) :=
  baseline ← get_self_a;
  let a := deepcopy baseline in
  b ← dump;
  _diff a b compact.

(** [os.environ[name]] *)
Definition os_environ (name : string) : M string :=
  reading (λ w, getitem (environ w) name (VStr name)).

(** [for table_name in ...: self.db.execute("TRUNCATE TABLE %s CASCADE"
    % table_name)] *)
Fixpoint truncate_tables (table_names : list string) : M () :=
  match table_names with
  | [] => mret ()
  | table_name :: rest =>
      db_execute ("TRUNCATE TABLE " ++ table_name ++ " CASCADE") [];;
      truncate_tables rest
  end.

Definition _delete_data : M () :=
  safety_belt ← os_environ safety_belt_name;
  if decide (safety_belt ≠ safety_belt_phrase)
  then raise (Exception "Heck.")
  else
    table_names ← _get_table_names;
    truncate_tables table_names.

(** The loop of [__call__] on the rest of [data], with the current
    [table_name]. *)
Fixpoint load_things (known_tables : list string) (table_name : string)
    (data : list thing) : M () :=
  match data with
  | [] => mret ()
  | TStr name :: data' =>
      if decide (name ∈ known_tables)
      then load_things known_tables name data'
      else raise (ValueError ("Unknown table: " ++ name))
  | TDict r :: data' =>
      if decide (table_name = "")
      then raise (ValueError "What table am I INSERTing into?")
      else
        '(colnames, values) ← lift (check_columns (sorted_items r));
        db_execute
          (insert_sql table_name (" (" ++ join ", " colnames ++ ") ") (size r))
          values;;
        load_things known_tables table_name data'
  | TSeq values :: data' =>
      if decide (table_name = "")
      then raise (ValueError "What table am I INSERTing into?")
      else
        db_execute (insert_sql table_name " " (length values)) values;;
        load_things known_tables table_name data'
  end.

(** The table a record goes to after the items [data], when it was
    [table_name] before them: the last table name among them. *)
Definition current_table (table_name : string) (data : list thing) : string :=
  foldl (λ t item, match item with TStr name => name | _ => t end) table_name data.

(** [self.a = a] *)
Definition set_self_a (a : snapshot) : M () := λ w,
  (Ok (), World (store w) (environ w) (Some a) (issued w)).

Definition __call__ (data : list thing) : M () :=
  known_tables ← _get_table_names;
  load_things known_tables "" data;;
  a ← dump;
  set_self_a a.

(** The world after the calls [self.diff(compact)] for the [compact] of
    a list of flags, one after the other. *)
Definition after_diffs (flags : list bool) (w : world) : world :=
  foldl (λ w compact, (diff compact w).2) w flags.

(** The statement that truncates a table. *)
Definition truncate_statement (table_name : string) : string * list value :=
  ("TRUNCATE TABLE " ++ table_name ++ " CASCADE", []).

Definition __init__ : M () := _delete_data.
Definition __exit__ : M () := _delete_data.

End context.

Arguments world S : clear implicits.
Arguments M S A : clear implicits.

(** ** The rows as objects

    [_diff] puts the rows themselves, not copies of them, into the lists
    of inserts and deletes, and Python dictionaries are mutable: who
    holds the result of [diff] can change the rows in it.  To follow
    which rows the result shares with the baseline [self.a], the methods
    that [diff] runs are given a second time with the rows as objects: a
    dump maps the keys to references, and a heap gives the dictionary
    behind each reference.  The dictionaries of a dump that hold the
    tables are reached through [self.a] only and stay values; an update
    record is a new dictionary that nothing else refers to and stays a
    value as well. *)
Module Objects.

Abbreviation loc := positive.
Abbreviation heap := (gmap positive (gmap string value)).
Abbreviation table_ref := (gmap value positive).
Abbreviation snapshot_ref := (gmap string (gmap value positive)).

Inductive diff_entry : Type :=
  | Compact (n_inserts n_updates n_deletes : nat)
  | Full (inserts : list loc) (updates : list row) (deletes : list loc).

(** A new dictionary object with the content [r]. *)
Definition alloc (r : row) (h : heap) : loc * heap :=
  let l := fresh (dom h) in (l, <[l := r]> h).

(** The dictionary behind a reference. *)
Definition deref (h : heap) (l : loc) : row := default ∅ (h !! l).

(** The rows that [fetchall] returns are new objects. *)
Fixpoint alloc_rows (rows : list row) (h : heap) : list loc * heap :=
  match rows with
  | [] => ([], h)
  | r :: rows' =>
      let '(l, h1) := alloc r h in
      let '(ls, h2) := alloc_rows rows' h1 in
      (l :: ls, h2)
  end.

(** [copy.deepcopy] of a dump: every row is copied into a new object.
    The rows of a dump are distinct objects, so that the memo of
    [deepcopy] is never hit. *)
Fixpoint copy_rows (items : list (value * loc)) (h : heap) : list (value * loc) * heap :=
  match items with
  | [] => ([], h)
  | (key, l) :: items' =>
      let '(l', h1) := alloc (deref h l) h in
      let '(copies, h2) := copy_rows items' h1 in
      ((key, l') :: copies, h2)
  end.

Fixpoint copy_tables (items : list (string * table_ref)) (h : heap)
  : list (string * table_ref) * heap :=
  match items with
  | [] => ([], h)
  | (table_name, t) :: items' =>
      let '(rows, h1) := copy_rows (map_to_list t) h in
      let '(copies, h2) := copy_tables items' h1 in
      ((table_name, list_to_map rows) :: copies, h2)
  end.

Definition deepcopy (a : snapshot_ref) (h : heap) : snapshot_ref * heap :=
  let '(tables, h') := copy_tables (map_to_list a) h in (list_to_map tables, h').

(** The loops of [_diff]; [row] and [a_table[key]] are references. *)
Fixpoint diff_rows (h : heap) (pkeys : gmap string string) (table_name : string)
    (a_table : table_ref) (items : list (value * loc))
    (inserts : list loc) (updates : list row) : result (list loc * list row) :=
  match items with
  | [] => Ok (inserts, updates)
  | (key, row) :: items' =>
      match a_table !! key with
      | None => diff_rows h pkeys table_name a_table items' (inserts ++ [row]) updates
      | Some a_row =>
          update ← diff_columns (deref h a_row) (map_to_list (deref h row)) ∅;
          if decide (update = ∅)
          then diff_rows h pkeys table_name a_table items' inserts updates
          else
            pkey ← getitem pkeys table_name (VStr table_name);
            v ← getitem (deref h row) pkey (VStr pkey);
            diff_rows h pkeys table_name a_table items' inserts
              (updates ++ [<[pkey := v]> update])
      end
  end.

Fixpoint diff_deletes (b_table : table_ref) (items : list (value * loc))
    (deletes : list loc) : list loc :=
  match items with
  | [] => deletes
  | (key, row) :: items' =>
      diff_deletes b_table items'
        (match b_table !! key with None => deletes ++ [row] | Some _ => deletes end)
  end.

Definition diff_table (h : heap) (pkeys : gmap string string) (table_name : string)
    (a_table b_table : table_ref) : result (list loc * list row * list loc) :=
  '(inserts, updates) ← diff_rows h pkeys table_name a_table (map_to_list b_table) [] [];
  Ok (inserts, updates, diff_deletes b_table (map_to_list a_table) []).

Definition emit (compact : bool) (table_name : string)
    (lists : list loc * list row * list loc)
    (out : gmap string diff_entry) : gmap string diff_entry :=
  let '(inserts, updates, deletes) := lists in
  if nonempty inserts || nonempty updates || nonempty deletes
  then <[table_name :=
           if compact
           then Compact (length inserts) (length updates) (length deletes)
           else Full inserts updates deletes]> out
  else out.

Fixpoint diff_tables (h : heap) (pkeys : gmap string string) (a : snapshot_ref)
    (compact : bool) (items : list (string * table_ref)) (out : gmap string diff_entry)
  : result (gmap string diff_entry) :=
  match items with
  | [] => Ok out
  | (table_name, b_table) :: items' =>
      a_table ← getitem a table_name (VStr table_name);
      lists ← diff_table h pkeys table_name a_table b_table;
      diff_tables h pkeys a compact items' (emit compact table_name lists out)
  end.

(** [for row in rows: key = row[pkey]; mapped[key] = row] *)
Fixpoint map_rows (h : heap) (pkey : string) (rows : list loc) (mapped : table_ref)
  : result table_ref :=
  match rows with
  | [] => Ok mapped
  | row :: rows' =>
      key ← getitem (deref h row) pkey (VStr pkey);
      map_rows h pkey rows' (<[key := row]> mapped)
  end.

Section methods.
Context {S : Type} `{!Backend S}.

(** What [diff] reads and changes: the store, the heap of the rows and
    the attribute [self.a]. *)
Record state : Type := State {
  the_store : S;
  the_heap : heap;
  the_self_a : option snapshot_ref;
}.

Definition M (A : Type) : Type := state → result A * state.

#[export] Instance M_ret : MRet M := λ A a st, (Ok a, st).
#[export] Instance M_bind : MBind M := λ A B f m st,
  match m st with
  | (Ok a, st') => f a st'
  | (Raise e, st') => (Raise e, st')
  end.

Definition raise {A} (e : exn) : M A := λ st, (Raise e, st).
Definition reading {A} (f : state → result A) : M A := λ st, (f st, st).
(** A computation that creates objects. *)
Definition allocating {A} (f : heap → A * heap) : M A := λ st,
  let '(a, h) := f (the_heap st) in (Ok a, State (the_store st) h (the_self_a st)).

Definition _get_table_names : M (list string) :=
  reading (λ st, Ok (table_names (the_store st))).

Definition _get_primary_keys : M (gmap string string) :=
  reading (λ st, primary_keys (the_store st)).

Definition fetch_rows (table_name : string) : M (list loc) := λ st,
  allocating (alloc_rows (default [] (select_all table_name (the_store st)))) st.

Fixpoint dump_tables (pkeys : gmap string string) (table_names : list string)
    (out : snapshot_ref) : M snapshot_ref :=
  match table_names with
  | [] => mret out
  | table_name :: rest =>
      pkey ← reading (λ _, getitem pkeys table_name (VStr table_name));
      rows ← fetch_rows table_name;
      mapped ← reading (λ st, map_rows (the_heap st) pkey rows ∅);
      dump_tables pkeys rest (<[table_name := mapped]> out)
  end.

Definition dump : M snapshot_ref :=
  pkeys ← _get_primary_keys;
  table_names ← _get_table_names;
  dump_tables pkeys table_names ∅.

Definition _diff (a b : snapshot_ref) (compact : bool) : M (gmap string diff_entry) :=
  pkeys ← _get_primary_keys;
  if decide (sorted_keys a = sorted_keys b)
  then reading (λ st, diff_tables (the_heap st) pkeys a compact (map_to_list b) ∅)
  else raise (AssertionError ddl_message).

Definition get_self_a : M snapshot_ref :=
  reading (λ st,
    match the_self_a st with
    | Some a => Ok a
    | None => Raise (AttributeError "a")
    end).

Definition diff (compact : bool) : M (gmap string diff_entry) :=
  baseline ← get_self_a;
  a ← allocating (deepcopy baseline);
  b ← dump;
  _diff a b compact.

End methods.

Arguments state S : clear implicits.
Arguments M S A : clear implicits.

End Objects.

(** The values behind the references. *)
Definition resolve_table (h : Objects.heap) (t : Objects.table_ref) : table :=
  Objects.deref h <$> t.

Definition resolve (h : Objects.heap) (s : Objects.snapshot_ref) : snapshot :=
  resolve_table h <$> s.

Definition resolve_entry (h : Objects.heap) (entry : Objects.diff_entry) : diff_entry :=
  match entry with
  | Objects.Compact i u d => Compact i u d
  | Objects.Full inserts updates deletes =>
      Full (Objects.deref h <$> inserts) updates (Objects.deref h <$> deletes)
  end.

Definition resolve_lists (h : Objects.heap)
    (lists : list Objects.loc * list row * list Objects.loc)
  : list row * list row * list row :=
  (Objects.deref h <$> lists.1.1, lists.1.2, Objects.deref h <$> lists.2).

(** The rows that a dump refers to, and those in the lists of a diff. *)
Definition refers_to (s : Objects.snapshot_ref) (l : Objects.loc) : Prop :=
  ∃ table_name t key, s !! table_name = Some t ∧ t !! key = Some l.

Definition holds_row (out : gmap string Objects.diff_entry) (l : Objects.loc) : Prop :=
  ∃ table_name inserts updates deletes,
    out !! table_name = Some (Objects.Full inserts updates deletes) ∧
    (l ∈ inserts ∨ l ∈ deletes).

(** A state with the rows as objects stands for a world: the same store,
    and a baseline whose rows all exist and have the contents that the
    baseline of the world has. *)
Definition stands_for {S} (st : Objects.state S) (w : world S) : Prop :=
  store w = Objects.the_store st ∧
  self_a w = resolve (Objects.the_heap st) <$> Objects.the_self_a st ∧
  ∀ baseline l, Objects.the_self_a st = Some baseline → refers_to baseline l →
    l ∈ dom (Objects.the_heap st).

(** ** What the loops of [_diff] compute, stated without accumulators *)

(** The column [cv.1] has in [a_row] a value that is [!=] to [cv.2], or
    none. *)
Definition column_changed (a_row : row) (cv : string * value) : Prop :=
  a_row !! cv.1 ≠ Some cv.2 ∨ is_nan cv.2 = true.

#[global] Instance column_changed_dec a_row cv : Decision (column_changed a_row cv).
Proof. unfold column_changed. apply _. Defined.

(** The columns of [b_row] whose value is not the one [a_row] has. *)
Definition changed_columns (a_row b_row : row) : row :=
  filter (column_changed a_row) b_row.

(** The record reported for a changed row: the columns of [b_row] that
    changed, and the primary-key column of the table. *)
Definition update_record (pkeys : gmap string string) (table_name : string)
    (a_row b_row : row) : row :=
  filter (λ cv, pkeys !! table_name = Some cv.1 ∨ column_changed a_row cv) b_row.

Definition update_of (pkeys : gmap string string) (table_name : string)
    (a_table : table) (kr : value * row) : option row :=
  a_row ← a_table !! kr.1;
  if decide (changed_columns a_row kr.2 = ∅) then None
  else Some (update_record pkeys table_name a_row kr.2).

Definition inserts_of (a_table : table) (items : list (value * row)) : list row :=
  (filter (λ kr, a_table !! kr.1 = None) items).*2.

Definition updates_of (pkeys : gmap string string) (table_name : string)
    (a_table : table) (items : list (value * row)) : list row :=
  omap (update_of pkeys table_name a_table) items.

Definition deletes_of (b_table : table) (items : list (value * row)) : list row :=
  (filter (λ kr, b_table !! kr.1 = None) items).*2.

(** The rows on which the loop over a table does not raise: every column
    of a row of B is a column of the row of A with the same key, and a
    changed row has the primary-key column of its table. *)
Definition rows_ok (pkeys : gmap string string) (table_name : string)
    (a_table : table) (items : list (value * row)) : Prop :=
  ∀ key b_row a_row, (key, b_row) ∈ items → a_table !! key = Some a_row →
    dom b_row ⊆ dom a_row ∧
    (changed_columns a_row b_row ≠ ∅ →
     ∃ pkey, pkeys !! table_name = Some pkey ∧ is_Some (b_row !! pkey)).

Definition table_lists (pkeys : gmap string string) (table_name : string)
    (a_table b_table : table) : list row * list row * list row :=
  (inserts_of a_table (map_to_list b_table),
   updates_of pkeys table_name a_table (map_to_list b_table),
   deletes_of b_table (map_to_list a_table)).

Definition entry_of (compact : bool) (lists : list row * list row * list row)
  : option diff_entry :=
  let '(inserts, updates, deletes) := lists in
  if nonempty inserts || nonempty updates || nonempty deletes
  then Some (if compact
             then Compact (length inserts) (length updates) (length deletes)
             else Full inserts updates deletes)
  else None.

(** Rows stored under the same key in the same table of two dumps have
    the same columns. *)
Definition same_columns (a b : snapshot) : Prop :=
  ∀ table_name a_table b_table key a_row b_row,
    a !! table_name = Some a_table → b !! table_name = Some b_table →
    a_table !! key = Some a_row → b_table !! key = Some b_row →
    dom a_row = dom b_row.

(** A row of B with a column whose value is [!=] to the one that the
    row of A with the same key has, has the primary-key column listed
    for its table. *)
Definition changed_rows_keyed (pkeys : gmap string string) (a b : snapshot) : Prop :=
  ∀ table_name a_table b_table key a_row b_row,
    a !! table_name = Some a_table → b !! table_name = Some b_table →
    a_table !! key = Some a_row → b_table !! key = Some b_row →
    changed_columns a_row b_row ≠ ∅ →
    ∃ pkey, pkeys !! table_name = Some pkey ∧ is_Some (b_row !! pkey).

(** Two rows differ, as [_diff] sees it, when they have a column on
    which the value of one is [!=] to the value of the other. *)
Definition rows_differ (a_row b_row : row) : Prop :=
  ∃ c va vb, a_row !! c = Some va ∧ b_row !! c = Some vb ∧ py_ne va vb.

(** No value of the row, of the dump, is a not-a-number: every value is
    equal to itself. *)
Definition nan_free_row (r : row) : Prop :=
  map_Forall (λ _ v, is_nan v = false) r.

Definition nan_free (s : snapshot) : Prop :=
  map_Forall (λ _ (s_table : table), map_Forall (λ _ r, nan_free_row r) s_table) s.

Definition note_change (a_row : row) (update : row) (cv : string * value) : row :=
  if decide (column_changed a_row cv) then <[cv.1 := cv.2]> update else update.

(** The tables on which the loop over the tables does not raise. *)
Definition tables_ok (pkeys : gmap string string) (a : snapshot)
    (items : list (string * table)) : Prop :=
  ∀ table_name b_table, (table_name, b_table) ∈ items →
    ∃ a_table, a !! table_name = Some a_table ∧
               rows_ok pkeys table_name a_table (map_to_list b_table).

Definition emit_table (pkeys : gmap string string) (a : snapshot) (compact : bool)
    (out : gmap string diff_entry) (item : string * table) : gmap string diff_entry :=
  emit compact item.1 (table_lists pkeys item.1 (default ∅ (a !! item.1)) item.2) out.

(** ** A store for examples

    A store with a fixed catalogue and fixed table contents that accepts
    every statement; it is used to run the methods on concrete inputs. *)
Record fixed_store : Type := FixedStore {
  fs_tables : option (list string);
  fs_indexes : option (list (string * string));
  fs_rows : gmap string (list row);
}.

#[global] Instance fixed_backend : Backend fixed_store := {|
  pg_tables := fs_tables;
  pg_indexes := fs_indexes;
  select_all := λ table_name s,
    match fs_rows s !! table_name with
    | Some (r :: rows) => Some (r :: rows)
    | _ => None
    end;
  execute := λ _ _ s, Ok s;
|}.


(** A store with one table [widgets], whose primary key is [id], and
    one row in it. *)
Definition widget (id : Z) (name : string) : row :=
  {[ "id" := VInt id; "name" := VStr name ]}.

Definition widgets_store : fixed_store :=
  FixedStore
    (Some ["widgets"])
    (Some [("widgets", "CREATE UNIQUE INDEX widgets_pkey ON widgets USING btree (id)")])
    {[ "widgets" := [widget 1 "A"] ]}.

Definition widgets_world : world fixed_store := World widgets_store ∅ None [].

Definition widgets_pkeys : gmap string string := {[ "widgets" := "id" ]}.

(** Two dumps: between them row 1 was renamed and row 2 was added. *)
Definition widgets_before : snapshot :=
  {[ "widgets" := {[ VInt 1 := widget 1 "A" ]} ]}.
Definition widgets_after : snapshot :=
  {[ "widgets" := {[ VInt 1 := widget 1 "B"; VInt 2 := widget 2 "C" ]} ]}.

(** The same table with a row that has only the column [id]. *)
Definition widgets_narrow : snapshot :=
  {[ "widgets" := {[ VInt 1 := ({[ "id" := VInt 1 ]} : row) ]} ]}.

(** A row with a column [stock] as well. *)
Definition widgets_stocked : snapshot :=
  {[ "widgets" := {[ VInt 1 := (<[ "stock" := VInt 7 ]> (widget 1 "A") : row) ]} ]}.

(** A store in which [gadgets] has a primary key of two columns and
    [notes] has none. *)
Definition gadgets_store : fixed_store :=
  FixedStore
    (Some ["notes"; "gadgets"])
    (Some [("gadgets", "CREATE UNIQUE INDEX gadgets_pkey ON gadgets USING btree (a, b)")])
    ∅.

Definition gadgets_world : world fixed_store := World gadgets_store ∅ None [].

(** The world in which the environment variable of [_delete_data] is set
    as it must be, and one in which it is set to something else. *)
Definition armed_world : world fixed_store :=
  World widgets_store {[ safety_belt_name := safety_belt_phrase ]} None [].
Definition misarmed_world : world fixed_store :=
  World widgets_store {[ safety_belt_name := "yes" ]} None [].

(** The world after a load of the row [widget 1 "A"] and of a row
    [widget 2 "C"] which has since been deleted from the store, and a
    state with the rows as objects that stands for it: the objects 1 and
    2 are the rows of the baseline. *)
Definition loaded_world : world fixed_store :=
  World widgets_store ∅
    (Some {[ "widgets" := {[ VInt 1 := widget 1 "A"; VInt 2 := widget 2 "C" ]} ]}) [].

Definition loaded_heap : Objects.heap :=
  {[ 1%positive := widget 1 "A"; 2%positive := widget 2 "C" ]}.

Definition loaded_state : Objects.state fixed_store :=
  Objects.State widgets_store loaded_heap
    (Some {[ "widgets" := {[ VInt 1 := 1%positive; VInt 2 := 2%positive ]} ]}).

(** ** The statements of a load

    The statements that a load of [data] hands to the store when nothing
    raises, the first records going to [table_name]: one [INSERT] for
    each record, into the table named last before it. *)
Fixpoint statements_for (table_name : string) (data : list thing)
  : list (string * list value) :=
  match data with
  | [] => []
  | TStr name :: data' => statements_for name data'
  | TDict r :: data' =>
      (insert_statement table_name (sorted_items r).*1, (sorted_items r).*2)
      :: statements_for table_name data'
  | TSeq values :: data' =>
      (insert_sql table_name " " (length values), values)
      :: statements_for table_name data'
  end.

(** A statement built from checked parts only: an [INSERT] into one of
    the tables [known], without a column list or with column names that
    all match [colname_re], and with as many placeholders as values. *)
Definition checked_insert (known : list string) (statement : string * list value) : Prop :=
  ∃ table_name, table_name ∈ known ∧
    (statement.1 = insert_sql table_name " " (length statement.2) ∨
     ∃ colnames, Forall (λ c, colname_re_match c = true) colnames ∧
                 length colnames = length statement.2 ∧
                 statement.1 = insert_statement table_name colnames).

(** The three lists that a diff has for a table; empty lists when the
    table has no entry. *)
Definition lists_at (out : gmap string diff_entry) (table_name : string)
  : list row * list row * list row :=
  match out !! table_name with
  | Some (Full inserts updates deletes) => (inserts, updates, deletes)
  | _ => ([], [], [])
  end.

(** ** [GittipBaseDBTest.tearDown] *)

(** The list [tables] of [tearDown]. *)
Definition tables : list string :=
  ["participants"; "social_network_users"; "tips"; "transfers"; "paydays"; "exchanges"].

(** The statement of [tearDown] for a table. *)
Definition tearDown_statement (t : string) : string * list value :=
  ("truncate table " ++ t ++ " cascade", []).

Section base_test.
Context {S : Type} `{!Backend S}.

(** [for t in tables: self.db.execute('truncate table %s cascade' % t)] *)
Fixpoint truncate_each (tables : list string) : M S () :=
  match tables with
  | [] => mret ()
  | t :: rest =>
      db_execute ("truncate table " ++ t ++ " cascade") [];;
      truncate_each rest
  end.

Definition tearDown : M S () := truncate_each tables.

End base_test.

(** ** [setup_tips] *)

(** One of the [recs]: [(tipper, tippee, amount, good_cc)], where
    [good_cc] is [True], [False] or [None]; the [assert] on it holds for
    every such value. *)
Definition tip_rec : Type := string * string * string * option bool.

Definition tipper_of (rec : tip_rec) : string := rec.1.1.1.
Definition tippee_of (rec : tip_rec) : string := rec.1.1.2.
Definition amount_of (rec : tip_rec) : string := rec.1.2.
Definition good_cc_of (rec : tip_rec) : option bool := rec.2.

(** The record appended to [tips]. *)
Definition tip (now : value) (tipper tippee : string) (amount : value) : row :=
  {[ "ctime" := now; "mtime" := now; "tipper" := VStr tipper;
     "tippee" := VStr tippee; "amount" := amount ]}.

(** [rec = {"id": participant_id}; if good_cc is not None:
    rec["last_bill_result"] = "" if good_cc else "Failure!"] *)
Definition participant (participant_id : string) (good_cc : option bool) : row :=
  let record : row := {[ "id" := VStr participant_id ]} in
  match good_cc with
  | Some good => <["last_bill_result" := VStr (if good then "" else "Failure!")]> record
  | None => record
  end.

(** The people whom [recs] name, as tipper or as tippee. *)
Definition people (recs : list tip_rec) : gset string :=
  list_to_set ((tipper_of <$> recs) ++ (tippee_of <$> recs)).

(** The statements that a load hands over for a participant and for a
    tip. *)
Definition participant_statement (item : string * option bool) : string * list value :=
  match item.2 with
  | Some good =>
      ("INSERT INTO participants (id, last_bill_result) VALUES (%s, %s)",
       [VStr item.1; VStr (if good then "" else "Failure!")])
  | None => ("INSERT INTO participants (id) VALUES (%s)", [VStr item.1])
  end.

Definition tip_statement (now : value) (tipper tippee : string) (amount : value)
  : string * list value :=
  ("INSERT INTO tips (amount, ctime, mtime, tippee, tipper) VALUES (%s, %s, %s, %s, %s)",
   [amount; now; now; VStr tippee; VStr tipper]).

(** What [_participants] holds after the loop over [recs]: the people
    that [recs] name; for one who tips, the [good_cc] of the last of the
    [recs] in which they are the tipper; for one who only receives,
    [None]. *)
Definition participants_for (recs : list tip_rec) (ps : gmap string (option bool)) : Prop :=
  dom ps = people recs ∧
  (∀ before rec after,
     recs = (before ++ rec :: after)%list →
     Forall (λ r, tipper_of r ≠ tipper_of rec) after →
     ps !! tipper_of rec = Some (good_cc_of rec)) ∧
  (∀ p, p ∈ people recs → Forall (λ r, tipper_of r ≠ p) recs → ps !! p = Some None).

Section setup_tips.
Context {S : Type} `{!Backend S}.

(** [Decimal] and [utcnow] are external.  [Decimal(amount)] returns a
    value or raises; [utcnow n] is what the call number [n] of [utcnow()]
    returns, counting from 0. *)
Variable Decimal : string → result value.
Variable utcnow : nat → value.

(** [for tipper, tippee, amount, good_cc in recs: ...], with [n] calls
    of [utcnow()] made before. *)
Fixpoint collect_tips (recs : list tip_rec) (n : nat)
    (_participants : gmap string (option bool)) (tips : list row)
  : result (gmap string (option bool) * list row) :=
  match recs with
  | [] => Ok (_participants, tips)
  | (tipper, tippee, amount, good_cc) :: recs' =>
      let _participants := <[tipper := good_cc]> _participants in
      let _participants :=
        match _participants !! tippee with
        | None => <[tippee := None]> _participants
        | Some _ => _participants
        end in
      let now := utcnow n in
      amount ← Decimal amount;
      collect_tips recs' (Datatypes.S n) _participants
        (tips ++ [tip now tipper tippee amount])
  end.

(** [data = ["participants"] + participants + ["tips"] + tips] *)
Definition setup_tips_data (recs : list tip_rec) : result (list thing) :=
  '(_participants, tips) ← collect_tips recs 0 ∅ [];
  let participants := (λ item, participant item.1 item.2) <$> map_to_list _participants in
  Ok ([TStr "participants"] ++ (TDict <$> participants)
        ++ [TStr "tips"] ++ (TDict <$> tips))%list.

Definition setup_tips (recs : list tip_rec) : M S () :=
  data ← lift (setup_tips_data recs);
  __call__ data.

End setup_tips.

(** A [Decimal] and a clock for examples. *)
Definition text_Decimal (amount : string) : result value := Ok (VStr amount).
Definition counting_utcnow (n : nat) : value := VInt (Z.of_nat n).

(** A dump with a not-a-number in a row. *)
Definition nan_widgets : snapshot :=
  {[ "widgets" := {[ VInt 1 := ({[ "id" := VInt 1; "price" := VNaN 1 ]} : row) ]} ]}.

(** A column name that ends with a newline. *)
Definition id_newline : string := String "i" (String "d" (String newline "")).

(** A store whose catalogue has an index definition without a
    parenthesis. *)
Definition malformed_world : world fixed_store :=
  World (FixedStore (Some ["widgets"]) (Some [("widgets", "widgets_pkey")]) ∅) ∅ None [].

(** A store whose catalogue lists no primary-key index. *)
Definition unindexed_world : world fixed_store :=
  World (FixedStore (Some ["widgets"]) None ∅) ∅ None [].

(** A store with the tables of [setup_tips], and one in which [tips]
    has no primary key; two [recs]. *)
Definition tips_store : fixed_store :=
  FixedStore
    (Some ["tips"; "participants"])
    (Some [("participants",
            "CREATE UNIQUE INDEX participants_pkey ON participants USING btree (id)");
           ("tips", "CREATE UNIQUE INDEX tips_pkey ON tips USING btree (id)")])
    ∅.

Definition tips_world : world fixed_store := World tips_store ∅ None [].

Definition unkeyed_tips_world : world fixed_store :=
  World
    (FixedStore
       (Some ["tips"; "participants"])
       (Some [("participants",
               "CREATE UNIQUE INDEX participants_pkey ON participants USING btree (id)")])
       ∅)
    ∅ None [].

Definition two_tips : list tip_rec :=
  [("alice", "bob", "2.00", Some true); ("bob", "carl", "1.00", None)].

(** What a computation returned, [d] when it raised. *)
Definition returned {A} (d : A) (r : result A) : A :=
  match r with
  | Ok a => a
  | Raise _ => d
  end.

(** ** Items that the checks of a load let through *)

Definition acceptable (known : list string) (item : thing) : Prop :=
  match item with
  | TStr name => name ∈ known ∧ name ≠ ""
  | TDict r => ∀ c, c ∈ dom r → colname_re_match c = true
  | TSeq _ => True
  end.

(** * Properties *)

(** ** The order on the items of a row *)

#[global] Instance item_le_trans : Transitive item_le.
Proof. intros x y z. unfold item_le. by etrans. Qed.

#[global] Instance item_le_total : Total item_le.
Proof. intros x y. unfold item_le. apply (total String.le). Qed.

(** ** [sorted(a.keys()) == sorted(b.keys())] compares the sets of keys *)

Lemma sorted_keys_Permutation {V} (d : gmap string V) :
  sorted_keys d ≡ₚ (map_to_list d).*1.
Proof. apply merge_sort_Permutation. Qed.

Lemma elem_of_sorted_keys {V} (d : gmap string V) (k : string) :
  k ∈ sorted_keys d ↔ k ∈ dom d.
Proof.
  rewrite sorted_keys_Permutation, elem_of_dom, list_elem_of_fmap. split.
  - intros [[k' v] [-> Hin]]. apply elem_of_map_to_list in Hin. by exists v.
  - intros [v Hv]. exists (k, v). split; [done|]. by apply elem_of_map_to_list.
Qed.

Lemma sorted_keys_eq_iff {V W} (a : gmap string V) (b : gmap string W) :
  sorted_keys a = sorted_keys b ↔ dom a = dom b.
Proof.
  split.
  - intros Heq. apply set_eq. intros k.
    by rewrite <-!elem_of_sorted_keys, Heq.
  - intros Hdom. apply (Sorted_unique String.le).
    + apply (Sorted_merge_sort String.le).
    + apply (Sorted_merge_sort String.le).
    + rewrite !sorted_keys_Permutation. apply NoDup_Permutation.
      * apply NoDup_fst_map_to_list.
      * apply NoDup_fst_map_to_list.
      * intros k. rewrite <-!sorted_keys_Permutation, !elem_of_sorted_keys.
        by rewrite Hdom.
Qed.

(** ** The loops of [_diff], stated without their accumulators *)

Lemma bind_Ok {A B} (m : result A) (f : A → result B) (b : B) :
  m ≫= f = Ok b ↔ ∃ a, m = Ok a ∧ f a = Ok b.
Proof.
  destruct m as [a|e]; simpl.
  - split; [by exists a|]. by intros (? & [= <-] & ?).
  - split; [done|]. by intros (? & ? & ?).
Qed.

Lemma bind_Raise {A B} (m : result A) (f : A → result B) (e : exn) :
  m ≫= f = Raise e ↔ m = Raise e ∨ ∃ a, m = Ok a ∧ f a = Raise e.
Proof.
  destruct m as [a|e']; simpl.
  - split; [intros; right; by exists a|]. by intros [|(? & [= <-] & ?)].
  - split; [intros [= ->]; by left|]. intros [[= ->]|(? & ? & ?)]; [done|discriminate].
Qed.

Lemma getitem_Ok `{Countable K} {V} (d : gmap K V) (k : K) (err : value) (v : V) :
  getitem d k err = Ok v ↔ d !! k = Some v.
Proof. unfold getitem. destruct (d !! k); naive_solver. Qed.

Lemma getitem_Raise `{Countable K} {V} (d : gmap K V) (k : K) (err : value) (e : exn) :
  getitem d k err = Raise e ↔ d !! k = None ∧ e = KeyError err.
Proof. unfold getitem. destruct (d !! k); naive_solver. Qed.

Lemma column_changed_lookup a_row c v old :
  a_row !! c = Some old → column_changed a_row (c, v) ↔ py_ne old v.
Proof. intros Hold. unfold column_changed, py_ne. simpl. rewrite Hold. naive_solver. Qed.

Lemma diff_columns_Ok a_row items update u :
  diff_columns a_row items update = Ok u ↔
  (∀ c v, (c, v) ∈ items → is_Some (a_row !! c)) ∧
  u = foldl (note_change a_row) update items.
Proof.
  revert update. induction items as [|[c v] items IH]; intros update; simpl.
  - split; [|by intros [_ ->]].
    intros [= <-]. split; [|done]. intros ?? Hin. inversion Hin.
  - rewrite bind_Ok. setoid_rewrite getitem_Ok. split.
    + intros (old & Hold & Hrest). apply IH in Hrest as [Hin ->]. split.
      * intros c' v' [[= -> ->]|?]%elem_of_cons; eauto.
      * f_equal. unfold note_change; simpl.
        pose proof (column_changed_lookup a_row c v old Hold).
        repeat case_decide; naive_solver.
    + intros [Hin ->]. destruct (Hin c v) as [old Hold]; [left|].
      exists old. split; [done|]. apply IH. split.
      * intros c' v' ?. apply (Hin c' v'). by right.
      * f_equal. unfold note_change; simpl.
        pose proof (column_changed_lookup a_row c v old Hold).
        repeat case_decide; naive_solver.
Qed.

Lemma diff_columns_Raise a_row items update e :
  diff_columns a_row items update = Raise e →
  ∃ c v, (c, v) ∈ items ∧ a_row !! c = None ∧ e = KeyError (VStr c).
Proof.
  revert update. induction items as [|[c v] items IH]; intros update; simpl; [done|].
  rewrite bind_Raise, getitem_Raise. setoid_rewrite getitem_Ok.
  intros [[Hc ->]|(old & _ & Hrest)].
  - exists c, v. split; [left|done].
  - apply IH in Hrest as (c' & v' & ? & ? & ?). exists c', v'. split; [by right|done].
Qed.

Lemma lookup_foldl_note_change a_row items update c :
  NoDup items.*1 →
  foldl (note_change a_row) update items !! c =
    match (list_to_map items : row) !! c with
    | Some v => if decide (column_changed a_row (c, v)) then Some v else update !! c
    | None => update !! c
    end.
Proof.
  revert update. induction items as [|[c' v'] items IH]; intros update Hnd; simpl; [done|].
  apply NoDup_cons in Hnd as [Hnotin Hnd]. rewrite IH by done.
  destruct (decide (c' = c)) as [->|Hne].
  - rewrite lookup_insert_eq.
    rewrite (not_elem_of_list_to_map_1 _ c) by done.
    unfold note_change; simpl. case_decide; [by rewrite lookup_insert_eq|done].
  - rewrite lookup_insert_ne by done.
    assert (note_change a_row update (c', v') !! c = update !! c) as ->; [|done].
    unfold note_change; simpl. case_decide; [by rewrite lookup_insert_ne|done].
Qed.

Lemma foldl_note_change_row a_row b_row :
  foldl (note_change a_row) ∅ (map_to_list b_row) = changed_columns a_row b_row.
Proof.
  apply map_eq. intros c.
  rewrite lookup_foldl_note_change by apply NoDup_fst_map_to_list.
  rewrite list_to_map_to_list. unfold changed_columns.
  destruct (b_row !! c) as [v|] eqn:Hc.
  - case_decide.
    + symmetry. by apply map_lookup_filter_Some.
    + rewrite lookup_empty. symmetry. apply map_lookup_filter_None. right.
      intros v' Hv'. simpl. naive_solver.
  - rewrite lookup_empty. symmetry. apply map_lookup_filter_None. by left.
Qed.

Lemma diff_columns_row_Ok a_row b_row u :
  diff_columns a_row (map_to_list b_row) ∅ = Ok u ↔
  dom b_row ⊆ dom a_row ∧ u = changed_columns a_row b_row.
Proof.
  rewrite diff_columns_Ok, foldl_note_change_row. split; intros [Hdom ->]; split; try done.
  - intros c [v Hv]%elem_of_dom. apply elem_of_dom. apply (Hdom c v).
    by apply elem_of_map_to_list.
  - intros c v Hin%elem_of_map_to_list. apply elem_of_dom, Hdom, elem_of_dom. eauto.
Qed.

Lemma filter_empty_iff {V} (P : string * V → Prop) `{!∀ x, Decision (P x)}
    (m : gmap string V) :
  filter P m = ∅ ↔ ∀ i x, m !! i = Some x → ¬ P (i, x).
Proof.
  rewrite map_empty. split.
  - intros Hnone i x Hi HP.
    assert (filter P m !! i = Some x) as Hsome by by apply map_lookup_filter_Some.
    by rewrite Hnone in Hsome.
  - intros Hall i. apply map_lookup_filter_None.
    destruct (m !! i) as [x|] eqn:Hi; [right|by left].
    intros x' [= <-]. by apply Hall.
Qed.

Lemma changed_columns_empty a_row b_row :
  dom a_row = dom b_row →
  changed_columns a_row b_row = ∅ ↔ a_row = b_row ∧ nan_free_row b_row.
Proof.
  intros Hdom. unfold changed_columns, column_changed. rewrite filter_empty_iff. split.
  - intros Hall. split.
    + apply map_eq. intros c. destruct (b_row !! c) as [v|] eqn:Hc.
      * specialize (Hall c v Hc). simpl in Hall.
        destruct (decide (a_row !! c = Some v)); [done|]. destruct Hall. by left.
      * apply not_elem_of_dom. rewrite Hdom. by apply not_elem_of_dom.
    + intros c v Hc. specialize (Hall c v Hc). simpl in Hall.
      destruct (is_nan v); [|done]. destruct Hall. by right.
  - intros [-> Hfree] c v Hc. simpl. specialize (Hfree c v Hc).
    intros [?|?]; congruence.
Qed.

Lemma changed_columns_self (r : row) :
  nan_free_row r → changed_columns r r = ∅.
Proof. intros Hfree. by apply changed_columns_empty. Qed.

Lemma rows_ok_cons pkeys table_name a_table key b_row items :
  rows_ok pkeys table_name a_table ((key, b_row) :: items) ↔
  (∀ a_row, a_table !! key = Some a_row →
     dom b_row ⊆ dom a_row ∧
     (changed_columns a_row b_row ≠ ∅ →
      ∃ pkey, pkeys !! table_name = Some pkey ∧ is_Some (b_row !! pkey))) ∧
  rows_ok pkeys table_name a_table items.
Proof.
  unfold rows_ok. split.
  - intros Hok. split.
    + intros a_row. apply Hok. left.
    + intros k rb ra ?. apply Hok. by right.
  - intros [Hhd Htl] k rb ra [[= -> ->]|?]%elem_of_cons; [apply Hhd|by apply Htl].
Qed.

Lemma update_record_insert pkeys table_name a_row b_row pkey v :
  pkeys !! table_name = Some pkey → b_row !! pkey = Some v →
  <[pkey := v]> (changed_columns a_row b_row)
  = update_record pkeys table_name a_row b_row.
Proof.
  intros Hpk Hv. apply map_eq. intros c.
  unfold update_record, changed_columns. rewrite Hpk.
  destruct (decide (pkey = c)) as [<-|Hne].
  - rewrite lookup_insert_eq. symmetry. apply map_lookup_filter_Some. naive_solver.
  - rewrite lookup_insert_ne by done. rewrite !map_lookup_filter.
    destruct (b_row !! c) as [v'|]; simpl; [|done].
    repeat case_guard; naive_solver.
Qed.

Lemma inserts_of_cons a_table key b_row items :
  inserts_of a_table ((key, b_row) :: items)
  = match a_table !! key with
    | None => b_row :: inserts_of a_table items
    | Some _ => inserts_of a_table items
    end.
Proof.
  unfold inserts_of. cbn [filter list_filter fst].
  destruct (a_table !! key); [by rewrite decide_False|by rewrite decide_True].
Qed.

Lemma updates_of_cons pkeys table_name a_table key b_row items :
  updates_of pkeys table_name a_table ((key, b_row) :: items)
  = match a_table !! key with
    | None => updates_of pkeys table_name a_table items
    | Some a_row =>
        if decide (changed_columns a_row b_row = ∅)
        then updates_of pkeys table_name a_table items
        else update_record pkeys table_name a_row b_row
             :: updates_of pkeys table_name a_table items
    end.
Proof.
  unfold updates_of. cbn [omap list_omap]. unfold update_of at 1. cbn [fst snd].
  destruct (a_table !! key); simpl; [|done]. by case_decide.
Qed.

Lemma diff_rows_Ok pkeys table_name a_table items inserts updates res :
  diff_rows pkeys table_name a_table items inserts updates = Ok res ↔
  rows_ok pkeys table_name a_table items ∧
  res = ((inserts ++ inserts_of a_table items)%list,
         (updates ++ updates_of pkeys table_name a_table items)%list).
Proof.
  revert inserts updates.
  induction items as [|[key b_row] items IH]; intros inserts updates.
  - simpl. unfold inserts_of, updates_of; simpl. rewrite !app_nil_r. split.
    + intros [= <-]. split; [|done]. intros ??? Hin. inversion Hin.
    + by intros [_ ->].
  - rewrite rows_ok_cons, inserts_of_cons, updates_of_cons. cbn [diff_rows].
    destruct (a_table !! key) as [a_row|] eqn:Ha.
    + rewrite bind_Ok. setoid_rewrite diff_columns_row_Ok. split.
      * intros (u & [Hdom ->] & Hrest). case_decide as Hch.
        -- apply IH in Hrest as [Hok ->]. split; [|done]. split; [|done].
           intros ? [= <-]. split; [done|]. intros Hne. by destruct Hne.
        -- apply bind_Ok in Hrest as (pkey & Hpk%getitem_Ok & Hrest).
           apply bind_Ok in Hrest as (v & Hv%getitem_Ok & Hrest).
           apply IH in Hrest as [Hok ->].
           rewrite (update_record_insert _ _ _ _ _ _ Hpk Hv), <-app_assoc.
           split; [|done]. split; [|done].
           intros ? [= <-]. split; [done|]. intros _. exists pkey. eauto.
      * intros [[Hhd Hok] ->]. destruct (Hhd a_row eq_refl) as [Hdom Hpk].
        exists (changed_columns a_row b_row). split; [done|].
        case_decide as Hch.
        -- apply IH. done.
        -- destruct (Hpk Hch) as (pkey & Hpkey & v & Hv).
           apply bind_Ok. exists pkey. split; [by apply getitem_Ok|].
           apply bind_Ok. exists v. split; [by apply getitem_Ok|].
           apply IH. split; [done|].
           by rewrite (update_record_insert _ _ _ _ _ _ Hpkey Hv), <-app_assoc.
    + rewrite IH, <-app_assoc. simpl.
      split; intros [Hok ->]; (split; [|done]); [split; [|done]|apply Hok].
      intros ? [=].
Qed.

Lemma diff_rows_Raise pkeys table_name a_table items inserts updates e :
  diff_rows pkeys table_name a_table items inserts updates = Raise e →
  ∃ key, e = KeyError key.
Proof.
  revert inserts updates.
  induction items as [|[key b_row] items IH]; intros inserts updates; simpl; [done|].
  destruct (a_table !! key) as [a_row|]; [|apply IH].
  rewrite bind_Raise. intros [Hcol|(u & _ & Hrest)].
  - apply diff_columns_Raise in Hcol as (c & _ & _ & _ & ->). eauto.
  - case_decide; [by eapply IH|].
    apply bind_Raise in Hrest as [[_ ->]%getitem_Raise|(pkey & _ & Hrest)]; [eauto|].
    apply bind_Raise in Hrest as [[_ ->]%getitem_Raise|(v & _ & Hrest)]; [eauto|].
    by eapply IH.
Qed.

Lemma diff_deletes_eq b_table items deletes :
  diff_deletes b_table items deletes = (deletes ++ deletes_of b_table items)%list.
Proof.
  revert deletes. unfold deletes_of.
  induction items as [|[key a_row] items IH]; intros deletes; simpl.
  - by rewrite app_nil_r.
  - rewrite IH. cbn [filter list_filter fst].
    destruct (b_table !! key); simpl; [done|]. by rewrite <-app_assoc.
Qed.

Lemma diff_table_Ok pkeys table_name a_table b_table lists :
  diff_table pkeys table_name a_table b_table = Ok lists ↔
  rows_ok pkeys table_name a_table (map_to_list b_table) ∧
  lists = table_lists pkeys table_name a_table b_table.
Proof.
  unfold diff_table, table_lists. rewrite bind_Ok. split.
  - intros ([inserts updates] & [Hok [= -> ->]]%diff_rows_Ok & [= <-]).
    split; [done|]. by rewrite diff_deletes_eq.
  - intros [Hok ->]. eexists (_, _). split.
    + apply diff_rows_Ok. split; [done|]. reflexivity.
    + simpl. by rewrite diff_deletes_eq.
Qed.

Lemma diff_table_Raise pkeys table_name a_table b_table e :
  diff_table pkeys table_name a_table b_table = Raise e → ∃ key, e = KeyError key.
Proof.
  unfold diff_table. rewrite bind_Raise.
  intros [Hrows|([inserts updates] & _ & [=])]. by eapply diff_rows_Raise.
Qed.

Lemma emit_entry_of compact table_name lists out :
  emit compact table_name lists out
  = match entry_of compact lists with
    | Some entry => <[table_name := entry]> out
    | None => out
    end.
Proof.
  destruct lists as [[inserts updates] deletes]. unfold emit, entry_of.
  by destruct (nonempty inserts || nonempty updates || nonempty deletes).
Qed.

Lemma emit_table_eq pkeys a compact out table_name a_table b_table :
  a !! table_name = Some a_table →
  emit_table pkeys a compact out (table_name, b_table)
  = emit compact table_name (table_lists pkeys table_name a_table b_table) out.
Proof. intros Ha. unfold emit_table. simpl. by rewrite Ha. Qed.

Lemma diff_tables_Ok pkeys a compact items out out' :
  diff_tables pkeys a compact items out = Ok out' ↔
  tables_ok pkeys a items ∧ out' = foldl (emit_table pkeys a compact) out items.
Proof.
  revert out. induction items as [|[table_name b_table] items IH]; intros out;
    cbn [diff_tables foldl].
  - split; [|by intros [_ ->]].
    intros [= <-]. split; [|done]. intros ?? Hin. inversion Hin.
  - rewrite bind_Ok. setoid_rewrite getitem_Ok. setoid_rewrite bind_Ok.
    setoid_rewrite diff_table_Ok. setoid_rewrite IH. split.
    + intros (a_table & Ha & lists & [Hok ->] & Htl & ->).
      rewrite (emit_table_eq _ _ _ _ _ _ _ Ha).
      split; [|done]. intros t tb [[= -> ->]|?]%elem_of_cons; [eauto|by apply Htl].
    + intros [Hok ->]. destruct (Hok table_name b_table) as (a_table & Ha & Hrows); [left|].
      rewrite (emit_table_eq _ _ _ _ _ _ _ Ha). exists a_table. split; [done|].
      eexists. split; [done|]. split; [|done].
      intros t tb ?. apply Hok. by right.
Qed.

Lemma diff_tables_Raise pkeys a compact items out e :
  diff_tables pkeys a compact items out = Raise e → ∃ key, e = KeyError key.
Proof.
  revert out. induction items as [|[table_name b_table] items IH]; intros out; simpl; [done|].
  rewrite bind_Raise. intros [[_ ->]%getitem_Raise|(a_table & _ & Hrest)]; [eauto|].
  apply bind_Raise in Hrest as [Htab|(lists & _ & Hrest)].
  - by eapply diff_table_Raise.
  - by eapply IH.
Qed.

Lemma lookup_foldl_emit_table pkeys a compact items out table_name :
  NoDup items.*1 →
  foldl (emit_table pkeys a compact) out items !! table_name
  = match (list_to_map items : snapshot) !! table_name with
    | Some b_table =>
        match entry_of compact
                (table_lists pkeys table_name (default ∅ (a !! table_name)) b_table) with
        | Some entry => Some entry
        | None => out !! table_name
        end
    | None => out !! table_name
    end.
Proof.
  revert out. induction items as [|[t tb] items IH]; intros out Hnd; [done|].
  rewrite fmap_cons in Hnd. apply NoDup_cons in Hnd as [Hnotin Hnd].
  cbn [foldl]. rewrite IH by done. rewrite list_to_map_cons.
  unfold emit_table at 1 2. rewrite emit_entry_of. cbn [fst snd] in *.
  destruct (decide (t = table_name)) as [->|Hne].
  - rewrite lookup_insert_eq, (not_elem_of_list_to_map_1 _ table_name) by done.
    destruct (entry_of _ _); [by rewrite lookup_insert_eq|done].
  - rewrite lookup_insert_ne by done.
    destruct (entry_of compact (table_lists pkeys t _ tb));
      [by rewrite lookup_insert_ne|done].
Qed.

Section properties.
Context {S : Type} `{!Backend S}.
Implicit Types (w : world S) (a b : snapshot) (pkeys : gmap string string).

(** *** Reading methods leave the world alone *)

Lemma _get_primary_keys_world w : (_get_primary_keys w).2 = w.
Proof. done. Qed.

Lemma _get_table_names_world w : (_get_table_names w).2 = w.
Proof. done. Qed.

(** *** What [_diff] returns, and when *)

Lemma _diff_unfold a b compact w :
  _diff a b compact w
  = (pkeys ← (_get_primary_keys w).1;
     if decide (dom a = dom b)
     then diff_tables pkeys a compact (map_to_list b) ∅
     else Raise (AssertionError ddl_message), w).
Proof.
  unfold _diff, mbind, M_bind, _get_primary_keys, reading, lift, raise. simpl.
  destruct (primary_keys (store w)) as [pkeys|e]; simpl; [|done].
  destruct (decide (sorted_keys a = sorted_keys b)) as [Heq|Hne].
  - apply sorted_keys_eq_iff in Heq. by rewrite decide_True.
  - rewrite decide_False; [done|]. by rewrite <-sorted_keys_eq_iff.
Qed.

Lemma _diff_Ok a b compact w out w' :
  _diff a b compact w = (Ok out, w') ↔
  w' = w ∧
  ∃ pkeys, (_get_primary_keys w).1 = Ok pkeys ∧ dom a = dom b ∧
    tables_ok pkeys a (map_to_list b) ∧
    ∀ table_name,
      out !! table_name
      = (a_table ← a !! table_name; b_table ← b !! table_name;
         entry_of compact (table_lists pkeys table_name a_table b_table)).
Proof.
  rewrite _diff_unfold. split.
  - intros [= Hres <-]. split; [done|].
    apply bind_Ok in Hres as (pkeys & Hpk & Hres). exists pkeys. split; [done|].
    case_decide as Hdom; [|done]. split; [done|].
    apply diff_tables_Ok in Hres as [Hok ->]. split; [done|].
    intros t. rewrite lookup_foldl_emit_table by apply NoDup_fst_map_to_list.
    rewrite list_to_map_to_list, lookup_empty.
    destruct (b !! t) as [tb|] eqn:Hb.
    + destruct (Hok t tb) as (ta & -> & _); [by apply elem_of_map_to_list|].
      cbn [default mbind option_bind]. by destruct (entry_of compact _).
    + by destruct (a !! t).
  - intros (-> & pkeys & Hpk & Hdom & Hok & Hout). f_equal.
    apply bind_Ok. exists pkeys. split; [done|]. rewrite decide_True by done.
    apply diff_tables_Ok. split; [done|]. apply map_eq. intros t.
    rewrite Hout, lookup_foldl_emit_table by apply NoDup_fst_map_to_list.
    rewrite list_to_map_to_list, lookup_empty.
    destruct (b !! t) as [tb|] eqn:Hb.
    + destruct (Hok t tb) as (ta & -> & _); [by apply elem_of_map_to_list|].
      cbn [default mbind option_bind]. by destruct (entry_of compact _).
    + by destruct (a !! t).
Qed.

(** *** Membership in the three lists of a table *)

Lemma elem_of_inserts_of (a_table b_table : table) (r : row) :
  r ∈ inserts_of a_table (map_to_list b_table) ↔
  ∃ key, b_table !! key = Some r ∧ a_table !! key = None.
Proof.
  unfold inserts_of. rewrite list_elem_of_fmap. split.
  - intros ([key r'] & -> & [Hnone Hin%elem_of_map_to_list]%list_elem_of_filter). eauto.
  - intros (key & Hb & Ha). exists (key, r). split; [done|].
    apply list_elem_of_filter. split; [done|]. by apply elem_of_map_to_list.
Qed.

Lemma elem_of_deletes_of (a_table b_table : table) (r : row) :
  r ∈ deletes_of b_table (map_to_list a_table) ↔
  ∃ key, a_table !! key = Some r ∧ b_table !! key = None.
Proof.
  unfold deletes_of. rewrite list_elem_of_fmap. split.
  - intros ([key r'] & -> & [Hnone Hin%elem_of_map_to_list]%list_elem_of_filter). eauto.
  - intros (key & Hb & Ha). exists (key, r). split; [done|].
    apply list_elem_of_filter. split; [done|]. by apply elem_of_map_to_list.
Qed.

Lemma elem_of_updates_of pkeys table_name (a_table b_table : table) (u : row) :
  u ∈ updates_of pkeys table_name a_table (map_to_list b_table) ↔
  ∃ key a_row b_row,
    a_table !! key = Some a_row ∧ b_table !! key = Some b_row ∧
    changed_columns a_row b_row ≠ ∅ ∧
    u = update_record pkeys table_name a_row b_row.
Proof.
  unfold updates_of. rewrite list_elem_of_omap. split.
  - intros ([key b_row] & Hin%elem_of_map_to_list & Hu). unfold update_of in Hu.
    simpl in Hu. destruct (a_table !! key) as [a_row|] eqn:Ha; [|done]. simpl in Hu.
    case_decide; [done|]. injection Hu as <-. by exists key, a_row, b_row.
  - intros (key & a_row & b_row & Ha & Hb & Hch & ->). exists (key, b_row).
    split; [by apply elem_of_map_to_list|]. unfold update_of. simpl. rewrite Ha. simpl.
    by rewrite decide_False.
Qed.

Lemma entry_of_None compact (lists : list row * list row * list row) :
  entry_of compact lists = None ↔ lists = ([], [], []).
Proof.
  destruct lists as [[[|i inserts] [|u updates]] [|d deletes]]; simpl;
    split; intros; done.
Qed.

Lemma table_lists_self pkeys table_name (tb : table) :
  map_Forall (λ _ r, nan_free_row r) tb →
  table_lists pkeys table_name tb tb = ([], [], []).
Proof.
  intros Hfree.
  unfold table_lists. f_equal; [f_equal|]; apply elem_of_nil_inv; intros r.
  - rewrite elem_of_inserts_of. by intros (k & -> & ?).
  - rewrite elem_of_updates_of. intros (k & ra & rb & Hra & Hrb & Hch & _).
    assert (ra = rb) as -> by congruence.
    apply Hch, changed_columns_self. by eapply Hfree.
  - rewrite elem_of_deletes_of. by intros (k & -> & ?).
Qed.

Lemma rows_ok_self pkeys table_name (tb : table) :
  map_Forall (λ _ r, nan_free_row r) tb →
  rows_ok pkeys table_name tb (map_to_list tb).
Proof.
  intros Hfree key b_row a_row Hin%elem_of_map_to_list Ha.
  assert (a_row = b_row) as -> by congruence. split; [done|].
  intros Hch. destruct Hch. apply changed_columns_self. by eapply Hfree.
Qed.

Lemma _diff_self s compact w pkeys :
  (_get_primary_keys w).1 = Ok pkeys → nan_free s →
  _diff s s compact w = (Ok ∅, w).
Proof.
  intros Hpk Hfree. apply _diff_Ok. split; [done|]. exists pkeys.
  split; [done|]. split; [done|]. split.
  - intros t tb Hin%elem_of_map_to_list. exists tb. split; [done|].
    apply rows_ok_self. by eapply Hfree.
  - intros t. rewrite lookup_empty. destruct (s !! t) as [tb|] eqn:Hs; [|done].
    cbn [mbind option_bind]. rewrite table_lists_self; [done|]. by eapply Hfree.
Qed.

(** *** The check on the table names *)

Lemma _diff_same_tables a b compact w pkeys :
  (_get_primary_keys w).1 = Ok pkeys → dom a = dom b →
  _diff a b compact w = (diff_tables pkeys a compact (map_to_list b) ∅, w).
Proof.
  intros Hpk Hdom. rewrite _diff_unfold, Hpk. simpl. by rewrite decide_True.
Qed.

(** C6, as the code has it: [_diff] reads the primary keys before it
    compares the table names.  When they can be read, [_diff] raises
    the assertion error on the table names (the SchemaDriftError of
    the specification) exactly when the two dumps do not have the
    same set of table names, and it does so without touching the
    world; when the sets are the same it goes on to the loop over the
    tables, which never raises an assertion error. *)
Theorem diff_schema_drift a b compact w pkeys :
  (_get_primary_keys w).1 = Ok pkeys →
  (dom a ≠ dom b → _diff a b compact w = (Raise SchemaDriftError, w)) ∧
  (dom a = dom b →
     _diff a b compact w = (diff_tables pkeys a compact (map_to_list b) ∅, w) ∧
     ∀ msg, (_diff a b compact w).1 ≠ Raise (AssertionError msg)).
Proof.
  intros Hpk. rewrite _diff_unfold, Hpk. simpl. split.
  - intros Hne. by rewrite decide_False.
  - intros Heq. rewrite decide_True by done. split; [done|].
    intros msg Hraise. simpl in Hraise.
    by apply diff_tables_Raise in Hraise as [key ?].
Qed.

(** *** A dump against itself *)

(** C5, as the code has it: when the primary keys of the store can be
    read, the diff of a dump with itself is the empty dictionary, in
    the full and in the compact form and with the world unchanged,
    exactly when no value of the dump is a not-a-number: such a value
    is [!=] to itself, and its row counts as changed. *)
Theorem diff_identity s compact w pkeys :
  (_get_primary_keys w).1 = Ok pkeys →
  _diff s s compact w = (Ok ∅, w) ↔ nan_free s.
Proof.
  intros Hpk. split; [|by apply (_diff_self _ _ _ pkeys)].
  intros Hdiff t tb Hs key r Hr.
  apply _diff_Ok in Hdiff as (_ & pkeys' & _ & _ & _ & Hlookup).
  specialize (Hlookup t). rewrite lookup_empty, Hs in Hlookup.
  cbn [mbind option_bind] in Hlookup. symmetry in Hlookup.
  apply entry_of_None in Hlookup. injection Hlookup as _ Hupdates _.
  apply (changed_columns_empty r r); [done|].
  destruct (decide (changed_columns r r = ∅)) as [|Hch]; [done|].
  assert (update_record pkeys' t r r ∈ updates_of pkeys' t tb (map_to_list tb)) as Hin.
  { apply elem_of_updates_of. by exists key, r, r. }
  rewrite Hupdates in Hin. by apply elem_of_nil in Hin.
Qed.

(** *** The compact form *)

Lemma emit_compact_form table_name lists out :
  emit true table_name lists (compact_form <$> out)
  = compact_form <$> emit false table_name lists out.
Proof.
  destruct lists as [[inserts updates] deletes]. unfold emit.
  destruct (nonempty inserts || nonempty updates || nonempty deletes); [|done].
  by rewrite fmap_insert.
Qed.

Lemma diff_tables_compact_form pkeys a items out :
  diff_tables pkeys a true items (compact_form <$> out)
  = fmap (M := gmap string) compact_form <$> diff_tables pkeys a false items out.
Proof.
  revert out. induction items as [|[t tb] items IH]; intros out; simpl; [done|].
  destruct (getitem a t (VStr t)) as [ta|e]; simpl; [|done].
  destruct (diff_table pkeys t ta tb) as [lists|e]; simpl; [|done].
  by rewrite emit_compact_form, IH.
Qed.

Lemma _diff_compact_form a b w :
  _diff a b true w
  = (fmap (M := gmap string) compact_form <$> (_diff a b false w).1, w).
Proof.
  rewrite !_diff_unfold. f_equal. cbn [fst].
  destruct ((_get_primary_keys w).1) as [pkeys|e]; simpl; [|done].
  case_decide; [|done].
  by rewrite <-diff_tables_compact_form, fmap_empty.
Qed.

Lemma _diff_entries_Full a b w out table_name entry :
  (_diff a b false w).1 = Ok out → out !! table_name = Some entry →
  ∃ inserts updates deletes, entry = Full inserts updates deletes.
Proof.
  intros Hout Hentry. destruct (_diff a b false w) as [res w'] eqn:Hdiff.
  simpl in Hout. subst res.
  apply _diff_Ok in Hdiff as (_ & pkeys & _ & _ & _ & Hlookup).
  rewrite Hlookup in Hentry.
  destruct (a !! table_name) as [ta|]; [|done].
  destruct (b !! table_name) as [tb|]; [|done]. cbn [mbind option_bind] in Hentry.
  destruct (table_lists pkeys table_name ta tb) as [[i u] d]. unfold entry_of in Hentry.
  destruct (nonempty i || nonempty u || nonempty d); [|done].
  injection Hentry as <-. eauto.
Qed.

(** C9: the compact diff and the full diff of the same two dumps
    agree.  Both raise the same exception, or both return; then they
    have entries for the same tables, every entry of the full diff
    holds the three lists, and the entry of the compact diff for that
    table holds the lengths of the lists of inserts, updates and
    deletes, in that order. *)
Theorem compact_diff_agrees a b w :
  match (_diff a b false w).1, (_diff a b true w).1 with
  | Ok full, Ok compact =>
      dom compact = dom full ∧
      ∀ table_name, table_name ∈ dom full →
        ∃ inserts updates deletes,
          full !! table_name = Some (Full inserts updates deletes) ∧
          compact !! table_name
          = Some (Compact (length inserts) (length updates) (length deletes))
  | Raise e, Raise e' => e = e'
  | _, _ => False
  end.
Proof.
  rewrite _diff_compact_form. simpl.
  destruct ((_diff a b false w).1) as [full|e] eqn:Hfull; simpl; [|done].
  split; [by rewrite dom_fmap_L|].
  intros t [entry Hentry]%elem_of_dom.
  destruct (_diff_entries_Full _ _ _ _ _ _ Hfull Hentry) as (i & u & d & ->).
  exists i, u, d. split; [done|]. by rewrite lookup_fmap, Hentry.
Qed.

(** *** Rows with different columns *)

(** C10: only the table names are compared before the rows are.  When
    the two dumps have the same table names and some row of B has a
    column that the row of A with the same key does not have, [_diff]
    raises a [KeyError] and returns no diff. *)
Theorem diff_column_mismatch_raises a b compact w pkeys
    table_name a_table b_table key a_row b_row colname :
  (_get_primary_keys w).1 = Ok pkeys →
  dom a = dom b →
  a !! table_name = Some a_table → b !! table_name = Some b_table →
  a_table !! key = Some a_row → b_table !! key = Some b_row →
  colname ∈ dom b_row → colname ∉ dom a_row →
  ∃ missing, _diff a b compact w = (Raise (KeyError missing), w).
Proof.
  intros Hpk Hdom Ha Hb Hra Hrb Hin Hnotin.
  rewrite (_diff_same_tables a b compact w pkeys Hpk Hdom).
  destruct (diff_tables pkeys a compact (map_to_list b) ∅) as [out|e] eqn:Hres.
  - apply diff_tables_Ok in Hres as [Hok _].
    destruct (Hok table_name b_table) as (a_table' & Ha' & Hrows);
      [by apply elem_of_map_to_list|].
    assert (a_table' = a_table) as -> by congruence.
    destruct (Hrows key b_row a_row) as [Hsub _]; [by apply elem_of_map_to_list|done|].
    by destruct Hnotin; apply Hsub.
  - apply diff_tables_Raise in Hres as [missing ->]. by exists missing.
Qed.

(** *** The update records *)



(** *** The classification of the keys of a table *)

Lemma NoDup_filter_keys {K A} (P : K * A → Prop) `{!∀ x, Decision (P x)}
    (l : list (K * A)) :
  NoDup l.*1 → NoDup (filter P l).*1.
Proof.
  intros Hnd. eapply sublist_NoDup; [done|]. apply fmap_sublist, sublist_filter.
Qed.

Lemma Forall2_keys_rows {K A} (Q : K → A → Prop) (l : list (K * A)) :
  Forall (λ x, Q x.1 x.2) l → Forall2 Q l.*1 l.*2.
Proof. induction 1; constructor; done. Qed.

Lemma Forall2_keys_omap {K A B} (f : K * A → option B) (Q : K → B → Prop)
    (l : list (K * A)) :
  (∀ k r u, (k, r) ∈ l → f (k, r) = Some u → Q k u) →
  Forall2 Q (filter (λ x, is_Some (f x)) l).*1 (omap f l).
Proof.
  induction l as [|[k r] l IH]; intros HQ; [constructor|].
  rewrite filter_cons. cbn [omap list_omap].
  destruct (f (k, r)) as [u|] eqn:Hf.
  - rewrite decide_True by eauto. constructor.
    + apply (HQ k r u); [left|done].
    + apply IH. intros k' r' u' ?. apply HQ. by right.
  - rewrite decide_False by (by intros [? ?]).
    apply IH. intros k' r' u' ?. apply HQ. by right.
Qed.

Lemma changed_columns_differ (a_row b_row : row) :
  dom b_row ⊆ dom a_row →
  changed_columns a_row b_row ≠ ∅ ↔ rows_differ a_row b_row.
Proof.
  intros Hsub. split.
  - intros (c & vb & [Hvb Hch]%map_lookup_filter_Some)%map_choose.
    assert (c ∈ dom a_row) as [va Hva]%elem_of_dom by (apply Hsub, elem_of_dom; eauto).
    exists c, va, vb. split; [done|]. split; [done|].
    by apply (column_changed_lookup a_row c vb va).
  - intros (c & va & vb & Hva & Hvb & Hne) Hempty.
    assert (changed_columns a_row b_row !! c = Some vb) as Hin.
    { apply map_lookup_filter_Some. split; [done|].
      by apply (column_changed_lookup a_row c vb va). }
    by rewrite Hempty in Hin.
Qed.

Lemma rows_differ_self (r : row) : nan_free_row r → ¬ rows_differ r r.
Proof.
  intros Hfree (c & va & vb & Hva & Hvb & [Hne|Hnan]); [congruence|].
  specialize (Hfree c vb Hvb). simpl in Hfree. congruence.
Qed.

(** C1, as the code has it: the diff assumes that the rows of A and B
    stored under the same key have the same columns, and that a row
    of B that changed has the primary-key column which the store
    reports for its table.  Then, when the primary keys can be read
    and the two dumps have the same table names, [_diff] returns, and
    for every table: each key of B that A lacks contributes the row
    of B to the inserts, each key of A that B lacks contributes the
    row of A to the deletes, each key of both whose rows have a
    column with values that are [!=] contributes its update record to
    the updates, once each and nothing else; the table has an entry
    exactly when one of the three lists is not empty.  Rows that are
    not equal are among the updates; a row that is the same in both
    dumps is not, unless it holds a not-a-number. *)
Theorem diff_classifies a b w pkeys :
  (_get_primary_keys w).1 = Ok pkeys →
  dom a = dom b →
  same_columns a b →
  changed_rows_keyed pkeys a b →
  ∃ out, _diff a b false w = (Ok out, w) ∧
    ∀ table_name a_table b_table,
      a !! table_name = Some a_table → b !! table_name = Some b_table →
      ∃ inserts updates deletes insert_keys update_keys delete_keys,
        out !! table_name
        = (if nonempty inserts || nonempty updates || nonempty deletes
           then Some (Full inserts updates deletes) else None) ∧
        NoDup insert_keys ∧
        (∀ key, key ∈ insert_keys ↔ key ∈ dom b_table ∧ key ∉ dom a_table) ∧
        Forall2 (λ key r, b_table !! key = Some r) insert_keys inserts ∧
        NoDup delete_keys ∧
        (∀ key, key ∈ delete_keys ↔ key ∈ dom a_table ∧ key ∉ dom b_table) ∧
        Forall2 (λ key r, a_table !! key = Some r) delete_keys deletes ∧
        NoDup update_keys ∧
        (∀ key, key ∈ update_keys ↔
           ∃ a_row b_row, a_table !! key = Some a_row ∧
                          b_table !! key = Some b_row ∧ rows_differ a_row b_row) ∧
        (∀ key a_row b_row,
           a_table !! key = Some a_row → b_table !! key = Some b_row →
           a_row ≠ b_row → key ∈ update_keys) ∧
        (∀ key r,
           a_table !! key = Some r → b_table !! key = Some r →
           nan_free_row r → key ∉ update_keys) ∧
        Forall2 (λ key u, ∃ a_row b_row,
                   a_table !! key = Some a_row ∧ b_table !! key = Some b_row ∧
                   u = update_record pkeys table_name a_row b_row)
                update_keys updates.
Proof.
  intros Hpk Hdom Hcols Hkeyed.
  assert (tables_ok pkeys a (map_to_list b)) as Hok.
  { intros t tb Hb%elem_of_map_to_list.
    assert (t ∈ dom a) as [ta Ha]%elem_of_dom by (rewrite Hdom; by apply elem_of_dom).
    exists ta. split; [done|].
    intros key rb ra Hrb%elem_of_map_to_list Hra.
    pose proof (Hcols t ta tb key ra rb Ha Hb Hra Hrb) as Hsame. split.
    - by rewrite Hsame.
    - intros Hch. by apply (Hkeyed t ta tb key ra rb). }
  exists (foldl (emit_table pkeys a false) ∅ (map_to_list b)).
  assert (_diff a b false w
          = (Ok (foldl (emit_table pkeys a false) ∅ (map_to_list b)), w)) as Hdiff.
  { rewrite _diff_unfold, Hpk. cbn [mbind result_bind]. rewrite decide_True by done.
    f_equal. by apply diff_tables_Ok. }
  split; [done|].
  apply _diff_Ok in Hdiff as (_ & pkeys' & Hpk' & _ & _ & Hlookup).
  assert (pkeys' = pkeys) as -> by congruence.
  intros t ta tb Ha Hb. rewrite Hlookup, Ha, Hb. cbn [mbind option_bind].
  set (update_keys :=
    (filter (λ kr, is_Some (update_of pkeys t ta kr)) (map_to_list tb)).*1).
  assert (∀ key, key ∈ update_keys ↔
            ∃ a_row b_row, ta !! key = Some a_row ∧ tb !! key = Some b_row ∧
                           rows_differ a_row b_row) as Hupdates.
  { intros key. unfold update_keys. rewrite list_elem_of_fmap. split.
    - intros ([k rb] & -> & [[u Hu] Hrb%elem_of_map_to_list]%list_elem_of_filter).
      unfold update_of in Hu. simpl in *.
      destruct (ta !! k) as [ra|] eqn:Hra; [|done]. simpl in Hu.
      case_decide as Hch; [done|]. exists ra, rb. repeat (split; [done|]).
      apply changed_columns_differ; [|done].
      by rewrite (Hcols t ta tb k ra rb Ha Hb Hra Hrb).
    - intros (ra & rb & Hra & Hrb & Hne). exists (key, rb). split; [done|].
      apply list_elem_of_filter. split; [|by apply elem_of_map_to_list].
      unfold update_of. simpl. rewrite Hra. simpl. rewrite decide_False; [eauto|].
      apply changed_columns_differ; [|done].
      by rewrite (Hcols t ta tb key ra rb Ha Hb Hra Hrb). }
  exists (inserts_of ta (map_to_list tb)),
         (updates_of pkeys t ta (map_to_list tb)),
         (deletes_of tb (map_to_list ta)),
         (filter (λ kr, ta !! kr.1 = None) (map_to_list tb)).*1,
         update_keys,
         (filter (λ kr, tb !! kr.1 = None) (map_to_list ta)).*1.
  split; [done|].
  split; [apply NoDup_filter_keys, NoDup_fst_map_to_list|].
  split.
  { intros key. rewrite list_elem_of_fmap, elem_of_dom, not_elem_of_dom. split.
    - intros ([k r] & -> & [Hnone Hin%elem_of_map_to_list]%list_elem_of_filter). eauto.
    - intros [[r Hr] Hnone]. exists (key, r). split; [done|].
      apply list_elem_of_filter. split; [done|]. by apply elem_of_map_to_list. }
  split.
  { apply Forall2_keys_rows, Forall_forall.
    intros [k r] [_ Hin%elem_of_map_to_list]%list_elem_of_filter. done. }
  split; [apply NoDup_filter_keys, NoDup_fst_map_to_list|].
  split.
  { intros key. rewrite list_elem_of_fmap, elem_of_dom, not_elem_of_dom. split.
    - intros ([k r] & -> & [Hnone Hin%elem_of_map_to_list]%list_elem_of_filter). eauto.
    - intros [[r Hr] Hnone]. exists (key, r). split; [done|].
      apply list_elem_of_filter. split; [done|]. by apply elem_of_map_to_list. }
  split.
  { apply Forall2_keys_rows, Forall_forall.
    intros [k r] [_ Hin%elem_of_map_to_list]%list_elem_of_filter. done. }
  split; [apply NoDup_filter_keys, NoDup_fst_map_to_list|].
  split; [done|].
  split.
  { intros key ra rb Hra Hrb Hne. apply Hupdates. exists ra, rb.
    repeat (split; [done|]).
    pose proof (Hcols t ta tb key ra rb Ha Hb Hra Hrb) as Hsame.
    apply changed_columns_differ; [by rewrite Hsame|].
    intros Hch. apply Hne. by apply changed_columns_empty in Hch as [? _]. }
  split.
  { intros key r Hra Hrb Hfree (ra & rb & Hra' & Hrb' & Hdiffer)%Hupdates.
    assert (ra = r) as -> by congruence. assert (rb = r) as -> by congruence.
    by apply (rows_differ_self r). }
  apply Forall2_keys_omap.
  intros k rb u Hrb%elem_of_map_to_list Hu. unfold update_of in Hu. simpl in Hu.
  destruct (ta !! k) as [ra|] eqn:Hra; [|done]. simpl in Hu.
  case_decide; [done|]. injection Hu as <-. by exists ra, rb.
Qed.

(** *** The primary keys *)

Lemma string_app_cons (c : ascii) (x y : string) :
  String c x ++ y = String c (x ++ y).
Proof. reflexivity. Qed.

Lemma string_app_assoc (x y z : string) : (x ++ y) ++ z = x ++ (y ++ z).
Proof. induction x as [|c x IH]; [done|]. rewrite !string_app_cons. by f_equal. Qed.

Lemma string_app_nil_r (x : string) : x ++ "" = x.
Proof. induction x as [|c x IH]; [done|]. rewrite string_app_cons. by f_equal. Qed.

Lemma has_char_app c (x y : string) :
  has_char c (x ++ y) = has_char c x || has_char c y.
Proof.
  induction x as [|c' x IH]; [done|].
  rewrite string_app_cons. simpl. rewrite <-orb_assoc. by f_equal.
Qed.

Lemma split_nonempty sep s : split sep s ≠ [].
Proof.
  destruct s as [|c rest]; simpl; [done|].
  destruct (Ascii.eqb c sep); [done|]. by destruct (split sep rest).
Qed.

Lemma split_head sep s piece pieces :
  split sep s = piece :: pieces →
  has_char sep piece = false ∧
  (pieces = [] ∧ s = piece ∨
   ∃ rest, s = piece ++ String sep rest ∧ pieces = split sep rest).
Proof.
  revert piece pieces. induction s as [|c s IH]; intros piece pieces; simpl.
  - intros [= <- <-]. split; [done|]. by left.
  - destruct (Ascii.eqb c sep) eqn:Hc.
    + apply Ascii.eqb_eq in Hc as ->. intros [= <- <-]. split; [done|].
      right. by exists s.
    + destruct (split sep s) as [|p ps] eqn:Hsplit; [by apply split_nonempty in Hsplit|].
      intros [= <- <-]. destruct (IH p ps eq_refl) as [Hp Hcases]. split.
      * simpl. by rewrite Hc, Hp.
      * destruct Hcases as [[-> ->]|(rest & -> & ->)]; [by left|].
        right. by exists rest.
Qed.

Lemma split_no_char sep s : has_char sep s = false → split sep s = [s].
Proof.
  induction s as [|c s IH]; simpl; [done|].
  intros [Hc Hs]%orb_false_iff. by rewrite Hc, IH.
Qed.

Lemma split_has_char sep s :
  has_char sep s = true → ∃ piece next pieces, split sep s = piece :: next :: pieces.
Proof.
  induction s as [|c s IH]; simpl; [done|].
  destruct (Ascii.eqb c sep); simpl.
  - intros _. destruct (split sep s) as [|p ps] eqn:Hsplit;
      [by apply split_nonempty in Hsplit|eauto].
  - intros (p & n & ps & ->)%IH. eauto.
Qed.

Lemma parse_pkey_Ok indexdef pkey :
  parse_pkey indexdef = Ok pkey → between_parens indexdef pkey.
Proof.
  unfold parse_pkey.
  destruct (split "(" indexdef) as [|before [|inner pieces]] eqn:Hsplit; try done.
  destruct (split ")" inner) as [|pkey' tail] eqn:Hinner; [done|].
  intros [= ->].
  apply split_head in Hsplit as [Hbefore [[[=] _]|(rest0 & -> & Hrest0)]].
  symmetry in Hrest0. apply split_head in Hrest0 as [Hopen Hcases0].
  apply split_head in Hinner as [Hclose Hcases].
  assert (has_char "(" pkey = false) as Hopen'.
  { destruct Hcases as [[_ ->]|(rest2 & -> & _)]; [done|].
    rewrite has_char_app in Hopen. by apply orb_false_iff in Hopen as [? _]. }
  destruct Hcases as [[_ ->]|(rest2 & -> & _)];
    destruct Hcases0 as [[_ ->]|(rest1 & -> & _)].
  - exists before, "". rewrite string_app_nil_r. eauto 10.
  - exists before, (String "(" rest1). eauto 10.
  - exists before, (String ")" rest2). eauto 10.
  - exists before, (String ")" (rest2 ++ String "(" rest1)).
    rewrite string_app_assoc. simpl. eauto 10.
Qed.

Lemma parse_pkey_total indexdef :
  has_char "(" indexdef = true → ∃ pkey, parse_pkey indexdef = Ok pkey.
Proof.
  intros (before & inner & pieces & Hsplit)%split_has_char.
  unfold parse_pkey. rewrite Hsplit.
  destruct (split ")" inner) as [|pkey tail] eqn:Hinner;
    [by apply split_nonempty in Hinner|eauto].
Qed.

Lemma parse_pkey_Raise indexdef :
  has_char "(" indexdef = false →
  parse_pkey indexdef = Raise (IndexError "list index out of range").
Proof. intros Hno. unfold parse_pkey. by rewrite split_no_char. Qed.

Lemma collect_pkeys_Ok _pkeys acc :
  Forall (λ r, has_char "(" r.2 = true) _pkeys →
  ∃ pkeys, collect_pkeys _pkeys acc = Ok pkeys ∧
    (∀ t, t ∈ dom pkeys ↔ t ∈ dom acc ∨ t ∈ _pkeys.*1) ∧
    (∀ t pkey, pkeys !! t = Some pkey →
       acc !! t = Some pkey ∨
       ∃ indexdef, (t, indexdef) ∈ _pkeys ∧ parse_pkey indexdef = Ok pkey).
Proof.
  revert acc. induction _pkeys as [|[tablename indexdef] rest IH]; intros acc Hall.
  - exists acc. split; [done|]. split; [|by left].
    intros t. rewrite fmap_nil, elem_of_nil. tauto.
  - apply Forall_cons in Hall as [Hhd Hall]. simpl in Hhd.
    destruct (parse_pkey_total indexdef Hhd) as [pkey Hpkey].
    destruct (IH (<[tablename := pkey]> acc) Hall) as (pkeys & Hres & Hdom & Hlookup).
    exists pkeys. cbn [collect_pkeys]. rewrite Hpkey. cbn [mbind result_bind].
    split; [done|]. split.
    + intros t. rewrite Hdom, dom_insert, elem_of_union, elem_of_singleton.
      rewrite fmap_cons, elem_of_cons. simpl. tauto.
    + intros t pk [Hacc|(d & Hin & Hd)]%Hlookup.
      * apply lookup_insert_Some in Hacc as [[<- <-]|[_ Hacc]]; [|by left].
        right. exists indexdef. split; [left|done].
      * right. exists d. split; [by right|done].
Qed.

Lemma collect_pkeys_Raise _pkeys acc :
  Exists (λ r, has_char "(" r.2 = false) _pkeys →
  collect_pkeys _pkeys acc = Raise (IndexError "list index out of range").
Proof.
  revert acc. induction _pkeys as [|[tablename indexdef] rest IH]; intros acc Hex.
  - inversion Hex.
  - simpl. destruct (has_char "(" indexdef) eqn:Hhd.
    + destruct (parse_pkey_total indexdef Hhd) as [pkey ->]. simpl. apply IH.
      apply Exists_cons in Hex as [Hex|Hex]; [|done]. simpl in Hex. congruence.
    + by rewrite parse_pkey_Raise.
Qed.

(** C7, as the code has it: nothing is checked.  When the query on
    [pg_indexes] has rows, [_get_primary_keys] returns one entry for
    each table named by a row, whose value is the text between the
    first opening parenthesis of an index definition of that table
    and the next parenthesis, whatever that text is; it raises only
    when an index definition has no opening parenthesis, and then an
    [IndexError]. *)
Theorem primary_keys_unchecked w _pkeys :
  pg_indexes (store w) = Some _pkeys →
  (Forall (λ r, has_char "(" r.2 = true) _pkeys →
     ∃ pkeys, _get_primary_keys w = (Ok pkeys, w) ∧
       (∀ t, t ∈ dom pkeys ↔ t ∈ _pkeys.*1) ∧
       (∀ t pkey, pkeys !! t = Some pkey →
          ∃ indexdef, (t, indexdef) ∈ _pkeys ∧ between_parens indexdef pkey)) ∧
  (Exists (λ r, has_char "(" r.2 = false) _pkeys →
     _get_primary_keys w = (Raise (IndexError "list index out of range"), w)).
Proof.
  intros Hidx. unfold _get_primary_keys, reading, primary_keys. rewrite Hidx. split.
  - intros Hall. destruct (collect_pkeys_Ok _pkeys ∅ Hall) as (pkeys & -> & Hdom & Hlookup).
    exists pkeys. split; [done|]. split.
    + intros t. rewrite Hdom, dom_empty, elem_of_empty. tauto.
    + intros t pkey [Hacc|(d & Hin & Hd)]%Hlookup; [done|].
      exists d. split; [done|]. by apply parse_pkey_Ok.
  - intros Hex. by rewrite collect_pkeys_Raise.
Qed.

(** *** The guard of [_delete_data] *)

Lemma db_execute_world sql values w :
  issued (db_execute sql values w).2 = (issued w ++ [(sql, values)])%list ∧
  environ (db_execute sql values w).2 = environ w ∧
  self_a (db_execute sql values w).2 = self_a w.
Proof. unfold db_execute. by destruct (execute sql values (store w)). Qed.

Lemma truncate_tables_issued table_names w :
  ∃ n, issued (truncate_tables table_names w).2
       = (issued w ++ (truncate_statement <$> take n table_names))%list ∧
       environ (truncate_tables table_names w).2 = environ w ∧
       self_a (truncate_tables table_names w).2 = self_a w ∧
       ((truncate_tables table_names w).1 = Ok () → n = length table_names).
Proof.
  revert w. induction table_names as [|t rest IH]; intros w.
  - exists 0. simpl. by rewrite app_nil_r.
  - cbn [truncate_tables]. unfold mbind, M_bind.
    destruct (db_execute_world ("TRUNCATE TABLE " ++ t ++ " CASCADE") [] w)
      as (Hissued & Henv & Hself).
    destruct (db_execute _ [] w) as [[[]|e] w1]; simpl in Hissued, Henv, Hself.
    + destruct (IH w1) as (n & Hissued' & Henv' & Hself' & Hlen).
      exists (Datatypes.S n). rewrite Hissued', Henv', Hself', Hissued. simpl.
      rewrite <-app_assoc. split; [done|]. split; [done|]. split; [done|].
      intros Hok. by rewrite Hlen.
    + exists 1. cbn [take fmap list_fmap fst snd]. split; [done|]. split; [done|].
      split; [done|]. intros [=].
Qed.

(** C3: [_delete_data] truncates the tables only when the environment
    variable is set to the expected phrase.  When the variable is not
    set, or is set to anything else, it raises (a [KeyError] for the
    missing variable, [Exception("Heck.")] for a wrong value: the
    SafetyViolationError of the specification) and leaves the world as
    it was: no statement is handed to the store, whose data stay as
    they are.  With the right phrase it issues the [TRUNCATE] of the
    tables in the order of their names, up to the first that the
    store refuses. *)
Theorem delete_data_guard w :
  (environ w !! safety_belt_name = Some safety_belt_phrase →
     _delete_data w = truncate_tables (table_names (store w)) w ∧
     ∃ n, issued (_delete_data w).2
          = (issued w ++ (truncate_statement <$> take n (table_names (store w))))%list ∧
          ((_delete_data w).1 = Ok () → n = length (table_names (store w)))) ∧
  (environ w !! safety_belt_name ≠ Some safety_belt_phrase →
     ∃ e, SafetyViolationError e ∧ _delete_data w = (Raise e, w) ∧
          (environ w !! safety_belt_name = None → e = KeyError (VStr safety_belt_name)) ∧
          (is_Some (environ w !! safety_belt_name) → e = Exception "Heck.")).
Proof.
  unfold _delete_data, mbind, M_bind, os_environ, reading, getitem, raise,
    _get_table_names.
  destruct (environ w !! safety_belt_name) as [token|] eqn:Henv; split.
  - intros [= ->]. rewrite decide_False by (by intros []). split; [done|].
    destruct (truncate_tables_issued (table_names (store w)) w)
      as (n & Hissued & _ & _ & Hlen).
    eauto.
  - intros Hne. rewrite decide_True by congruence.
    exists (Exception "Heck."). split; [by right|]. split; [done|]. split; [done|done].
  - done.
  - intros _. exists (KeyError (VStr safety_belt_name)).
    split; [by left|]. split; [done|]. split; [done|]. by intros [? ?].
Qed.

(** *** [diff] changes nothing *)

Lemma dump_tables_world pkeys table_names out w :
  (dump_tables pkeys table_names out w).2 = w.
Proof.
  revert out. induction table_names as [|t rest IH]; intros out; [done|].
  cbn [dump_tables]. unfold mbind, M_bind, lift, fetch_rows, reading.
  destruct (getitem pkeys t (VStr t)); [|done].
  destruct (map_rows _ _ ∅); [|done]. apply IH.
Qed.

Lemma dump_world w : (dump w).2 = w.
Proof.
  unfold dump, mbind, M_bind, _get_primary_keys, _get_table_names, reading.
  destruct (primary_keys (store w)); [|done].
  apply dump_tables_world.
Qed.

Lemma _diff_world a b compact w : (_diff a b compact w).2 = w.
Proof. by rewrite _diff_unfold. Qed.

Lemma diff_world compact w : (diff compact w).2 = w.
Proof.
  unfold diff, mbind, M_bind, get_self_a, reading.
  destruct (self_a w); [|done].
  pose proof (dump_world w) as Hdump. destruct (dump w) as [[b|e] w']; simpl in Hdump.
  - subst w'. apply _diff_world.
  - done.
Qed.

(** A load that returns has stored the dump of the store as it is
    then in [self.a]. *)
Lemma call_stores_dump data w0 w :
  __call__ data w0 = (Ok (), w) →
  ∃ s, self_a w = Some s ∧ (dump w).1 = Ok s.
Proof.
  unfold __call__, mbind, M_bind, _get_table_names, reading.
  destruct (load_things _ "" data w0) as [[[]|e] w1]; [|done].
  pose proof (dump_world w1) as Hworld.
  destruct (dump w1) as [[s|e] w2] eqn:Hdump; [|done]. simpl in Hworld. subst w2.
  unfold set_self_a. intros [= <-]. exists s. split; [done|].
  assert (∀ w w', store w' = store w → (dump w').1 = (dump w).1) as Hstore.
  { intros wa wb Heq. unfold dump, mbind, M_bind, _get_primary_keys,
      _get_table_names, reading. rewrite Heq.
    destruct (primary_keys (store wa)) as [pkeys|];
      [|done].
    generalize (∅ : snapshot). induction (table_names (store wa)) as [|t rest IH];
      intros out; [done|].
    cbn [dump_tables]. unfold mbind, M_bind, lift, fetch_rows, reading. rewrite Heq.
    destruct (getitem pkeys t (VStr t)); [|done].
    destruct (map_rows _ _ ∅); [|done]. apply IH. }
  rewrite (Hstore w1); [by rewrite Hdump|done].
Qed.

(** *** The loader *)

Lemma check_columns_Ok items :
  Forall (λ x, colname_re_match x.1 = true) items →
  check_columns items = Ok (items.*1, items.*2).
Proof.
  induction 1 as [|[c v] items Hc _ IH]; [done|].
  simpl in *. by rewrite Hc, IH.
Qed.

Lemma check_columns_Raise items :
  Exists (λ x, colname_re_match x.1 = false) items →
  check_columns items = Raise InvalidIdentifierError.
Proof.
  induction items as [|[c v] items IH]; intros Hex; [by inversion Hex|].
  simpl. destruct (colname_re_match c) eqn:Hc; [|done].
  rewrite IH; [done|]. apply Exists_cons in Hex as [Hex|Hex]; [|done].
  simpl in Hex. congruence.
Qed.

Lemma sorted_items_Permutation (r : row) : sorted_items r ≡ₚ map_to_list r.
Proof. apply merge_sort_Permutation. Qed.

Lemma elem_of_sorted_items (r : row) c v : (c, v) ∈ sorted_items r ↔ r !! c = Some v.
Proof. by rewrite sorted_items_Permutation, elem_of_map_to_list. Qed.

Lemma StronglySorted_strict {A} (R : relation A) (l : list A) :
  StronglySorted R l → NoDup l → AntiSymm (=) R → StronglySorted (strict R) l.
Proof.
  intros Hsorted Hnd Hanti. induction Hsorted as [|x l Hl IH Hall]; [constructor|].
  apply NoDup_cons in Hnd as [Hx Hnd]. constructor; [by apply IH|].
  apply Forall_forall. intros y Hy. split; [by eapply Forall_forall in Hall|].
  intros Hyx. assert (x = y) as ->; [|done].
  apply (anti_symm R); [|done]. by eapply Forall_forall in Hall.
Qed.

Lemma sorted_items_sorted (r : row) :
  StronglySorted (strict String.le) (sorted_items r).*1.
Proof.
  apply StronglySorted_strict; [| |apply _].
  - apply (StronglySorted_fmap _ item_le); [done|].
    apply StronglySorted_merge_sort; apply _.
  - rewrite sorted_items_Permutation. apply NoDup_fst_map_to_list.
Qed.

Lemma insert_sql_statement table_name colnames :
  insert_sql table_name (" (" ++ join ", " colnames ++ ") ") (length colnames)
  = insert_statement table_name colnames.
Proof.
  unfold insert_sql, insert_statement. do 2 f_equal.
  by rewrite !string_app_assoc.
Qed.

Lemma load_things_app known table_name pre rest w :
  load_things known table_name (pre ++ rest)%list w
  = match load_things known table_name pre w with
    | (Ok _, w1) => load_things known (current_table table_name pre) rest w1
    | (Raise e, w1) => (Raise e, w1)
    end.
Proof.
  revert table_name w. induction pre as [|item pre IH]; intros table_name w; [done|].
  destruct item as [name|r|values]; cbn [app load_things current_table foldl].
  - case_decide; [apply IH|done].
  - case_decide; [done|]. unfold mbind at 1 3, M_bind, lift, reading.
    destruct (check_columns (sorted_items r)) as [[colnames values]|e]; [|done].
    unfold mbind, M_bind. destruct (db_execute _ values w) as [[[]|e] w1]; [|done].
    apply IH.
  - case_decide; [done|]. unfold mbind, M_bind.
    destruct (db_execute _ values w) as [[[]|e] w1]; [|done]. apply IH.
Qed.

Lemma load_things_issued known table_name data w :
  ∃ rest, issued (load_things known table_name data w).2 = (issued w ++ rest)%list.
Proof.
  revert table_name w. induction data as [|item data IH]; intros table_name w.
  - exists []. simpl. by rewrite app_nil_r.
  - destruct item as [name|r|values]; cbn [load_things].
    + case_decide; [apply IH|]. exists []. simpl. by rewrite app_nil_r.
    + case_decide; [exists []; simpl; by rewrite app_nil_r|].
      unfold mbind at 1, M_bind, lift, reading.
      destruct (check_columns (sorted_items r)) as [[colnames values]|e];
        [|exists []; simpl; by rewrite app_nil_r].
      unfold mbind, M_bind.
      match goal with |- context [db_execute ?sql values w] =>
        destruct (db_execute_world sql values w) as (Hissued & _ & _);
        destruct (db_execute sql values w) as [[[]|e] w1] end; simpl in Hissued.
      * destruct (IH table_name w1) as [rest ->]. rewrite Hissued, <-app_assoc. eauto.
      * simpl. rewrite Hissued. eauto.
    + case_decide; [exists []; simpl; by rewrite app_nil_r|].
      unfold mbind, M_bind.
      match goal with |- context [db_execute ?sql values w] =>
        destruct (db_execute_world sql values w) as (Hissued & _ & _);
        destruct (db_execute sql values w) as [[[]|e] w1] end; simpl in Hissued.
      * destruct (IH table_name w1) as [rest ->]. rewrite Hissued, <-app_assoc. eauto.
      * simpl. rewrite Hissued. eauto.
Qed.

Lemma call_unfold data w :
  __call__ data w
  = match load_things (table_names (store w)) "" data w with
    | (Ok _, w1) =>
        match (dump w1).1 with
        | Ok a => (Ok (), World (store w1) (environ w1) (Some a) (issued w1))
        | Raise e => (Raise e, w1)
        end
    | (Raise e, w1) => (Raise e, w1)
    end.
Proof.
  unfold __call__, mbind, M_bind, _get_table_names, reading.
  destruct (load_things _ "" data w) as [[[]|e] w1]; [|done].
  pose proof (dump_world w1) as Hworld.
  destruct (dump w1) as [[a|e] w2]; simpl in *; by subst.
Qed.

Lemma call_issued data w :
  issued (__call__ data w).2
  = issued (load_things (table_names (store w)) "" data w).2.
Proof.
  rewrite call_unfold.
  destruct (load_things _ "" data w) as [[[]|e] w1]; [|done].
  by destruct ((dump w1).1).
Qed.

Lemma length_sorted_items (r : row) : length (sorted_items r) = size r.
Proof. by rewrite sorted_items_Permutation, length_map_to_list. Qed.

(** Take a load whose items are [pre], then the record [r] given
    as a dictionary, then [post].

    When some column name of [r] does not match [colname_re], the
    load raises and leaves the world as it was after the items
    [pre]: no statement is executed for [r] or for what follows it,
    and [self.a] is not set again.  When the items before [r] loaded
    and named a table, the exception is the [ValueError] on the
    column name (the InvalidIdentifierError of the specification).

    When all the column names of [r] match, and the items before [r]
    loaded and named a table, the next statement executed is an
    [INSERT] into that table whose text names the columns of [r], all
    of them and nothing else, in increasing order, with one
    placeholder for each; the values are handed over separately as
    the parameters, in the order of the columns: the text does not
    depend on them. *)
Lemma load_record_checked pre r post w :
  let known := table_names (store w) in
  let after_pre := load_things known "" pre w in
  let table_name := current_table "" pre in
  let final := __call__ (pre ++ TDict r :: post)%list w in
  ((∃ c, c ∈ dom r ∧ colname_re_match c = false) →
     (∃ e, final = (Raise e, after_pre.2)) ∧
     (after_pre.1 = Ok () → table_name ≠ "" →
      final.1 = Raise InvalidIdentifierError)) ∧
  ((∀ c, c ∈ dom r → colname_re_match c = true) →
     after_pre.1 = Ok () → table_name ≠ "" →
     ∃ colnames values rest,
       issued final.2
       = (issued after_pre.2
            ++ (insert_statement table_name colnames, values) :: rest)%list ∧
       StronglySorted (strict String.le) colnames ∧
       (∀ c, c ∈ colnames ↔ c ∈ dom r) ∧
       Forall2 (λ c v, r !! c = Some v) colnames values).
Proof.
  intros known after_pre table_name final.
  assert (load_things known "" (pre ++ TDict r :: post)%list w
          = match after_pre with
            | (Ok _, w1) => load_things known table_name (TDict r :: post) w1
            | (Raise e, w1) => (Raise e, w1)
            end) as Hload by apply load_things_app.
  split.
  - intros (c & [v Hv]%elem_of_dom & Hbad).
    assert (check_columns (sorted_items r) = Raise InvalidIdentifierError) as Hcheck.
    { apply check_columns_Raise, Exists_exists. exists (c, v).
      split; [by apply elem_of_sorted_items|done]. }
    unfold final. rewrite call_unfold. fold known. rewrite Hload.
    destruct after_pre as [[[]|e] w1]; cbn [fst snd load_things].
    + case_decide as Htable.
      * unfold raise. split; [eauto|]. intros _ Hne. by destruct Hne.
      * unfold mbind, M_bind, lift, reading. rewrite Hcheck. split; [eauto|done].
    + split; [eauto|done].
  - intros Hgood Hpre Htable.
    assert (check_columns (sorted_items r)
            = Ok ((sorted_items r).*1, (sorted_items r).*2)) as Hcheck.
    { apply check_columns_Ok, Forall_forall. intros [c v] Hin%elem_of_sorted_items.
      apply Hgood, elem_of_dom. eauto. }
    exists (sorted_items r).*1, (sorted_items r).*2.
    assert (∃ rest,
      issued (load_things known table_name (TDict r :: post) after_pre.2).2
      = (issued after_pre.2
           ++ (insert_statement table_name (sorted_items r).*1, (sorted_items r).*2)
              :: rest)%list) as [rest Hissued].
    { cbn [load_things]. rewrite decide_False by done.
      unfold mbind at 1, M_bind, lift, reading. rewrite Hcheck.
      unfold mbind, M_bind.
      rewrite <-(length_sorted_items r), <-(length_fmap fst (sorted_items r)).
      rewrite insert_sql_statement.
      match goal with |- context [db_execute ?sql ?vals ?w0] =>
        destruct (db_execute_world sql vals w0) as (Hexec & _ & _);
        destruct (db_execute sql vals w0) as [[[]|e] w2] end; simpl in Hexec.
      - destruct (load_things_issued known table_name post w2) as [rest ->].
        exists rest. by rewrite Hexec, <-app_assoc.
      - exists []. simpl. by rewrite Hexec. }
    exists rest. split.
    { unfold final. rewrite call_issued. fold known. rewrite Hload.
      destruct after_pre as [[[]|e] w1]; [done|]. simpl in Hpre. done. }
    split; [apply sorted_items_sorted|]. split.
    + intros c. rewrite list_elem_of_fmap, elem_of_dom. split.
      * intros ([c' v] & -> & Hin%elem_of_sorted_items). eauto.
      * intros [v Hv]. exists (c, v). split; [done|]. by apply elem_of_sorted_items.
    + apply Forall2_keys_rows, Forall_forall.
      intros [c v] Hin%elem_of_sorted_items. done.
Qed.

(** *** What [colname_re] matches *)

Lemma at_dollar_skip_word_chars s :
  at_dollar (skip_word_chars s) = true ↔
  ∃ word, all_word_chars word = true ∧ (s = word ∨ s = word ++ String newline "").
Proof.
  induction s as [|c s IH]; simpl.
  - split; [|done]. intros _. exists "". auto.
  - destruct (is_word_char c) eqn:Hc.
    + rewrite IH. split.
      * intros (word & Hword & Hs). exists (String c word). simpl. rewrite Hc, Hword.
        split; [done|]. destruct Hs as [->| ->]; auto.
      * intros ([|c' word] & Hword & Hs).
        -- destruct Hs as [[=]|[= -> _]]. done.
        -- simpl in Hword. apply andb_true_iff in Hword as [_ Hword].
           exists word. split; [done|]. destruct Hs as [[= _ ->]|[= _ ->]]; auto.
    + split.
      * destruct s; [|done]. intros ->%Ascii.eqb_eq. exists "". auto.
      * intros ([|c' word] & Hword & Hs).
        -- destruct Hs as [[=]|[= -> ->]]. done.
        -- simpl in Hword. apply andb_true_iff in Hword as [Hc' _].
           destruct Hs as [[= -> _]|[= -> _]]; congruence.
Qed.

(** X1: The pattern matches the non-empty words over [[A-Za-z0-9_]], and
    also such a word followed by one newline, as [$] does in Python. *)
Lemma colname_re_match_spec s :
  colname_re_match s = true ↔
  ∃ word, word ≠ "" ∧ all_word_chars word = true ∧
          (s = word ∨ s = word ++ String newline "").
Proof.
  destruct s as [|c s]; simpl.
  - split; [done|]. intros ([|c word] & Hne & _ & Hs); [done|].
    by destruct Hs.
  - rewrite andb_true_iff, at_dollar_skip_word_chars. split.
    + intros (Hc & word & Hword & Hs). exists (String c word). simpl.
      rewrite Hc, Hword. split; [done|]. split; [done|].
      destruct Hs as [->| ->]; auto.
    + intros ([|c' word] & Hne & Hword & Hs); [done|].
      simpl in Hword. apply andb_true_iff in Hword as [Hc' Hword].
      destruct Hs as [[= -> ->]|[= -> ->]]; eauto.
Qed.

(** *** The check of the column names, by their characters *)

Lemma colname_re_match_identifier s :
  colname_re_match s = true ↔ is_identifier s = true ∨ identifier_and_newline s.
Proof.
  destruct s as [|c s]; simpl.
  - split; [done|]. intros [?|([|c word] & Hword & Hs)]; done.
  - rewrite andb_true_iff, at_dollar_skip_word_chars. split.
    + intros (Hc & word & Hword & [->| ->]).
      * left. by rewrite Hc, Hword.
      * right. exists (String c word). simpl. by rewrite Hc, Hword.
    + intros [[Hc Hs]%andb_true_iff|([|c' word] & Hword & Hs)]; [|done|].
      * split; [done|]. exists s. auto.
      * simpl in Hword. apply andb_true_iff in Hword as [Hc' Hword].
        injection Hs as -> ->. split; [done|]. exists word. auto.
Qed.

(** C2, as the code has it: take a load whose items are [pre], then
    the record [r] given as a dictionary, then [post].

    When some column name of [r] is not a non-empty word over
    [[A-Za-z0-9_]], and is not such a word with one newline after it
    either, the load raises and leaves the world as it was after the
    items [pre]: no statement is executed for [r] or for what follows
    it, and [self.a] is not set again.  The exception is the
    [ValueError] on the column name (the InvalidIdentifierError of the
    specification) when the items before [r] loaded and named a
    table; otherwise an earlier check raises first.

    When all the column names of [r] are non-empty words over
    [[A-Za-z0-9_]], and the items before [r] loaded and named a table,
    the next statement executed is an [INSERT] into that table whose
    text names the columns of [r], all of them and nothing else, in
    increasing order, with one placeholder for each; the values are
    handed over separately as the parameters, in the order of the
    columns: the text does not depend on them. *)
Theorem loader_checks_columns pre r post w :
  let known := table_names (store w) in
  let after_pre := load_things known "" pre w in
  let table_name := current_table "" pre in
  let final := __call__ (pre ++ TDict r :: post)%list w in
  ((∃ c, c ∈ dom r ∧ is_identifier c = false ∧ ¬ identifier_and_newline c) →
     (∃ e, final = (Raise e, after_pre.2)) ∧
     (after_pre.1 = Ok () → table_name ≠ "" →
      final.1 = Raise InvalidIdentifierError)) ∧
  ((∀ c, c ∈ dom r → is_identifier c = true) →
     after_pre.1 = Ok () → table_name ≠ "" →
     ∃ colnames values rest,
       issued final.2
       = (issued after_pre.2
            ++ (insert_statement table_name colnames, values) :: rest)%list ∧
       StronglySorted (strict String.le) colnames ∧
       (∀ c, c ∈ colnames ↔ c ∈ dom r) ∧
       Forall2 (λ c v, r !! c = Some v) colnames values).
Proof.
  intros known after_pre table_name final.
  destruct (load_record_checked pre r post w) as [Hbad Hgood]. split.
  - intros (c & Hc & Hword & Hnewline). apply Hbad. exists c. split; [done|].
    destruct (colname_re_match c) eqn:Hmatch; [|done].
    apply colname_re_match_identifier in Hmatch as [?|?]; [congruence|done].
  - intros Hwords. apply Hgood. intros c Hc.
    apply colname_re_match_identifier. left. by apply Hwords.
Qed.

(** *** The dumps are keyed by the primary keys *)

Lemma map_rows_keyed pkey rows mapped tb :
  map_rows pkey rows mapped = Ok tb →
  (∀ key r, mapped !! key = Some r → r !! pkey = Some key) →
  ∀ key r, tb !! key = Some r → r !! pkey = Some key.
Proof.
  revert mapped. induction rows as [|r0 rows IH]; intros mapped; simpl.
  - by intros [= <-].
  - rewrite bind_Ok. intros (key0 & Hkey0%getitem_Ok & Hrest) Hmapped.
    apply (IH _ Hrest). intros key r [[<- <-]|[_ ?]]%lookup_insert_Some; auto.
Qed.

Lemma dump_tables_keyed pkeys names out w s :
  (dump_tables pkeys names out w).1 = Ok s →
  ∀ t tb, s !! t = Some tb →
    out !! t = Some tb ∨
    ∃ pkey, pkeys !! t = Some pkey ∧ ∀ key r, tb !! key = Some r → r !! pkey = Some key.
Proof.
  revert out. induction names as [|t0 names IH]; intros out.
  - simpl. intros [= <-]. auto.
  - cbn [dump_tables]. unfold mbind, M_bind, lift, fetch_rows, reading.
    destruct (getitem pkeys t0 (VStr t0)) as [pkey|] eqn:Hpkey; [|done].
    apply getitem_Ok in Hpkey.
    destruct (map_rows pkey _ ∅) as [mapped|] eqn:Hrows; [|done].
    intros Hs t tb Htb. destruct (IH _ Hs t tb Htb) as [Hout|?]; [|auto].
    apply lookup_insert_Some in Hout as [[<- <-]|[_ ?]]; [|auto].
    right. exists pkey. split; [done|]. by eapply map_rows_keyed.
Qed.

(** Every row of a dump has the primary-key column of its table, with
    the key it is stored under as its value. *)
Lemma dump_keyed w s pkeys :
  (dump w).1 = Ok s → (_get_primary_keys w).1 = Ok pkeys →
  ∀ t tb, s !! t = Some tb →
    ∃ pkey, pkeys !! t = Some pkey ∧ ∀ key r, tb !! key = Some r → r !! pkey = Some key.
Proof.
  unfold dump, mbind, M_bind. intros Hdump Hpk.
  destruct (_get_primary_keys w) as [[pkeys'|] w'] eqn:Hread; [|done].
  simpl in Hpk. injection Hpk as ->.
  unfold _get_table_names, reading in Hdump.
  intros t tb Htb.
  destruct (dump_tables_keyed _ _ _ _ _ Hdump t tb Htb) as [Hout|?]; [done|auto].
Qed.

(** So the diff against a dump of this store never misses the
    primary-key column of a changed row. *)
Lemma dump_changed_rows_keyed w a s pkeys :
  (dump w).1 = Ok s → (_get_primary_keys w).1 = Ok pkeys →
  changed_rows_keyed pkeys a s.
Proof.
  intros Hdump Hpk t ta tb key ra rb _ Hb _ Hrb _.
  destruct (dump_keyed w s pkeys Hdump Hpk t tb Hb) as (pkey & Hpkey & Hrows).
  exists pkey. split; [done|]. exists key. by apply Hrows.
Qed.

(** *** The rows as objects: allocation and copies *)

Lemma alloc_spec r (h : Objects.heap) l h' :
  Objects.alloc r h = (l, h') →
  (l ∉ dom h) ∧ h ⊆ h' ∧ h' !! l = Some r ∧ dom h' = ({[l]} ∪ dom h).
Proof.
  unfold Objects.alloc. intros [= <- <-].
  assert (fresh (dom h) ∉ dom h) as Hfresh by apply is_fresh.
  split; [done|]. split; [|split].
  - apply insert_subseteq. by apply not_elem_of_dom.
  - apply lookup_insert_eq.
  - apply dom_insert_L.
Qed.

Lemma deref_mono (h h' : Objects.heap) l :
  h ⊆ h' → l ∈ dom h → Objects.deref h' l = Objects.deref h l.
Proof.
  intros Hsub [r Hr]%elem_of_dom. unfold Objects.deref.
  by rewrite Hr, (lookup_weaken _ _ _ _ Hr Hsub).
Qed.

Lemma resolve_table_mono (h h' : Objects.heap) (t : Objects.table_ref) :
  h ⊆ h' → (∀ key l, t !! key = Some l → l ∈ dom h) →
  resolve_table h' t = resolve_table h t.
Proof.
  intros Hsub Hclosed. apply map_eq. intros key. unfold resolve_table.
  rewrite !lookup_fmap. destruct (t !! key) as [l|] eqn:Hl; [|done]. simpl.
  f_equal. apply deref_mono; eauto.
Qed.

Lemma resolve_mono (h h' : Objects.heap) (s : Objects.snapshot_ref) :
  h ⊆ h' → (∀ l, refers_to s l → l ∈ dom h) → resolve h' s = resolve h s.
Proof.
  intros Hsub Hclosed. apply map_eq. intros t. unfold resolve.
  rewrite !lookup_fmap. destruct (s !! t) as [tb|] eqn:Ht; [|done]. simpl.
  f_equal. apply resolve_table_mono; [done|].
  intros key l Hl. apply Hclosed. by exists t, tb, key.
Qed.

Lemma alloc_rows_spec rows (h : Objects.heap) ls h' :
  Objects.alloc_rows rows h = (ls, h') →
  h ⊆ h' ∧ (Objects.deref h' <$> ls) = rows ∧
  Forall (λ l, (l ∉ dom h) ∧ l ∈ dom h') ls.
Proof.
  revert h ls h'. induction rows as [|r rows IH]; intros h ls h';
    cbn [Objects.alloc_rows].
  - intros [= <- <-]. done.
  - destruct (Objects.alloc r h) as [l h1] eqn:Halloc.
    destruct (Objects.alloc_rows rows h1) as [ls' h2] eqn:Hrest.
    intros [= <- <-].
    apply alloc_spec in Halloc as (Hfresh & Hsub & Hl & Hdom).
    destruct (IH _ _ _ Hrest) as (Hsub' & Hrows & Hls).
    split; [by etrans|]. split.
    + rewrite fmap_cons, Hrows. f_equal. unfold Objects.deref.
      by rewrite (lookup_weaken _ _ _ _ Hl Hsub').
    + constructor.
      * split; [done|]. apply elem_of_dom. exists r. by eapply lookup_weaken.
      * eapply Forall_impl; [done|]. intros l' [Hnew Hin]. split; [|done].
        intros Hold. apply Hnew. rewrite Hdom. set_solver.
Qed.

Lemma copy_rows_spec items (h : Objects.heap) copies h' :
  Objects.copy_rows items h = (copies, h') →
  Forall (λ x, x.2 ∈ dom h) items →
  h ⊆ h' ∧
  (prod_map id (Objects.deref h') <$> copies)
  = (prod_map id (Objects.deref h) <$> items) ∧
  Forall (λ x, (x.2 ∉ dom h) ∧ x.2 ∈ dom h') copies.
Proof.
  revert h copies h'. induction items as [|[key l] items IH]; intros h copies h';
    cbn [Objects.copy_rows].
  - intros [= <- <-] _. done.
  - destruct (Objects.alloc (Objects.deref h l) h) as [l' h1] eqn:Halloc.
    destruct (Objects.copy_rows items h1) as [copies' h2] eqn:Hrest.
    intros [= <- <-] [Hl Hclosed]%Forall_cons.
    apply alloc_spec in Halloc as (Hfresh & Hsub & Hl' & Hdom).
    destruct (IH _ _ _ Hrest) as (Hsub' & Hcopies & Hnew).
    { eapply Forall_impl; [done|]. intros x Hx. rewrite Hdom. set_solver. }
    split; [by etrans|]. split.
    + rewrite !fmap_cons, Hcopies. f_equal.
      * unfold prod_map. simpl. f_equal. unfold Objects.deref at 1.
        by rewrite (lookup_weaken _ _ _ _ Hl' Hsub').
      * apply Forall_fmap_ext_1. eapply Forall_impl; [done|].
        intros [k x] Hx. unfold prod_map. simpl. f_equal. by apply deref_mono.
    + constructor.
      * split; [done|]. apply elem_of_dom. exists (Objects.deref h l).
        by eapply lookup_weaken.
      * eapply Forall_impl; [done|]. intros x [Hx Hin]. split; [|done].
        intros Hold. apply Hx. rewrite Hdom. set_solver.
Qed.

Lemma copy_tables_spec items (h : Objects.heap) copies h' :
  Objects.copy_tables items h = (copies, h') →
  (∀ t tb key l, (t, tb) ∈ items → tb !! key = Some l → l ∈ dom h) →
  h ⊆ h' ∧
  (prod_map id (resolve_table h') <$> copies)
  = (prod_map id (resolve_table h) <$> items) ∧
  (∀ t tb key l, (t, tb) ∈ copies → tb !! key = Some l → (l ∉ dom h) ∧ l ∈ dom h').
Proof.
  revert h copies h'. induction items as [|[t tb] items IH]; intros h copies h';
    cbn [Objects.copy_tables].
  - intros [= <- <-] _. split; [done|]. split; [done|].
    intros ???? Hin. inversion Hin.
  - destruct (Objects.copy_rows (map_to_list tb) h) as [rows h1] eqn:Hrows.
    destruct (Objects.copy_tables items h1) as [copies' h2] eqn:Hrest.
    intros [= <- <-] Hclosed.
    apply copy_rows_spec in Hrows as (Hsub & Hcopy & Hnew).
    2:{ apply Forall_forall. intros [key l] Hin%elem_of_map_to_list.
        apply (Hclosed t tb key l); [left|done]. }
    destruct (IH _ _ _ Hrest) as (Hsub' & Hcopies & Hnew').
    { intros t' tb' key l Hin Hl. apply (subseteq_dom _ _ Hsub).
      apply (Hclosed t' tb' key l); [by right|done]. }
    assert (∀ key l, (list_to_map rows : Objects.table_ref) !! key = Some l →
                     (l ∉ dom h) ∧ l ∈ dom h1) as Hrows_new.
    { intros key l Hin%elem_of_list_to_map_2.
      rewrite Forall_forall in Hnew. apply (Hnew (key, l) Hin). }
    split; [by etrans|]. split; [|].
    + rewrite !fmap_cons, Hcopies. f_equal.
      * unfold prod_map. simpl. f_equal.
        rewrite (resolve_table_mono h1 h2) by (done || naive_solver).
        unfold resolve_table.
        rewrite <-list_to_map_fmap, Hcopy, list_to_map_fmap.
        by rewrite list_to_map_to_list.
      * apply Forall_fmap_ext_1, Forall_forall. intros [t' tb'] Hin.
        unfold prod_map. simpl. f_equal. apply resolve_table_mono; [done|].
        intros key l Hl. apply (Hclosed t' tb' key l); [by right|done].
    + intros t' tb' key l [[= -> ->]|Hin]%elem_of_cons Hl.
      * destruct (Hrows_new key l Hl) as [Hfresh Hdom].
        split; [done|]. by apply (subseteq_dom _ _ Hsub').
      * destruct (Hnew' t' tb' key l Hin Hl) as [Hfresh Hdom]. split; [|done].
        intros Hold. by apply Hfresh, (subseteq_dom _ _ Hsub).
Qed.

Lemma deepcopy_spec (baseline : Objects.snapshot_ref) (h : Objects.heap) copy h' :
  Objects.deepcopy baseline h = (copy, h') →
  (∀ l, refers_to baseline l → l ∈ dom h) →
  h ⊆ h' ∧ resolve h' copy = resolve h baseline ∧
  (∀ l, refers_to copy l → (l ∉ dom h) ∧ l ∈ dom h').
Proof.
  unfold Objects.deepcopy.
  destruct (Objects.copy_tables (map_to_list baseline) h) as [copies h1] eqn:Hcopy.
  intros [= <- <-] Hclosed.
  apply copy_tables_spec in Hcopy as (Hsub & Hcopies & Hnew).
  2:{ intros t tb key l Hin%elem_of_map_to_list Hl. apply Hclosed. by exists t, tb, key. }
  split; [done|]. split.
  - unfold resolve. by rewrite <-list_to_map_fmap, Hcopies, list_to_map_fmap,
      list_to_map_to_list.
  - intros l (t & tb & key & Htb%elem_of_list_to_map_2 & Hl). eauto.
Qed.

(** *** The rows as objects: [_diff] reads the heap and computes the
    diff of the values *)

Lemma lookup_resolve_table (h : Objects.heap) (t : Objects.table_ref) key :
  resolve_table h t !! key = Objects.deref h <$> t !! key.
Proof. apply lookup_fmap. Qed.

Lemma lookup_resolve (h : Objects.heap) (s : Objects.snapshot_ref) table_name :
  resolve h s !! table_name = resolve_table h <$> s !! table_name.
Proof. apply lookup_fmap. Qed.

Lemma diff_rows_resolve (h : Objects.heap) pkeys table_name
    (a_table : Objects.table_ref) (items : list (value * Objects.loc))
    (inserts : list Objects.loc) (updates : list row) :
  (λ p : list Objects.loc * list row, (Objects.deref h <$> p.1, p.2))
    <$> Objects.diff_rows h pkeys table_name a_table items inserts updates
  = diff_rows pkeys table_name (resolve_table h a_table)
      (prod_map id (Objects.deref h) <$> items) (Objects.deref h <$> inserts) updates.
Proof.
  revert inserts updates. induction items as [|[key row] items IH];
    intros inserts updates; [done|].
  rewrite fmap_cons. cbn [Objects.diff_rows diff_rows prod_map fst snd id].
  rewrite lookup_resolve_table.
  destruct (a_table !! key) as [a_row|]; simpl.
  - destruct (diff_columns _ _ ∅) as [update|e]; simpl; [|done].
    case_decide; [apply IH|].
    destruct (getitem pkeys table_name _) as [pkey|e]; simpl; [|done].
    destruct (getitem _ pkey _) as [v|e]; simpl; [|done]. apply IH.
  - rewrite IH. by rewrite fmap_app.
Qed.

Lemma diff_deletes_resolve (h : Objects.heap) (b_table : Objects.table_ref)
    (items : list (value * Objects.loc)) (deletes : list Objects.loc) :
  Objects.deref h <$> Objects.diff_deletes b_table items deletes
  = diff_deletes (resolve_table h b_table)
      (prod_map id (Objects.deref h) <$> items) (Objects.deref h <$> deletes).
Proof.
  revert deletes. induction items as [|[key row] items IH]; intros deletes; [done|].
  rewrite fmap_cons. cbn [Objects.diff_deletes diff_deletes prod_map fst snd id].
  rewrite lookup_resolve_table, IH.
  destruct (b_table !! key); simpl; [done|]. by rewrite fmap_app.
Qed.

Lemma diff_table_resolve (h : Objects.heap) pkeys table_name
    (a_table b_table : Objects.table_ref) :
  resolve_lists h <$> Objects.diff_table h pkeys table_name a_table b_table
  = diff_table pkeys table_name (resolve_table h a_table) (resolve_table h b_table).
Proof.
  unfold Objects.diff_table, diff_table.
  unfold resolve_table at 2 4. rewrite !map_to_list_fmap.
  pose proof (diff_rows_resolve h pkeys table_name a_table (map_to_list b_table) [] [])
    as Hrows.
  rewrite fmap_nil in Hrows. rewrite <-Hrows.
  destruct (Objects.diff_rows _ _ _ _ _ [] []) as [[inserts updates]|e]; simpl; [|done].
  unfold resolve_lists. simpl. by rewrite diff_deletes_resolve.
Qed.

Lemma nonempty_fmap {A B} (f : A → B) (l : list A) : nonempty (f <$> l) = nonempty l.
Proof. by destruct l. Qed.

Lemma emit_resolve (h : Objects.heap) compact table_name
    (lists : list Objects.loc * list row * list Objects.loc)
    (out : gmap string Objects.diff_entry) :
  resolve_entry h <$> Objects.emit compact table_name lists out
  = emit compact table_name (resolve_lists h lists) (resolve_entry h <$> out).
Proof.
  destruct lists as [[inserts updates] deletes].
  unfold Objects.emit, emit, resolve_lists. simpl. rewrite !nonempty_fmap.
  destruct (nonempty inserts || nonempty updates || nonempty deletes); [|done].
  rewrite fmap_insert. destruct compact; simpl; [|done]. by rewrite !length_fmap.
Qed.

Lemma diff_tables_resolve (h : Objects.heap) pkeys (a_ref : Objects.snapshot_ref)
    compact (items : list (string * Objects.table_ref))
    (out : gmap string Objects.diff_entry) :
  fmap (M := gmap string) (resolve_entry h)
    <$> Objects.diff_tables h pkeys a_ref compact items out
  = diff_tables pkeys (resolve h a_ref) compact
      (prod_map id (resolve_table h) <$> items) (resolve_entry h <$> out).
Proof.
  revert out. induction items as [|[table_name b_table] items IH]; intros out; [done|].
  rewrite fmap_cons. cbn [Objects.diff_tables diff_tables prod_map fst snd id].
  unfold getitem. rewrite lookup_resolve.
  destruct (a_ref !! table_name) as [a_table|]; simpl; [|done].
  rewrite <-diff_table_resolve.
  destruct (Objects.diff_table h pkeys table_name a_table b_table) as [lists|e];
    simpl; [|done].
  by rewrite IH, emit_resolve.
Qed.

Lemma sorted_keys_fmap {V W} (f : V → W) (d : gmap string V) :
  sorted_keys (f <$> d) = sorted_keys d.
Proof.
  unfold sorted_keys. rewrite map_to_list_fmap, <-list_fmap_compose.
  f_equal.
Qed.

Lemma objects_diff_resolve (a_ref b_ref : Objects.snapshot_ref) compact
    (st : Objects.state S) w :
  store w = Objects.the_store st →
  (Objects._diff a_ref b_ref compact st).2 = st ∧
  fmap (M := gmap string) (resolve_entry (Objects.the_heap st))
    <$> (Objects._diff a_ref b_ref compact st).1
  = (_diff (resolve (Objects.the_heap st) a_ref) (resolve (Objects.the_heap st) b_ref)
       compact w).1.
Proof.
  intros Hstore.
  unfold Objects._diff, _diff, mbind, Objects.M_bind, M_bind,
    Objects._get_primary_keys, _get_primary_keys, Objects.reading, reading,
    Objects.raise, raise, lift, reading.
  rewrite Hstore. destruct (primary_keys (Objects.the_store st)) as [pkeys|e]; [|done].
  assert (sorted_keys (resolve (Objects.the_heap st) a_ref)
          = sorted_keys (resolve (Objects.the_heap st) b_ref)
          ↔ sorted_keys a_ref = sorted_keys b_ref) as Hkeys.
  { unfold resolve. by rewrite !sorted_keys_fmap. }
  destruct (decide (sorted_keys a_ref = sorted_keys b_ref)) as [Heq|Hne].
  - rewrite decide_True by by apply Hkeys. simpl. split; [done|].
    rewrite diff_tables_resolve, fmap_empty. do 2 f_equal.
    unfold resolve. by rewrite map_to_list_fmap.
  - rewrite decide_False; [done|]. by rewrite Hkeys.
Qed.

(** *** The rows as objects: the rows in the lists of a diff *)

Lemma diff_rows_locs (h : Objects.heap) pkeys table_name (a_table : Objects.table_ref)
    (items : list (value * Objects.loc)) (inserts : list Objects.loc)
    (updates : list row) res l :
  Objects.diff_rows h pkeys table_name a_table items inserts updates = Ok res →
  l ∈ res.1 → l ∈ inserts ∨ l ∈ items.*2.
Proof.
  revert inserts updates. induction items as [|[key row] items IH];
    intros inserts updates; cbn [Objects.diff_rows].
  - intros [= <-]. auto.
  - rewrite fmap_cons, elem_of_cons. simpl. destruct (a_table !! key) as [a_row|].
    + intros (update & _ & Hrest)%bind_Ok. case_decide.
      * intros Hl. destruct (IH _ _ Hrest Hl); auto.
      * apply bind_Ok in Hrest as (pkey & _ & Hrest).
        apply bind_Ok in Hrest as (v & _ & Hrest).
        intros Hl. destruct (IH _ _ Hrest Hl); auto.
    + intros Hrest Hl. destruct (IH _ _ Hrest Hl) as [Hin|]; [|auto].
      apply elem_of_app in Hin as [?|Heq%list_elem_of_singleton]; subst; auto.
Qed.

Lemma diff_deletes_locs (b_table : Objects.table_ref)
    (items : list (value * Objects.loc)) (deletes : list Objects.loc) l :
  l ∈ Objects.diff_deletes b_table items deletes → l ∈ deletes ∨ l ∈ items.*2.
Proof.
  revert deletes. induction items as [|[key row] items IH]; intros deletes;
    cbn [Objects.diff_deletes]; [auto|].
  rewrite fmap_cons, elem_of_cons. simpl. intros [Hin|]%IH; [|auto].
  destruct (b_table !! key); [auto|].
  apply elem_of_app in Hin as [?|Heq%list_elem_of_singleton]; subst; auto.
Qed.

Lemma elem_of_snd_map_to_list (t : Objects.table_ref) l :
  l ∈ (map_to_list t).*2 ↔ ∃ key, t !! key = Some l.
Proof.
  rewrite list_elem_of_fmap. split.
  - intros ([key l'] & -> & Hin%elem_of_map_to_list). eauto.
  - intros [key Hl]. exists (key, l). split; [done|]. by apply elem_of_map_to_list.
Qed.

Lemma holds_row_emit compact table_name
    (lists : list Objects.loc * list row * list Objects.loc)
    (out : gmap string Objects.diff_entry) l :
  holds_row (Objects.emit compact table_name lists out) l →
  holds_row out l ∨ l ∈ lists.1.1 ∨ l ∈ lists.2.
Proof.
  destruct lists as [[inserts updates] deletes]. unfold Objects.emit. simpl.
  destruct (nonempty inserts || nonempty updates || nonempty deletes); [|auto].
  intros (t & i & u & d & Hentry & Hl).
  apply lookup_insert_Some in Hentry as [[_ Hentry]|[? Hentry]].
  - destruct compact; [done|]. injection Hentry as <- <- <-. tauto.
  - left. by exists t, i, u, d.
Qed.

Lemma diff_tables_locs (h : Objects.heap) pkeys (a_ref : Objects.snapshot_ref) compact
    (items : list (string * Objects.table_ref))
    (out out' : gmap string Objects.diff_entry) l :
  Objects.diff_tables h pkeys a_ref compact items out = Ok out' →
  holds_row out' l →
  holds_row out l ∨ refers_to a_ref l ∨
  ∃ table_name t key, (table_name, t) ∈ items ∧ t !! key = Some l.
Proof.
  revert out. induction items as [|[table_name b_table] items IH]; intros out;
    cbn [Objects.diff_tables].
  - intros [= <-]. auto.
  - intros (a_table & Ha%getitem_Ok & Hrest)%bind_Ok.
    apply bind_Ok in Hrest as (lists & Hlists & Hrest).
    intros Hl. destruct (IH _ Hrest Hl) as [Hemit|[?|(t & tb & key & Hin & Hkey)]];
      [|auto|].
    2:{ right. right. exists t, tb, key. split; [by right|done]. }
    apply holds_row_emit in Hemit as [?|Hlists']; [auto|].
    unfold Objects.diff_table in Hlists.
    apply bind_Ok in Hlists as ([inserts updates] & Hrows & [= <-]). simpl in Hlists'.
    destruct Hlists' as [Hin|Hin].
    + destruct (diff_rows_locs _ _ _ _ _ _ _ _ l Hrows Hin) as [Hnil|Hb];
        [by apply elem_of_nil in Hnil|].
      apply elem_of_snd_map_to_list in Hb as [key Hkey].
      right. right. exists table_name, b_table, key. split; [left|done].
    + apply diff_deletes_locs in Hin as [Hnil|Ha']; [by apply elem_of_nil in Hnil|].
      apply elem_of_snd_map_to_list in Ha' as [key Hkey].
      right. left. by exists table_name, a_table, key.
Qed.

Lemma objects_diff_holds (a_ref b_ref : Objects.snapshot_ref) compact
    (st : Objects.state S) out l :
  (Objects._diff a_ref b_ref compact st).1 = Ok out → holds_row out l →
  refers_to a_ref l ∨ refers_to b_ref l.
Proof.
  unfold Objects._diff, mbind, Objects.M_bind, Objects._get_primary_keys,
    Objects.reading, Objects.raise.
  destruct (primary_keys (Objects.the_store st)) as [pkeys|e]; [|done].
  case_decide; [|done]. simpl. intros Hout Hl.
  destruct (diff_tables_locs _ _ _ _ _ _ _ l Hout Hl)
    as [(t & i & u & d & Hempty & _)|[?|(t & tb & key & Hin%elem_of_map_to_list & Hkey)]].
  - by rewrite lookup_empty in Hempty.
  - auto.
  - right. by exists t, tb, key.
Qed.

(** *** The rows as objects: [dump] creates the rows and computes the
    dump of the values *)

Lemma dump_tables_cons pkeys table_name rest out w :
  (dump_tables pkeys (table_name :: rest) out w).1
  = (pkey ← getitem pkeys table_name (VStr table_name);
     mapped ← map_rows pkey (default [] (select_all table_name (store w))) ∅;
     (dump_tables pkeys rest (<[table_name := mapped]> out) w).1).
Proof.
  cbn [dump_tables]. unfold mbind at 1 2 3, M_bind, lift, fetch_rows, reading.
  destruct (getitem pkeys table_name (VStr table_name)); [|done]. simpl.
  by destruct (map_rows _ _ ∅).
Qed.

Lemma map_rows_resolve (h : Objects.heap) pkey (rows : list Objects.loc)
    (mapped : Objects.table_ref) :
  resolve_table h <$> Objects.map_rows h pkey rows mapped
  = map_rows pkey (Objects.deref h <$> rows) (resolve_table h mapped).
Proof.
  revert mapped. induction rows as [|row rows IH]; intros mapped; [done|].
  rewrite fmap_cons. cbn [Objects.map_rows map_rows].
  destruct (getitem (Objects.deref h row) pkey (VStr pkey)) as [key|e]; simpl; [|done].
  rewrite IH. unfold resolve_table. by rewrite fmap_insert.
Qed.

Lemma map_rows_locs (h : Objects.heap) pkey (rows : list Objects.loc)
    (mapped t : Objects.table_ref) key l :
  Objects.map_rows h pkey rows mapped = Ok t → t !! key = Some l →
  l ∈ rows ∨ ∃ key', mapped !! key' = Some l.
Proof.
  revert mapped. induction rows as [|row rows IH]; intros mapped;
    cbn [Objects.map_rows].
  - intros [= <-]. eauto.
  - intros (key0 & _ & Hrest)%bind_Ok Hl.
    destruct (IH _ Hrest Hl) as [?|[key' Hkey']]; [left; by right|].
    apply lookup_insert_Some in Hkey' as [[_ <-]|[_ ?]]; [left; left|eauto].
Qed.

Lemma objects_dump_tables pkeys names (out : Objects.snapshot_ref)
    (st : Objects.state S) w :
  store w = Objects.the_store st →
  (∀ l, refers_to out l → l ∈ dom (Objects.the_heap st)) →
  ∃ res st',
    Objects.dump_tables pkeys names out st = (res, st') ∧
    Objects.the_store st' = Objects.the_store st ∧
    Objects.the_self_a st' = Objects.the_self_a st ∧
    Objects.the_heap st ⊆ Objects.the_heap st' ∧
    (resolve (Objects.the_heap st') <$> res)
    = (dump_tables pkeys names (resolve (Objects.the_heap st) out) w).1 ∧
    ∀ s l, res = Ok s → refers_to s l →
      l ∈ dom (Objects.the_heap st') ∧
      (refers_to out l ∨ l ∉ dom (Objects.the_heap st)).
Proof.
  intros Hstore. revert out st Hstore.
  induction names as [|table_name rest IH]; intros out st Hstore Hclosed.
  - exists (Ok out), st. do 5 (split; [done|]).
    intros s l [= <-] Hl. auto.
  - rewrite dump_tables_cons. cbn [Objects.dump_tables].
    unfold mbind at 1 2 3, Objects.M_bind, Objects.reading at 1.
    destruct (getitem pkeys table_name (VStr table_name)) as [pkey|e]; simpl.
    2:{ exists (Raise e), st. do 5 (split; [done|]). by intros s l [=]. }
    unfold Objects.fetch_rows, Objects.allocating. rewrite <-Hstore.
    destruct (Objects.alloc_rows _ (Objects.the_heap st)) as [ls h1] eqn:Halloc.
    apply alloc_rows_spec in Halloc as (Hsub & Hrows & Hnew).
    cbn [Objects.the_heap].
    pose proof (map_rows_resolve h1 pkey ls ∅) as Hmapped.
    rewrite Hrows in Hmapped. unfold resolve_table at 2 in Hmapped.
    rewrite fmap_empty in Hmapped. rewrite <-Hmapped.
    destruct (Objects.map_rows h1 pkey ls ∅) as [mapped|e] eqn:Hmap; simpl.
    2:{ eexists (Raise e), _. split; [done|]. simpl. do 4 (split; [done|]).
        by intros s l [=]. }
    destruct (IH (<[table_name := mapped]> out)
                (Objects.State (store w) h1 (Objects.the_self_a st)))
      as (res & st' & Hres & Hst & Hself & Hsub' & Hresolve & Hlocs).
    { done. }
    { intros l (t & tb & key & Htb & Hl). simpl.
      apply lookup_insert_Some in Htb as [[_ <-]|[_ Htb]].
      - destruct (map_rows_locs _ _ _ _ _ _ _ Hmap Hl) as [Hin|[? Hempty]];
          [|by rewrite lookup_empty in Hempty].
        rewrite Forall_forall in Hnew. by apply Hnew.
      - apply (subseteq_dom _ _ Hsub), Hclosed. by exists t, tb, key. }
    exists res, st'. split; [done|]. simpl in *.
    split; [by rewrite Hst|]. split; [done|]. split; [by etrans|]. split.
    + rewrite Hresolve. do 2 f_equal. unfold resolve. rewrite fmap_insert. f_equal.
      apply (resolve_mono _ _ out Hsub Hclosed).
    + intros s l Hs Hl. destruct (Hlocs s l Hs Hl) as [Hdom Hcases]. split; [done|].
      destruct Hcases as [(t & tb & key & Htb & Hkey)|Hfresh].
      * apply lookup_insert_Some in Htb as [[_ <-]|[_ Htb]].
        -- right. destruct (map_rows_locs _ _ _ _ _ _ _ Hmap Hkey) as [Hin|[? Hempty]];
             [|by rewrite lookup_empty in Hempty].
           rewrite Forall_forall in Hnew. by apply Hnew.
        -- left. by exists t, tb, key.
      * right. intros Hold. by apply Hfresh, (subseteq_dom _ _ Hsub).
Qed.

Lemma objects_dump (st : Objects.state S) w :
  store w = Objects.the_store st →
  ∃ res st',
    Objects.dump st = (res, st') ∧
    Objects.the_store st' = Objects.the_store st ∧
    Objects.the_self_a st' = Objects.the_self_a st ∧
    Objects.the_heap st ⊆ Objects.the_heap st' ∧
    (resolve (Objects.the_heap st') <$> res) = (dump w).1 ∧
    ∀ s l, res = Ok s → refers_to s l →
      l ∈ dom (Objects.the_heap st') ∧ l ∉ dom (Objects.the_heap st).
Proof.
  intros Hstore.
  unfold Objects.dump, dump, mbind, Objects.M_bind, M_bind,
    Objects._get_primary_keys, _get_primary_keys, Objects._get_table_names,
    _get_table_names, Objects.reading, reading.
  rewrite Hstore. destruct (primary_keys (Objects.the_store st)) as [pkeys|e].
  2:{ exists (Raise e), st. do 5 (split; [done|]). by intros s l [=]. }
  destruct (objects_dump_tables pkeys (table_names (Objects.the_store st)) ∅ st w Hstore)
    as (res & st' & Hres & Hst & Hself & Hsub & Hresolve & Hlocs).
  { intros l (t & tb & key & Hempty & _). by rewrite lookup_empty in Hempty. }
  exists res, st'. do 4 (split; [done|]). split.
  - rewrite Hresolve. unfold resolve. by rewrite fmap_empty.
  - intros s l Hs Hl. destruct (Hlocs s l Hs Hl) as [Hdom [(t & tb & key & Hempty & _)|?]];
      [by rewrite lookup_empty in Hempty|done].
Qed.

(** *** The baseline after [diff] *)

Lemma diff_result compact w :
  (diff compact w).1
  = match self_a w with
    | Some baseline => b ← (dump w).1; (_diff baseline b compact w).1
    | None => Raise (AttributeError "a")
    end.
Proof.
  unfold diff, mbind at 1 2, M_bind, get_self_a, reading, deepcopy.
  destruct (self_a w) as [baseline|]; [|done].
  pose proof (dump_world w) as Hworld.
  destruct (dump w) as [[b|e] w']; simpl in *; by subst.
Qed.

Lemma resolve_agree (h h' : Objects.heap) (s : Objects.snapshot_ref) :
  (∀ l, refers_to s l → h' !! l = h !! l) → resolve h' s = resolve h s.
Proof.
  intros Hagree. apply map_eq. intros t. rewrite !lookup_resolve.
  destruct (s !! t) as [tb|] eqn:Ht; [|done]. simpl. f_equal.
  apply map_eq. intros key. rewrite !lookup_resolve_table.
  destruct (tb !! key) as [l|] eqn:Hl; [|done]. simpl. f_equal.
  unfold Objects.deref. rewrite (Hagree l); [done|]. by exists t, tb, key.
Qed.

(** C8: [diff] does not change the baseline.

    On the values: a call of [diff] returns the world as it found it,
    with the baseline [self.a], the store, the environment and the list
    of issued statements; so after any number of calls the baseline is
    the dump that the last load stored, and a second call returns what
    the first returned.

    On the rows as objects, for a state that stands for the world: a
    call of [diff] keeps [self.a] and every object that existed before
    the call as they were, and returns the diff of the values; the rows
    in its lists of inserts and deletes are objects created by the call
    (the copies made by [deepcopy] and the rows of the new dump), none
    of them a row of the baseline.  So whatever is done afterwards to
    the objects created by the call, the state still stands for the
    world, and the next [diff] returns the same. *)
Theorem diff_keeps_baseline flags compact w (st : Objects.state S) :
  stands_for st w →
  after_diffs flags w = w ∧
  (diff compact (diff compact w).2).1 = (diff compact w).1 ∧
  ∃ res st',
    Objects.diff compact st = (res, st') ∧
    Objects.the_self_a st' = Objects.the_self_a st ∧
    Objects.the_store st' = Objects.the_store st ∧
    Objects.the_heap st ⊆ Objects.the_heap st' ∧
    (fmap (M := gmap string) (resolve_entry (Objects.the_heap st')) <$> res)
    = (diff compact w).1 ∧
    (∀ out l, res = Ok out → holds_row out l → l ∉ dom (Objects.the_heap st)) ∧
    (∀ h, (∀ l, l ∈ dom (Objects.the_heap st) → h !! l = Objects.the_heap st' !! l) →
          stands_for
            (Objects.State (Objects.the_store st') h (Objects.the_self_a st')) w).
Proof.
  intros (Hstore & Hself & Hclosed).
  split.
  { unfold after_diffs. induction flags as [|c flags IH]; [done|].
    simpl. by rewrite diff_world. }
  split; [by rewrite diff_world|].
  assert (∀ h h1, Objects.the_heap st ⊆ h1 →
            (∀ l, l ∈ dom (Objects.the_heap st) → h !! l = h1 !! l) →
            stands_for (Objects.State (Objects.the_store st) h (Objects.the_self_a st)) w)
    as Hstands.
  { intros h h1 Hsub Hagree.
    assert (∀ l, l ∈ dom (Objects.the_heap st) → h !! l = Objects.the_heap st !! l)
      as Hold.
    { intros l Hl. rewrite (Hagree l Hl). apply elem_of_dom in Hl as [r Hr].
      rewrite Hr. by eapply lookup_weaken. }
    split; [done|]. split; simpl.
    - rewrite Hself. destruct (Objects.the_self_a st) as [baseline|]; [|done]. simpl.
      f_equal. symmetry. apply resolve_agree. intros l Hl. apply Hold. by eapply Hclosed.
    - intros baseline l Hbase Hl. pose proof (Hclosed baseline l Hbase Hl) as Hdom.
      pose proof (Hold l Hdom) as Heq. apply elem_of_dom in Hdom as [r Hr].
      apply elem_of_dom. exists r. by rewrite Heq. }
  rewrite diff_result, Hself.
  unfold Objects.diff, mbind at 1 2, Objects.M_bind, Objects.get_self_a,
    Objects.reading, Objects.allocating.
  destruct (Objects.the_self_a st) as [baseline|] eqn:Hbase; simpl.
  2:{ exists (Raise (AttributeError "a")), st. rewrite Hbase.
      do 5 (split; [done|]). split; [by intros out l [=]|].
      intros h Hagree. by apply (Hstands h (Objects.the_heap st)). }
  destruct (Objects.deepcopy baseline (Objects.the_heap st)) as [a_ref h1] eqn:Hcopy.
  apply deepcopy_spec in Hcopy as (Hsub1 & Hcopied & Hnew1);
    [|intros l Hl; by apply (Hclosed baseline l)].
  destruct (objects_dump (Objects.State (Objects.the_store st) h1 (Some baseline)) w)
    as (res_b & st2 & Hdump & Hst2 & Hself2 & Hsub2 & Hdumped & Hnew2); [done|].
  unfold mbind, Objects.M_bind. rewrite Hdump. simpl in *.
  destruct res_b as [b_ref|e]; simpl in Hdumped; rewrite <-Hdumped; simpl.
  2:{ exists (Raise e), st2. split; [done|]. split; [done|]. split; [done|].
      split; [by etrans|]. split; [done|]. split; [by intros out l [=]|].
      intros h Hagree. rewrite Hst2, Hself2. by apply (Hstands h (Objects.the_heap st2));
        [etrans|]. }
  destruct (objects_diff_resolve a_ref b_ref compact st2 w) as [Hst Hres];
    [by rewrite Hst2|].
  destruct (Objects._diff a_ref b_ref compact st2) as [res st3] eqn:Hdiff.
  simpl in Hst, Hres. subst st3.
  exists res, st2. split; [done|]. split; [done|]. split; [done|].
  split; [by etrans|]. split; [|split].
  - rewrite Hres. do 2 f_equal. rewrite <-Hcopied. apply resolve_mono; [done|].
    intros l Hl. by apply Hnew1.
  - intros out l -> Hl.
    assert ((Objects._diff a_ref b_ref compact st2).1 = Ok out) as Hout by by rewrite Hdiff.
    destruct (objects_diff_holds _ _ _ _ _ l Hout Hl) as [Ha|Hb].
    + by apply Hnew1.
    + destruct (Hnew2 b_ref l eq_refl Hb) as [_ Hfresh].
      intros Hold. by apply Hfresh, (subseteq_dom _ _ Hsub1).
  - intros h Hagree. rewrite Hst2, Hself2.
    by apply (Hstands h (Objects.the_heap st2)); [etrans|].
Qed.

End properties.

(** * Further properties *)

Section more_properties.
Context {S : Type} `{!Backend S}.
Implicit Types (w : world S) (a b : snapshot) (pkeys : gmap string string).

(** ** The loader *)

(** X2: [__call__] on a table name that [_get_table_names] does not list:
    when the items before it loaded, the load raises the [ValueError] on
    the unknown table and leaves the world as it was after them. *)
Theorem loader_unknown_table pre name post w :
  (load_things (table_names (store w)) "" pre w).1 = Ok () →
  name ∉ table_names (store w) →
  __call__ (pre ++ TStr name :: post)%list w
  = (Raise (ValueError ("Unknown table: " ++ name)),
     (load_things (table_names (store w)) "" pre w).2).
Proof.
  intros Hpre Hunknown. rewrite call_unfold, load_things_app.
  destruct (load_things _ "" pre w) as [[[]|e] w1]; [|done].
  cbn [load_things fst snd]. by rewrite decide_False.
Qed.

(** X3: A record, of either form, that comes before any table name (or after
    the empty table name) raises the [ValueError] "What table am I
    INSERTing into?", and nothing is executed for it. *)
Theorem loader_no_table pre item post w :
  (load_things (table_names (store w)) "" pre w).1 = Ok () →
  current_table "" pre = "" →
  (∀ name, item ≠ TStr name) →
  __call__ (pre ++ item :: post)%list w
  = (Raise (ValueError "What table am I INSERTing into?"),
     (load_things (table_names (store w)) "" pre w).2).
Proof.
  intros Hpre Htable Hrecord. rewrite call_unfold, load_things_app.
  destruct (load_things _ "" pre w) as [[[]|e] w1]; [|done].
  rewrite Htable. destruct item as [name|r|values]; cbn [load_things fst snd].
  - by destruct (Hrecord name).
  - by rewrite decide_True.
  - by rewrite decide_True.
Qed.

(** X4: A record given as a sequence of values is inserted by position: the
    next statement is an [INSERT] into the current table without a
    column list, with one placeholder for each value and the values, as
    they are, as its parameters. *)
Theorem loader_positional_record pre values post w :
  (load_things (table_names (store w)) "" pre w).1 = Ok () →
  current_table "" pre ≠ "" →
  ∃ rest,
    issued (__call__ (pre ++ TSeq values :: post)%list w).2
    = (issued (load_things (table_names (store w)) "" pre w).2
         ++ (("INSERT INTO " ++ current_table "" pre ++ " VALUES ("
                ++ join ", " (replicate (length values) "%s") ++ ")")%string, values)
            :: rest)%list.
Proof.
  intros Hpre Htable. rewrite call_issued, load_things_app.
  destruct (load_things _ "" pre w) as [[[]|e] w1]; [|done].
  cbn [load_things fst snd]. rewrite decide_False by done.
  unfold mbind, M_bind.
  match goal with |- context [db_execute ?sql values w1] =>
    destruct (db_execute_world sql values w1) as (Hexec & _ & _);
    destruct (db_execute sql values w1) as [[[]|e] w2] end; simpl in Hexec.
  - destruct (load_things_issued (table_names (store w))
                (current_table "" pre) post w2) as [rest ->].
    exists rest. by rewrite Hexec, <-app_assoc.
  - exists []. simpl. by rewrite Hexec.
Qed.

Lemma check_columns_inv items colnames values :
  check_columns items = Ok (colnames, values) →
  colnames = items.*1 ∧ values = items.*2 ∧
  Forall (λ c, colname_re_match c = true) colnames.
Proof.
  revert colnames values. induction items as [|[c v] items IH]; intros colnames values.
  - intros [= <- <-]. done.
  - simpl. destruct (colname_re_match c) eqn:Hc; [|done].
    destruct (check_columns items) as [[cs vs]|e]; simpl; [|done].
    intros [= <- <-]. destruct (IH cs vs eq_refl) as (-> & -> & Hall).
    split; [done|]. split; [done|]. by constructor.
Qed.

Lemma load_things_checked known table_name data w :
  table_name = "" ∨ table_name ∈ known →
  ∃ statements,
    issued (load_things known table_name data w).2 = (issued w ++ statements)%list ∧
    Forall (checked_insert known) statements ∧
    environ (load_things known table_name data w).2 = environ w ∧
    self_a (load_things known table_name data w).2 = self_a w.
Proof.
  revert table_name w. induction data as [|item data IH]; intros table_name w Htable.
  { exists []. simpl. by rewrite app_nil_r. }
  assert (∀ (e : exn),
    ∃ statements,
      issued (Raise (A := ()) e, w).2 = (issued w ++ statements)%list ∧
      Forall (checked_insert known) statements ∧
      environ (Raise (A := ()) e, w).2 = environ w ∧
      self_a (Raise (A := ()) e, w).2 = self_a w) as Hraise.
  { intros e. exists []. simpl. by rewrite app_nil_r. }
  assert (∀ sql values,
    checked_insert known (sql, values) →
    ∃ statements,
      issued ((db_execute sql values ≫= λ _, load_things known table_name data) w).2
      = (issued w ++ statements)%list ∧
      Forall (checked_insert known) statements ∧
      environ ((db_execute sql values ≫= λ _, load_things known table_name data) w).2
      = environ w ∧
      self_a ((db_execute sql values ≫= λ _, load_things known table_name data) w).2
      = self_a w) as Hexecute.
  { intros sql values Hchecked. unfold mbind, M_bind.
    destruct (db_execute_world sql values w) as (Hissued & Henv & Hself).
    destruct (db_execute sql values w) as [[[]|e] w1]; simpl in Hissued, Henv, Hself.
    - destruct (IH table_name w1 Htable) as (statements & -> & Hall & -> & ->).
      exists ((sql, values) :: statements). rewrite Hissued, <-app_assoc.
      split; [done|]. split; [by constructor|done].
    - exists [(sql, values)]. simpl. split; [done|]. split; [|done].
      by repeat constructor. }
  destruct item as [name|r|values]; cbn [load_things].
  - case_decide; [|apply Hraise]. apply IH. by right.
  - case_decide as Hempty; [apply Hraise|].
    destruct Htable as [?|Hknown]; [done|].
    unfold mbind at 1, M_bind, lift, reading.
    destruct (check_columns (sorted_items r)) as [[colnames values]|e] eqn:Hcheck;
      [|apply Hraise].
    apply check_columns_inv in Hcheck as (-> & -> & Hall).
    apply Hexecute. exists table_name. split; [done|]. right.
    exists (sorted_items r).*1. simpl. split; [done|]. split; [by rewrite !length_fmap|].
    by rewrite <-(length_sorted_items r), <-(length_fmap fst (sorted_items r)),
      insert_sql_statement.
  - case_decide as Hempty; [apply Hraise|].
    destruct Htable as [?|Hknown]; [done|].
    apply Hexecute. exists table_name. split; [done|]. by left.
Qed.


Lemma load_things_trace known table_name data w :
  (load_things known table_name data w).1 = Ok () →
  issued (load_things known table_name data w).2
  = (issued w ++ statements_for table_name data)%list.
Proof.
  revert table_name w. induction data as [|item data IH]; intros table_name w.
  { intros _. simpl. by rewrite app_nil_r. }
  destruct item as [name|r|values]; cbn [load_things statements_for].
  - case_decide; [apply IH|done].
  - case_decide; [done|]. unfold mbind at 1 3, M_bind, lift, reading.
    destruct (check_columns (sorted_items r)) as [[colnames values]|e] eqn:Hcheck;
      [|done].
    apply check_columns_inv in Hcheck as (-> & -> & _).
    rewrite <-(length_sorted_items r), <-(length_fmap fst (sorted_items r)),
      insert_sql_statement.
    unfold mbind, M_bind.
    match goal with |- context [db_execute ?sql ?vals w] =>
      destruct (db_execute_world sql vals w) as (Hexec & _ & _);
      destruct (db_execute sql vals w) as [[[]|e] w1] end; simpl in Hexec; [|done].
    intros Hok. rewrite (IH _ _ Hok), Hexec, <-app_assoc. done.
  - case_decide; [done|]. unfold mbind, M_bind.
    match goal with |- context [db_execute ?sql ?vals w] =>
      destruct (db_execute_world sql vals w) as (Hexec & _ & _);
      destruct (db_execute sql vals w) as [[[]|e] w1] end; simpl in Hexec; [|done].
    intros Hok. rewrite (IH _ _ Hok), Hexec, <-app_assoc. done.
Qed.

(** X7: A load that returns has executed exactly one [INSERT] for each
    record, in the order of the records and each into the table named
    last before it, and nothing else; it has stored the dump taken after
    them in [self.a] and has left the environment alone. *)
Theorem loader_trace data w w' :
  __call__ data w = (Ok (), w') →
  issued w' = (issued w ++ statements_for "" data)%list ∧
  environ w' = environ w ∧
  ∃ s, self_a w' = Some s ∧ (dump w').1 = Ok s.
Proof.
  intros Hcall. split; [|split].
  - assert (issued w' = issued (__call__ data w).2) as -> by by rewrite Hcall.
    rewrite call_issued. apply load_things_trace.
    rewrite call_unfold in Hcall.
    by destruct (load_things _ "" data w) as [[[]|e] w1].
  - rewrite call_unfold in Hcall.
    destruct (load_things_checked (table_names (store w)) "" data w)
      as (_ & _ & _ & Henv & _); [by left|].
    destruct (load_things _ "" data w) as [[[]|e] w1]; [|done].
    destruct ((dump w1).1); [|done]. by injection Hcall as <-.
  - by eapply call_stores_dump.
Qed.

(** X8: A load that raises, at whatever point, leaves the baseline [self.a]
    of the last load that returned (and the environment) as they were;
    the statements executed before the exception are not taken back. *)
Theorem loader_failure_keeps_baseline data w e w' :
  __call__ data w = (Raise e, w') →
  self_a w' = self_a w ∧ environ w' = environ w ∧
  ∃ statements, issued w' = (issued w ++ statements)%list.
Proof.
  rewrite call_unfold. intros Hcall.
  destruct (load_things_checked (table_names (store w)) "" data w)
    as (statements & Hissued & _ & Henv & Hself); [by left|].
  destruct (load_things _ "" data w) as [[[]|e1] w1]; simpl in *.
  - destruct ((dump w1).1); [done|]. injection Hcall as _ <-. eauto.
  - injection Hcall as _ <-. eauto.
Qed.

(** ** The diff *)

Lemma dump_Ok_primary_keys w s :
  (dump w).1 = Ok s → ∃ pkeys, (_get_primary_keys w).1 = Ok pkeys.
Proof.
  unfold dump, mbind, M_bind, _get_primary_keys, reading. simpl.
  destruct (primary_keys (store w)) as [pkeys|e]; [eauto|done].
Qed.

(** X9: A load followed at once by [diff] reports no change, when no
    value of the dump that the load stored is a not-a-number (which
    would be [!=] to itself): the result is the empty dictionary, in
    either form. *)
Theorem load_then_diff_empty data w0 w s compact :
  __call__ data w0 = (Ok (), w) → self_a w = Some s → nan_free s →
  diff compact w = (Ok ∅, w).
Proof.
  intros (s' & Hself & Hdump)%call_stores_dump Hs Hfree.
  assert (s' = s) as -> by congruence.
  destruct (dump_Ok_primary_keys w s Hdump) as [pkeys Hpk].
  pose proof (diff_world compact w) as Hworld. pose proof (diff_result compact w) as Hres.
  rewrite Hself, Hdump in Hres. simpl in Hres.
  rewrite (_diff_self s compact w pkeys Hpk Hfree) in Hres.
  destruct (diff compact w) as [res w']. simpl in *. by subst.
Qed.

(** X10: The converse of the diff of a dump with itself: when [_diff] returns
    the empty dictionary for two dumps whose rows under the same key
    have the same columns, the two dumps are equal. *)
Theorem empty_diff_equal a b compact w w' :
  _diff a b compact w = (Ok ∅, w') → same_columns a b → a = b.
Proof.
  intros Hdiff Hcols.
  apply _diff_Ok in Hdiff as (_ & pkeys & _ & Hdom & Hok & Hlookup).
  apply map_eq. intros t.
  destruct (a !! t) as [ta|] eqn:Ha.
  2:{ symmetry. apply not_elem_of_dom. rewrite <-Hdom. by apply not_elem_of_dom. }
  assert (t ∈ dom b) as [tb Hb]%elem_of_dom by (rewrite <-Hdom; by apply elem_of_dom).
  rewrite Hb. f_equal.
  specialize (Hlookup t). rewrite lookup_empty, Ha, Hb in Hlookup.
  cbn [mbind option_bind] in Hlookup. symmetry in Hlookup.
  apply entry_of_None in Hlookup. unfold table_lists in Hlookup.
  injection Hlookup as Hins Hupd Hdel.
  apply map_eq. intros key.
  destruct (ta !! key) as [ra|] eqn:Hra; destruct (tb !! key) as [rb|] eqn:Hrb.
  - f_equal. destruct (decide (ra = rb)) as [|Hne]; [done|].
    assert (update_record pkeys t ra rb
            ∈ updates_of pkeys t ta (map_to_list tb)) as Hin.
    { apply elem_of_updates_of. exists key, ra, rb. repeat (split; [done|]).
      split; [|done]. intros Hch. apply Hne.
      eapply changed_columns_empty in Hch as [? _]; [done|]. by eapply Hcols. }
    rewrite Hupd in Hin. by apply elem_of_nil in Hin.
  - assert (ra ∈ deletes_of tb (map_to_list ta)) as Hin
      by (apply elem_of_deletes_of; eauto).
    rewrite Hdel in Hin. by apply elem_of_nil in Hin.
  - assert (rb ∈ inserts_of ta (map_to_list tb)) as Hin
      by (apply elem_of_inserts_of; eauto).
    rewrite Hins in Hin. by apply elem_of_nil in Hin.
  - done.
Qed.

Lemma lists_at_diff a b w w' out pkeys table_name a_table b_table :
  _diff a b false w = (Ok out, w') →
  (_get_primary_keys w).1 = Ok pkeys →
  a !! table_name = Some a_table → b !! table_name = Some b_table →
  lists_at out table_name = table_lists pkeys table_name a_table b_table.
Proof.
  intros Hdiff Hpk Ha Hb.
  apply _diff_Ok in Hdiff as (_ & pkeys' & Hpk' & _ & _ & Hlookup).
  assert (pkeys' = pkeys) as -> by congruence.
  unfold lists_at. rewrite Hlookup, Ha, Hb. cbn [mbind option_bind].
  destruct (entry_of false (table_lists pkeys table_name a_table b_table))
    as [entry|] eqn:Hentry.
  - unfold entry_of in Hentry.
    destruct (table_lists pkeys table_name a_table b_table) as [[i u] d].
    destruct (nonempty i || nonempty u || nonempty d); [|done].
    by injection Hentry as <-.
  - by apply entry_of_None in Hentry.
Qed.

Lemma lists_at_diff_none a b w w' out table_name :
  _diff a b false w = (Ok out, w') → a !! table_name = None →
  lists_at out table_name = ([], [], []).
Proof.
  intros Hdiff Ha.
  apply _diff_Ok in Hdiff as (_ & pkeys' & Hpk' & _ & _ & Hlookup).
  unfold lists_at. by rewrite Hlookup, Ha.
Qed.

(** X11: Exchanging the two dumps exchanges inserts and deletes: when both
    diffs return, the rows that the diff from A to B lists as inserted
    are, in the same order, the rows that the diff from B to A lists as
    deleted, and the other way round, for every table. *)
Theorem diff_swap a b w w1 w2 forth back table_name :
  _diff a b false w = (Ok forth, w1) →
  _diff b a false w = (Ok back, w2) →
  (lists_at forth table_name).1.1 = (lists_at back table_name).2 ∧
  (lists_at forth table_name).2 = (lists_at back table_name).1.1.
Proof.
  intros Hforth Hback.
  pose proof Hforth as Hf. apply _diff_Ok in Hf as (_ & pkeys & Hpk & Hdom & _ & _).
  destruct (a !! table_name) as [ta|] eqn:Ha.
  - assert (table_name ∈ dom b) as [tb Hb]%elem_of_dom
      by (rewrite <-Hdom; by apply elem_of_dom).
    rewrite (lists_at_diff _ _ _ _ _ pkeys _ ta tb Hforth Hpk Ha Hb).
    rewrite (lists_at_diff _ _ _ _ _ pkeys _ tb ta Hback Hpk Hb Ha).
    done.
  - assert (b !! table_name = None) as Hb.
    { apply not_elem_of_dom. rewrite <-Hdom. by apply not_elem_of_dom. }
    rewrite (lists_at_diff_none _ _ _ _ _ _ Hforth Ha).
    by rewrite (lists_at_diff_none _ _ _ _ _ _ Hback Hb).
Qed.

(** X13: [_diff] raises nothing of its own but the assertion on the table
    names and [KeyError]s: any other exception comes from reading the
    primary keys.  In every case it leaves the world as it was. *)
Theorem diff_exceptions a b compact w e :
  (_diff a b compact w).1 = Raise e →
  (_diff a b compact w).2 = w ∧
  ((_get_primary_keys w).1 = Raise e ∨ e = SchemaDriftError ∨ ∃ key, e = KeyError key).
Proof.
  rewrite _diff_unfold. simpl. intros Hraise. split; [done|].
  apply bind_Raise in Hraise as [?|(pkeys & _ & Hraise)]; [by left|]. right.
  case_decide.
  - right. by eapply diff_tables_Raise.
  - left. by injection Hraise as <-.
Qed.

Lemma length_filter_absent (x y : table) :
  length (filter (λ kr : value * row, x !! kr.1 = None) (map_to_list y))
  + size (dom x ∩ dom y) = size y.
Proof.
  set (P := λ kr : value * row, x !! kr.1 = None).
  assert (length (filter P (map_to_list y)) = size (filter P y)) as ->.
  { rewrite (map_filter_alt P y), map_size_list_to_map; [done|].
    eapply sublist_NoDup; [apply (NoDup_fst_map_to_list y)|].
    apply fmap_sublist, sublist_filter. }
  assert (size (dom x ∩ dom y) = size (filter (λ kr, ¬ P kr) y)) as ->.
  { rewrite <-size_dom. f_equal. symmetry. apply dom_filter_L. intros key.
    rewrite elem_of_intersection, !elem_of_dom. unfold P. simpl. split.
    - intros [[rx Hx] [ry Hy]]. exists ry. split; [done|]. by rewrite Hx.
    - intros (ry & Hy & Hx). split; [|by exists ry].
      by destruct (x !! key); [eexists|]. }
  rewrite <-map_size_disj_union by apply map_disjoint_filter_complement.
  by rewrite map_filter_union_complement.
Qed.

(** X12: The counts of a diff balance: for every table, the number of
    inserts plus the number of rows of the table in A is the number of
    deletes plus the number of its rows in B. *)
Theorem diff_counts_balance a b w w' out table_name a_table b_table :
  _diff a b false w = (Ok out, w') →
  a !! table_name = Some a_table → b !! table_name = Some b_table →
  length (lists_at out table_name).1.1 + size a_table
  = length (lists_at out table_name).2 + size b_table.
Proof.
  intros Hdiff Ha Hb.
  pose proof Hdiff as Hd. apply _diff_Ok in Hd as (_ & pkeys & Hpk & _).
  rewrite (lists_at_diff _ _ _ _ _ pkeys _ a_table b_table Hdiff Hpk Ha Hb).
  unfold table_lists, inserts_of, deletes_of. simpl. rewrite !length_fmap.
  pose proof (length_filter_absent a_table b_table) as Hins.
  pose proof (length_filter_absent b_table a_table) as Hdel.
  assert (dom b_table ∩ dom a_table = dom a_table ∩ dom b_table) as Hcomm
    by set_solver.
  rewrite Hcomm in Hdel. lia.
Qed.

(** ** The dump *)

Lemma map_rows_Ok_iff pkey rows mapped :
  (∃ tb, map_rows pkey rows mapped = Ok tb) ↔ Forall (λ r, is_Some (r !! pkey)) rows.
Proof.
  revert mapped. induction rows as [|r0 rows IH]; intros mapped; simpl.
  - split; [done|]. eauto.
  - rewrite Forall_cons. unfold getitem.
    destruct (r0 !! pkey) as [key0|]; simpl.
    + rewrite IH. split; [|tauto]. intros ?. split; [by eexists|done].
    + split; [by intros [? ?]|]. by intros [[? ?] _].
Qed.

Lemma map_rows_Raise pkey rows mapped e :
  map_rows pkey rows mapped = Raise e →
  e = KeyError (VStr pkey) ∧ ∃ r, r ∈ rows ∧ r !! pkey = None.
Proof.
  revert mapped. induction rows as [|r0 rows IH]; intros mapped; simpl; [done|].
  unfold getitem. destruct (r0 !! pkey) as [key0|] eqn:Hkey0; simpl.
  - intros (-> & r & Hin & Hr)%IH. split; [done|]. exists r. split; [by right|done].
  - intros [= <-]. split; [done|]. exists r0. split; [by left|done].
Qed.

Lemma map_rows_lookup pkey rows mapped tb :
  map_rows pkey rows mapped = Ok tb →
  ∀ key r, tb !! key = Some r ↔
    (∃ before after, rows = (before ++ r :: after)%list ∧ r !! pkey = Some key ∧
                     Forall (λ r', r' !! pkey ≠ Some key) after) ∨
    (mapped !! key = Some r ∧ Forall (λ r', r' !! pkey ≠ Some key) rows).
Proof.
  revert mapped. induction rows as [|r0 rows IH]; intros mapped; simpl.
  - intros [= <-] key r. split.
    + intros ?. right. by split.
    + intros [(before & after & Hnil & _)|[? _]]; [|done].
      by destruct before.
  - rewrite bind_Ok. intros (key0 & Hkey0%getitem_Ok & Hrest) key r.
    rewrite (IH _ Hrest). split.
    + intros [(before & after & -> & Hr & Hafter)|[Hin Hrows]].
      * left. by exists (r0 :: before)%list, after.
      * apply lookup_insert_Some in Hin as [[<- <-]|[Hne Hin]].
        -- left. by exists []%list, rows.
        -- right. split; [done|]. apply Forall_cons. split; [congruence|done].
    + intros [(before & after & Heq & Hr & Hafter)|[Hin Hrows]].
      * destruct before as [|r1 before]; simpl in Heq.
        -- injection Heq as <- <-. right.
           assert (key0 = key) as -> by congruence.
           by rewrite lookup_insert_eq.
        -- injection Heq as <- ->. left. by exists before, after.
      * apply Forall_cons in Hrows as [Hr0 Hrows]. right. split; [|done].
        rewrite lookup_insert_ne; [done|]. congruence.
Qed.

Lemma dump_tables_lookup pkeys names out w s :
  (dump_tables pkeys names out w).1 = Ok s →
  (∀ t, t ∈ names →
     ∃ pkey tb, pkeys !! t = Some pkey ∧
       map_rows pkey (default [] (select_all t (store w))) ∅ = Ok tb) ∧
  ∀ t tb, s !! t = Some tb ↔
    (t ∈ names ∧ ∃ pkey, pkeys !! t = Some pkey ∧
       map_rows pkey (default [] (select_all t (store w))) ∅ = Ok tb) ∨
    ((t ∉ names) ∧ out !! t = Some tb).
Proof.
  revert out. induction names as [|t0 names IH]; intros out.
  - simpl. intros [= <-]. split; [by intros ? ?%elem_of_nil|].
    intros t tb. rewrite elem_of_nil. naive_solver.
  - cbn [dump_tables]. unfold mbind, M_bind, lift, fetch_rows, reading.
    destruct (getitem pkeys t0 (VStr t0)) as [pkey0|] eqn:Hpkey0; [|done].
    apply getitem_Ok in Hpkey0.
    destruct (map_rows pkey0 _ ∅) as [mapped0|] eqn:Hrows; [|done].
    intros [Hall Hlookup]%IH. split.
    + intros t [->|Hin]%elem_of_cons; [eauto|auto].
    + intros t tb. rewrite Hlookup, elem_of_cons. split.
      * intros [[Hin Hrest]|[Hnotin Hout]]; [by left; split; [right|]|].
        apply lookup_insert_Some in Hout as [[<- <-]|[Hne Hout]].
        -- left. split; [by left|eauto].
        -- right. split; [|done]. intros [?|?]; congruence.
      * intros [[Hin (pkey & Hpkey & Hres)]|[Hnotin Hout]].
        -- destruct (decide (t ∈ names)) as [?|Hnotin]; [left; eauto|].
           destruct Hin as [->|?]; [|done]. right. split; [done|].
           assert (pkey = pkey0) as -> by congruence.
           rewrite Hrows in Hres. injection Hres as ->. by rewrite lookup_insert_eq.
        -- right. split; [tauto|]. rewrite lookup_insert_ne; [done|]. intros ->. tauto.
Qed.

Lemma dump_lookup w s :
  (dump w).1 = Ok s →
  ∃ pkeys, (_get_primary_keys w).1 = Ok pkeys ∧
    (∀ t, t ∈ table_names (store w) →
       ∃ pkey tb, pkeys !! t = Some pkey ∧
         map_rows pkey (default [] (select_all t (store w))) ∅ = Ok tb) ∧
    ∀ t tb, s !! t = Some tb ↔
      t ∈ table_names (store w) ∧ ∃ pkey, pkeys !! t = Some pkey ∧
        map_rows pkey (default [] (select_all t (store w))) ∅ = Ok tb.
Proof.
  unfold dump, mbind, M_bind, _get_primary_keys, _get_table_names, reading. simpl.
  destruct (primary_keys (store w)) as [pkeys|e]; [|done].
  intros [Hall Hlookup]%dump_tables_lookup. exists pkeys. split; [done|].
  split; [done|]. intros t tb. rewrite Hlookup, lookup_empty. naive_solver.
Qed.

(** X14: A dump that returns has exactly one entry for each table that
    [pg_tables] lists in the public schema, whether the table has rows
    or not. *)
Theorem dump_tables_listed w s :
  (dump w).1 = Ok s → ∀ t, t ∈ dom s ↔ t ∈ table_names (store w).
Proof.
  intros (pkeys & _ & Hall & Hlookup)%dump_lookup t. rewrite elem_of_dom. split.
  - intros [tb Htb]. by apply Hlookup in Htb as [? _].
  - intros Hin. destruct (Hall t Hin) as (pkey & tb & Hpkey & Hres).
    exists tb. apply Hlookup. eauto.
Qed.

(** X15: The entry of a table in a dump maps each value of the primary-key
    column to the last of the fetched rows that has it: a row is in the
    entry under [key] exactly when it was fetched, has [key] in that
    column, and no row fetched after it has the same. *)
Theorem dump_rows w s pkeys t tb pkey :
  (dump w).1 = Ok s → (_get_primary_keys w).1 = Ok pkeys →
  s !! t = Some tb → pkeys !! t = Some pkey →
  ∀ key r, tb !! key = Some r ↔
    ∃ before after,
      default [] (select_all t (store w)) = (before ++ r :: after)%list ∧
      r !! pkey = Some key ∧ Forall (λ r', r' !! pkey ≠ Some key) after.
Proof.
  intros (pkeys' & Hpk' & _ & Hlookup)%dump_lookup Hpk Htb Hpkey key r.
  assert (pkeys' = pkeys) as -> by congruence.
  apply Hlookup in Htb as (_ & pkey' & Hpkey' & Hres).
  assert (pkey' = pkey) as -> by congruence.
  rewrite (map_rows_lookup _ _ _ _ Hres). rewrite lookup_empty. naive_solver.
Qed.

Lemma dump_tables_Ok pkeys names out w :
  (∀ t, t ∈ names →
     ∃ pkey, pkeys !! t = Some pkey ∧
       Forall (λ r, is_Some (r !! pkey)) (default [] (select_all t (store w)))) →
  ∃ s, (dump_tables pkeys names out w).1 = Ok s.
Proof.
  revert out. induction names as [|t0 names IH]; intros out Hall; [by eexists|].
  cbn [dump_tables]. unfold mbind, M_bind, lift, fetch_rows, reading.
  destruct (Hall t0) as (pkey0 & Hpkey0 & Hrows); [by left|].
  unfold getitem. rewrite Hpkey0.
  apply (map_rows_Ok_iff _ _ ∅) in Hrows as [mapped0 ->].
  apply IH. intros t Hin. apply Hall. by right.
Qed.

(** X16: [dump] returns exactly when the primary keys can be read, every
    listed table has an entry among them, and every fetched row has
    the primary-key column of its table. *)
Theorem dump_returns_iff w :
  (∃ s, dump w = (Ok s, w)) ↔
  ∃ pkeys, (_get_primary_keys w).1 = Ok pkeys ∧
    ∀ t, t ∈ table_names (store w) →
      ∃ pkey, pkeys !! t = Some pkey ∧
        Forall (λ r, is_Some (r !! pkey)) (default [] (select_all t (store w))).
Proof.
  split.
  - intros [s Hdump]. assert ((dump w).1 = Ok s) as Hres by (by rewrite Hdump).
    apply dump_lookup in Hres as (pkeys & Hpk & Hall & _).
    exists pkeys. split; [done|]. intros t Hin.
    destruct (Hall t Hin) as (pkey & tb & Hpkey & Hres). exists pkey. split; [done|].
    apply (map_rows_Ok_iff _ _ ∅). eauto.
  - intros (pkeys & Hpk & Hall).
    destruct (dump_tables_Ok pkeys (table_names (store w)) ∅ w Hall) as [s Hs].
    exists s. pose proof (dump_world w) as Hworld.
    assert ((dump w).1 = Ok s) as Hres.
    { unfold dump, mbind, M_bind, _get_primary_keys, _get_table_names, reading in *.
      simpl in *. by rewrite Hpk. }
    destruct (dump w) as [res w']. simpl in *. by subst.
Qed.

Lemma dump_tables_Raise pkeys names out w e :
  (dump_tables pkeys names out w).1 = Raise e →
  ∃ t, t ∈ names ∧
    (pkeys !! t = None ∧ e = KeyError (VStr t) ∨
     ∃ pkey r, pkeys !! t = Some pkey ∧ r ∈ default [] (select_all t (store w)) ∧
               r !! pkey = None ∧ e = KeyError (VStr pkey)).
Proof.
  revert out. induction names as [|t0 names IH]; intros out; [done|].
  cbn [dump_tables]. unfold mbind, M_bind, lift, fetch_rows, reading.
  destruct (getitem pkeys t0 (VStr t0)) as [pkey0|e0] eqn:Hpkey0.
  - apply getitem_Ok in Hpkey0.
    destruct (map_rows pkey0 _ ∅) as [mapped0|e0] eqn:Hrows.
    + intros (t & Hin & Hcases)%IH. exists t. split; [by right|done].
    + simpl. intros [= ->]. apply map_rows_Raise in Hrows as (-> & r & Hin & Hr).
      exists t0. split; [by left|]. right. by exists pkey0, r.
  - simpl. intros [= ->]. apply getitem_Raise in Hpkey0 as [Hnone ->].
    exists t0. split; [by left|]. by left.
Qed.

(** X17: When [dump] raises, the world is as it was, and the exception is
    the one from reading the primary keys, or the [KeyError] for a
    listed table without a primary key, or the [KeyError] for a fetched
    row without the primary-key column of its table. *)
Theorem dump_raises w e :
  (dump w).1 = Raise e →
  (dump w).2 = w ∧
  ((_get_primary_keys w).1 = Raise e ∨
   ∃ pkeys t, (_get_primary_keys w).1 = Ok pkeys ∧ t ∈ table_names (store w) ∧
     (pkeys !! t = None ∧ e = KeyError (VStr t) ∨
      ∃ pkey r, pkeys !! t = Some pkey ∧ r ∈ default [] (select_all t (store w)) ∧
                r !! pkey = None ∧ e = KeyError (VStr pkey))).
Proof.
  intros Hraise. split; [apply dump_world|]. revert Hraise.
  unfold dump, mbind, M_bind, _get_primary_keys, _get_table_names, reading. simpl.
  destruct (primary_keys (store w)) as [pkeys|e0]; [|simpl; intros [= ->]; by left].
  intros (t & Hin & Hcases)%dump_tables_Raise. right. by exists pkeys, t.
Qed.

(** ** The primary keys *)

Lemma split_app_sep sep (x y : string) :
  has_char sep x = false → split sep (x ++ String sep y) = x :: split sep y.
Proof.
  induction x as [|c x IH]; simpl.
  - intros _. by rewrite Ascii.eqb_refl.
  - intros [Hc Hx]%orb_false_iff. by rewrite Hc, IH.
Qed.

Lemma head_split_app sep (x y : string) :
  has_char sep x = false →
  hd "" (split sep (x ++ y)) = x ++ hd "" (split sep y).
Proof.
  induction x as [|c x IH]; simpl; [done|].
  intros [Hc Hx]%orb_false_iff. rewrite Hc. specialize (IH Hx).
  destruct (split sep (x ++ y)) as [|p ps] eqn:Hsplit;
    [by apply split_nonempty in Hsplit|].
  simpl in *. by rewrite IH.
Qed.

Lemma parse_pkey_between indexdef pkey :
  between_parens indexdef pkey → parse_pkey indexdef = Ok pkey.
Proof.
  intros (before & rest & -> & Hbefore & Hopen & Hclose & Hrest).
  unfold parse_pkey. rewrite split_app_sep by done.
  pose proof (head_split_app "(" pkey rest Hopen) as Hinner.
  destruct (split "(" (pkey ++ rest)) as [|inner pieces] eqn:Hsplit;
    [by apply split_nonempty in Hsplit|].
  simpl in Hinner. subst inner.
  pose proof (head_split_app ")" pkey (hd "" (split "(" rest)) Hclose) as Hpkey.
  destruct (split ")" (pkey ++ hd "" (split "(" rest))) as [|pk tail] eqn:Hsplit';
    [by apply split_nonempty in Hsplit'|].
  simpl in Hpkey. subst pk. f_equal.
  assert (hd "" (split ")" (hd "" (split "(" rest))) = "") as ->; [|apply string_app_nil_r].
  destruct Hrest as [->|(rest' & [->| ->])]; [done|done|].
  simpl. destruct (split "(" rest') as [|p ps] eqn:Hr;
    [by apply split_nonempty in Hr|done].
Qed.

Lemma NoDup_fst_unique {A B} (l : list (A * B)) x y1 y2 :
  NoDup l.*1 → (x, y1) ∈ l → (x, y2) ∈ l → y1 = y2.
Proof.
  induction l as [|[x0 y0] rest IH]; [by intros _ ?%elem_of_nil|].
  rewrite fmap_cons, NoDup_cons, list_elem_of_fmap. simpl.
  intros [Hnotin Hnodup] [[= -> ->]|Hd1]%elem_of_cons [[= <-]|Hd2]%elem_of_cons;
    [done| | |by apply IH].
  - destruct Hnotin. by eexists (_, _).
  - subst. destruct Hnotin. by eexists (_, _).
Qed.

(** X18: The primary key that is read for a table with one index
    definition is the text in the first pair of parentheses of that
    definition: for [... (id)] it is [id]. *)
Theorem primary_key_read w _pkeys t before pkey after :
  pg_indexes (store w) = Some _pkeys →
  Forall (λ r, has_char "(" r.2 = true) _pkeys →
  NoDup _pkeys.*1 →
  (t, before ++ String "(" (pkey ++ String ")" after)) ∈ _pkeys →
  has_char "(" before = false →
  has_char "(" pkey = false → has_char ")" pkey = false →
  ∃ pkeys, _get_primary_keys w = (Ok pkeys, w) ∧ pkeys !! t = Some pkey.
Proof.
  intros Hidx Hall Hnodup Hin Hbefore Hopen Hclose.
  unfold _get_primary_keys, reading, primary_keys. rewrite Hidx.
  destruct (collect_pkeys_Ok _pkeys ∅ Hall) as (pkeys & -> & Hdom & Hlookup).
  exists pkeys. split; [done|].
  assert (t ∈ dom pkeys) as [pk Hpk]%elem_of_dom.
  { apply Hdom. right. apply list_elem_of_fmap. by eexists (_, _). }
  rewrite Hpk. f_equal.
  destruct (Hlookup t pk Hpk) as [?|(indexdef & Hin' & Hparse)]; [done|].
  assert (indexdef = before ++ String "(" (pkey ++ String ")" after)) as ->.
  { by eapply NoDup_fst_unique. }
  rewrite (parse_pkey_between _ pkey) in Hparse; [congruence|].
  exists before, (String ")" after). eauto 10.
Qed.

(** X19: A store whose catalogue lists no primary-key index at all cannot
    be dumped or compared: [_get_primary_keys] never binds [pkeys], and
    [dump], [_diff] and [diff] raise the [UnboundLocalError], whatever
    the tables and the dumps are. *)
Theorem no_primary_key_index w :
  pg_indexes (store w) = None →
  dump w = (Raise (UnboundLocalError "pkeys"), w) ∧
  (∀ a b compact, _diff a b compact w = (Raise (UnboundLocalError "pkeys"), w)) ∧
  (∀ compact, is_Some (self_a w) →
     diff compact w = (Raise (UnboundLocalError "pkeys"), w)).
Proof.
  intros Hidx.
  assert (dump w = (Raise (UnboundLocalError "pkeys"), w)) as Hdump.
  { unfold dump, mbind, M_bind, _get_primary_keys, reading, primary_keys.
    by rewrite Hidx. }
  split; [done|]. split.
  - intros a b compact. rewrite _diff_unfold.
    unfold _get_primary_keys, reading, primary_keys. by rewrite Hidx.
  - intros compact [s Hs]. unfold diff, mbind, M_bind, get_self_a, reading.
    by rewrite Hs, Hdump.
Qed.

(** ** Emptying the tables *)

(** X20: [_delete_data] never touches the baseline or the environment, and
    hands nothing to the store but the [TRUNCATE] of tables that
    [pg_tables] lists. *)
Theorem delete_data_only_truncates w :
  self_a (_delete_data w).2 = self_a w ∧
  environ (_delete_data w).2 = environ w ∧
  ∃ statements,
    issued (_delete_data w).2 = (issued w ++ statements)%list ∧
    Forall (λ statement,
              ∃ t, t ∈ table_names (store w) ∧ statement = truncate_statement t)
           statements.
Proof.
  unfold _delete_data, mbind, M_bind, os_environ, reading, raise, _get_table_names.
  assert (self_a w = self_a w ∧ environ w = environ w ∧
          ∃ statements, issued w = (issued w ++ statements)%list ∧
            Forall (λ statement, ∃ t, t ∈ table_names (store w) ∧
                                      statement = truncate_statement t) statements)
    as Hsame.
  { split; [done|]. split; [done|]. exists []%list. by rewrite app_nil_r. }
  destruct (getitem (environ w) safety_belt_name _) as [token|e]; [|done].
  case_decide; [done|].
  destruct (truncate_tables_issued (table_names (store w)) w)
    as (n & Hissued & Henv & Hself & _).
  split; [done|]. split; [done|]. eexists. split; [done|].
  apply Forall_fmap, Forall_forall. intros t Hin%subseteq_take. simpl. eauto.
Qed.

Lemma truncate_each_issued names w :
  ∃ n, issued (truncate_each names w).2
       = (issued w ++ (tearDown_statement <$> take n names))%list ∧
       environ (truncate_each names w).2 = environ w ∧
       self_a (truncate_each names w).2 = self_a w ∧
       (names ≠ [] → (1 ≤ n)%nat) ∧
       ((truncate_each names w).1 = Ok () → n = length names).
Proof.
  revert w. induction names as [|t rest IH]; intros w.
  - exists 0. simpl. by rewrite app_nil_r.
  - cbn [truncate_each]. unfold mbind, M_bind.
    destruct (db_execute_world ("truncate table " ++ t ++ " cascade") [] w)
      as (Hissued & Henv & Hself).
    destruct (db_execute _ [] w) as [[[]|e] w1]; simpl in Hissued, Henv, Hself.
    + destruct (IH w1) as (n & Hissued' & Henv' & Hself' & _ & Hlen).
      exists (Datatypes.S n). rewrite Hissued', Henv', Hself', Hissued. simpl.
      rewrite <-app_assoc. split; [done|]. split; [done|]. split; [done|].
      split; [lia|]. intros Hok. by rewrite Hlen.
    + exists 1. cbn [take fmap list_fmap fst snd]. split; [done|]. split; [done|].
      split; [done|]. split; [done|]. intros [=].
Qed.

(** X21: [tearDown] has no guard: whatever the environment is and whatever
    tables the store has, it hands the store the [truncate] of its six
    tables in their order, up to the first that the store refuses, and
    at least that of [participants]. *)
Theorem tearDown_unguarded w :
  ∃ n, (1 ≤ n)%nat ∧
    issued (tearDown w).2
    = (issued w ++ (tearDown_statement <$> take n tables))%list ∧
    environ (tearDown w).2 = environ w ∧
    self_a (tearDown w).2 = self_a w ∧
    ((tearDown w).1 = Ok () → n = 6).
Proof.
  destruct (truncate_each_issued tables w) as (n & Hissued & Henv & Hself & Hpos & Hlen).
  exists n. split; [by apply Hpos|]. done.
Qed.

(** ** Loads that pass the checks *)


Lemma load_things_refused known table_name data w e :
  table_name ≠ "" → Forall (acceptable known) data →
  (load_things known table_name data w).1 = Raise e →
  ∃ before statement after,
    statements_for table_name data = (before ++ statement :: after)%list ∧
    issued (load_things known table_name data w).2
    = (issued w ++ before ++ [statement])%list ∧
    execute statement.1 statement.2 (store (load_things known table_name data w).2)
    = Raise e.
Proof.
  revert table_name w. induction data as [|item data IH]; intros table_name w Htable;
    [done|].
  intros [Hitem Hdata]%Forall_cons.
  destruct item as [name|r|values]; cbn [load_things statements_for acceptable] in *.
  - destruct Hitem as [Hknown Hname]. rewrite decide_True by done. by apply IH.
  - rewrite decide_False by done. unfold mbind at 1 3 5, M_bind, lift, reading.
    rewrite check_columns_Ok.
    2:{ apply Forall_forall. intros [c v] Hin%elem_of_sorted_items.
        apply Hitem, elem_of_dom. eauto. }
    rewrite <-(length_sorted_items r), <-(length_fmap fst (sorted_items r)),
      insert_sql_statement.
    unfold mbind, M_bind, db_execute.
    destruct (execute _ _ (store w)) as [s'|e'] eqn:Hexec.
    + intros Hraise.
      destruct (IH _ _ Htable Hdata Hraise) as (before & statement & after & -> & -> & ?).
      eexists (_ :: before)%list, statement, after. simpl.
      rewrite <-app_assoc. done.
    + simpl. intros [= ->]. by eexists []%list, (_, _), _.
  - rewrite decide_False by done.
    unfold mbind, M_bind, db_execute.
    destruct (execute _ _ (store w)) as [s'|e'] eqn:Hexec.
    + intros Hraise.
      destruct (IH _ _ Htable Hdata Hraise) as (before & statement & after & -> & -> & ?).
      eexists (_ :: before)%list, statement, after. simpl.
      rewrite <-app_assoc. done.
    + simpl. intros [= ->]. by eexists []%list, (_, _), _.
Qed.


End more_properties.

(** * [setup_tips] *)

Section setup_tips_properties.
Context {S : Type} `{!Backend S}.
Context (Decimal : string → result value) (utcnow : nat → value).
Implicit Types (w : world S) (recs : list tip_rec) (ps : gmap string (option bool)).

Lemma people_cons (rec : tip_rec) recs :
  people (rec :: recs) = {[ tipper_of rec ]} ∪ {[ tippee_of rec ]} ∪ people recs.
Proof.
  unfold people. rewrite !fmap_cons, !list_to_set_app_L, !list_to_set_cons.
  set_solver.
Qed.

Lemma collect_tips_cons rec recs n ps0 tips0 ps tips :
  collect_tips Decimal utcnow (rec :: recs) n ps0 tips0 = Ok (ps, tips) ↔
  ∃ amount,
    Decimal (amount_of rec) = Ok amount ∧
    collect_tips Decimal utcnow recs (Datatypes.S n)
      (match <[tipper_of rec := good_cc_of rec]> ps0 !! tippee_of rec with
       | None => <[tippee_of rec := None]> (<[tipper_of rec := good_cc_of rec]> ps0)
       | Some _ => <[tipper_of rec := good_cc_of rec]> ps0
       end)
      (tips0 ++ [tip (utcnow n) (tipper_of rec) (tippee_of rec) amount])
    = Ok (ps, tips).
Proof. destruct rec as [[[tipper tippee] amount] good_cc]. simpl. apply bind_Ok. Qed.

Lemma collect_tips_dom recs n ps0 tips0 ps tips :
  collect_tips Decimal utcnow recs n ps0 tips0 = Ok (ps, tips) →
  dom ps = dom ps0 ∪ people recs.
Proof.
  revert n ps0 tips0. induction recs as [|rec recs IH]; intros n ps0 tips0.
  - intros [= <- _]. unfold people. set_solver.
  - intros (amount & _ & Hrest%IH)%collect_tips_cons. rewrite Hrest, people_cons.
    destruct (_ !! tippee_of rec) as [cc|] eqn:Hlookup.
    + apply (elem_of_dom_2 (D := gset string)) in Hlookup.
      rewrite dom_insert_L in *. set_solver.
    + rewrite !dom_insert_L. set_solver.
Qed.

Lemma collect_tips_kept recs n ps0 tips0 ps tips p cc :
  collect_tips Decimal utcnow recs n ps0 tips0 = Ok (ps, tips) →
  Forall (λ r, tipper_of r ≠ p) recs → ps0 !! p = Some cc → ps !! p = Some cc.
Proof.
  revert n ps0 tips0. induction recs as [|rec recs IH]; intros n ps0 tips0.
  - by intros [= <- _].
  - intros (amount & _ & Hrest)%collect_tips_cons [Hrec Hrecs]%Forall_cons Hp.
    apply (IH _ _ _ Hrest Hrecs).
    destruct (_ !! tippee_of rec) as [cc'|] eqn:Hlookup.
    + by rewrite lookup_insert_ne.
    + assert (tippee_of rec ≠ p) as Hne.
      { intros Heq. rewrite Heq, lookup_insert_ne in Hlookup by done. congruence. }
      rewrite lookup_insert_ne by done. by rewrite lookup_insert_ne.
Qed.

Lemma collect_tips_last_tipper before rec after n ps0 tips0 ps tips :
  collect_tips Decimal utcnow (before ++ rec :: after) n ps0 tips0 = Ok (ps, tips) →
  Forall (λ r, tipper_of r ≠ tipper_of rec) after →
  ps !! tipper_of rec = Some (good_cc_of rec).
Proof.
  revert n ps0 tips0. induction before as [|r before IH]; intros n ps0 tips0.
  - intros (amount & _ & Hrest)%collect_tips_cons Hafter.
    apply (collect_tips_kept _ _ _ _ _ _ _ _ Hrest Hafter).
    destruct (_ !! tippee_of rec) as [cc'|] eqn:Hlookup.
    + by rewrite lookup_insert_eq.
    + destruct (decide (tippee_of rec = tipper_of rec)) as [Heq|Hne].
      * rewrite Heq, lookup_insert_eq in Hlookup. done.
      * rewrite lookup_insert_ne by done. by rewrite lookup_insert_eq.
  - intros (amount & _ & Hrest)%collect_tips_cons Hafter. by eapply IH.
Qed.

Lemma collect_tips_tippee recs n ps0 tips0 ps tips p cc :
  collect_tips Decimal utcnow recs n ps0 tips0 = Ok (ps, tips) →
  Forall (λ r, tipper_of r ≠ p) recs → ps !! p = Some cc →
  ps0 !! p = Some cc ∨ cc = None.
Proof.
  revert n ps0 tips0. induction recs as [|rec recs IH]; intros n ps0 tips0.
  - intros [= <- _]. auto.
  - intros (amount & _ & Hrest)%collect_tips_cons [Hrec Hrecs]%Forall_cons Hp.
    destruct (IH _ _ _ Hrest Hrecs Hp) as [Hp1|?]; [|by right].
    destruct (_ !! tippee_of rec) as [cc'|] eqn:Hlookup.
    + left. by rewrite lookup_insert_ne in Hp1.
    + apply lookup_insert_Some in Hp1 as [[_ <-]|[_ Hp1]]; [by right|].
      left. by rewrite lookup_insert_ne in Hp1.
Qed.

Lemma setup_tips_data_Ok recs data :
  setup_tips_data Decimal utcnow recs = Ok data ↔
  ∃ ps tips,
    collect_tips Decimal utcnow recs 0 ∅ [] = Ok (ps, tips) ∧
    data = (TStr "participants"
              :: (TDict <$> ((λ item, participant item.1 item.2) <$> map_to_list ps))
              ++ TStr "tips" :: (TDict <$> tips))%list.
Proof.
  unfold setup_tips_data. rewrite bind_Ok. split.
  - intros ([ps tips] & Hcollect & [= <-]). by exists ps, tips.
  - intros (ps & tips & Hcollect & ->). by exists (ps, tips).
Qed.

Lemma collect_tips_participants recs ps tips :
  collect_tips Decimal utcnow recs 0 ∅ [] = Ok (ps, tips) → participants_for recs ps.
Proof.
  intros Hcollect.
  pose proof (collect_tips_dom _ _ _ _ _ _ Hcollect) as Hdom.
  rewrite dom_empty_L, (left_id_L ∅ (∪)) in Hdom.
  split; [done|]. split.
  - intros before rec after -> Hafter. by eapply collect_tips_last_tipper.
  - intros p Hin Hrecs. rewrite <-Hdom in Hin. apply elem_of_dom in Hin as [cc Hcc].
    destruct (collect_tips_tippee _ _ _ _ _ _ _ _ Hcollect Hrecs Hcc) as [?| ->]; done.
Qed.

(** X22: [setup_tips] makes one participant for each person that the
    [recs] name as tipper or as tippee, however often.  A person who
    tips gets the [good_cc] of the last of the [recs] in which they are
    the tipper; a person who only receives gets none, and so no
    [last_bill_result]. *)
Theorem setup_tips_participants recs data :
  setup_tips_data Decimal utcnow recs = Ok data →
  ∃ ps tips,
    data = (TStr "participants"
              :: (TDict <$> ((λ item, participant item.1 item.2) <$> map_to_list ps))
              ++ TStr "tips" :: (TDict <$> tips))%list ∧
    participants_for recs ps.
Proof.
  intros (ps & tips & Hcollect & ->)%setup_tips_data_Ok. exists ps, tips.
  split; [done|]. by eapply collect_tips_participants.
Qed.

Lemma collect_tips_tips recs n ps0 tips0 ps tips :
  collect_tips Decimal utcnow recs n ps0 tips0 = Ok (ps, tips) →
  ∃ amounts,
    Forall2 (λ rec amount, Decimal (amount_of rec) = Ok amount) recs amounts ∧
    tips = (tips0
            ++ imap (λ i rd, tip (utcnow (n + i)) (tipper_of rd.1) (tippee_of rd.1) rd.2)
                 (zip recs amounts))%list.
Proof.
  revert n ps0 tips0. induction recs as [|rec recs IH]; intros n ps0 tips0.
  - intros [= _ <-]. exists []. split; [done|]. simpl. by rewrite app_nil_r.
  - intros (amount & Hamount & (amounts & Hall & ->)%IH)%collect_tips_cons.
    exists (amount :: amounts). split; [by constructor|].
    rewrite <-app_assoc. f_equal. simpl. rewrite Nat.add_0_r. f_equal.
    apply imap_ext. intros i rd _. simpl. by rewrite Nat.add_succ_r.
Qed.

Lemma collect_tips_Raise recs n ps0 tips0 e :
  collect_tips Decimal utcnow recs n ps0 tips0 = Raise e →
  ∃ rec, rec ∈ recs ∧ Decimal (amount_of rec) = Raise e.
Proof.
  revert n ps0 tips0. induction recs as [|rec recs IH]; intros n ps0 tips0; [done|].
  destruct rec as [[[tipper tippee] amount] good_cc]. simpl.
  intros [Hraise|(d & _ & (rec & Hin & Hrec)%IH)]%bind_Raise.
  - eexists. split; [by left|done].
  - exists rec. split; [by right|done].
Qed.

Lemma statements_for_dicts table_name (rows : list row) rest :
  statements_for table_name ((TDict <$> rows) ++ rest)%list
  = (((λ r, (insert_statement table_name (sorted_items r).*1, (sorted_items r).*2))
      <$> rows) ++ statements_for table_name rest)%list.
Proof.
  induction rows as [|r rows IH]; [done|].
  rewrite !fmap_cons. cbn [app statements_for]. by rewrite IH.
Qed.

Lemma participant_insert p cc :
  (insert_statement "participants" (sorted_items (participant p cc)).*1,
   (sorted_items (participant p cc)).*2)
  = participant_statement (p, cc).
Proof. destruct cc as [[]|]; vm_compute; reflexivity. Qed.

Lemma tip_insert now tipper tippee amount :
  (insert_statement "tips" (sorted_items (tip now tipper tippee amount)).*1,
   (sorted_items (tip now tipper tippee amount)).*2)
  = tip_statement now tipper tippee amount.
Proof. vm_compute. reflexivity. Qed.

Lemma setup_tips_acceptable known ps (tips : list row) :
  "participants" ∈ known → "tips" ∈ known →
  Forall (λ r, ∃ now tipper tippee amount, r = tip now tipper tippee amount) tips →
  Forall (acceptable known)
    (TStr "participants"
       :: (TDict <$> ((λ item, participant item.1 item.2) <$> map_to_list ps))
       ++ TStr "tips" :: (TDict <$> tips))%list.
Proof.
  intros Hparticipants Htips Hall.
  apply Forall_cons. split; [by split|]. apply Forall_app. split.
  - apply Forall_fmap, Forall_fmap, Forall_forall. intros [p cc] _. simpl.
    intros c. destruct cc as [good|]; simpl.
    + rewrite dom_insert, dom_singleton, elem_of_union, !elem_of_singleton.
      by intros [->| ->].
    + rewrite dom_singleton, elem_of_singleton. by intros ->.
  - apply Forall_cons. split; [by split|].
    apply Forall_fmap. eapply Forall_impl; [done|].
    intros r (now & tipper & tippee & amount & ->) c. unfold tip.
    rewrite !dom_insert, dom_singleton, !elem_of_union, !elem_of_singleton.
    by intros [->|[->|[->|[->| ->]]]].
Qed.

(** X23: A call of [setup_tips] that returns has handed the store one
    [INSERT] into [participants] for each person, before one [INSERT]
    into [tips] for each of the [recs], in their order, with the time of
    its own call of [utcnow] as [ctime] and [mtime]. *)
Theorem setup_tips_statements recs w w' :
  setup_tips Decimal utcnow recs w = (Ok (), w') →
  ∃ ps amounts for_participants,
    participants_for recs ps ∧
    for_participants ≡ₚ participant_statement <$> map_to_list ps ∧
    Forall2 (λ rec amount, Decimal (amount_of rec) = Ok amount) recs amounts ∧
    issued w'
    = (issued w ++ for_participants
       ++ imap (λ i rd, tip_statement (utcnow i) (tipper_of rd.1) (tippee_of rd.1) rd.2)
            (zip recs amounts))%list.
Proof.
  unfold setup_tips, mbind, M_bind, lift, reading.
  destruct (setup_tips_data Decimal utcnow recs) as [data|e] eqn:Hdata; [|done].
  apply setup_tips_data_Ok in Hdata as (ps & tips & Hcollect & ->).
  destruct (collect_tips_tips _ _ _ _ _ _ Hcollect) as (amounts & Hamounts & ->).
  intros Hcall. exists ps, amounts, (participant_statement <$> map_to_list ps).
  split; [by eapply collect_tips_participants|]. split; [done|]. split; [done|].
  assert (issued w' = issued (__call__ (TStr "participants"
            :: (TDict <$> ((λ item, participant item.1 item.2) <$> map_to_list ps))
            ++ TStr "tips" :: (TDict <$> ([]
                 ++ imap (λ i rd, tip (utcnow (0 + i)) (tipper_of rd.1)
                                    (tippee_of rd.1) rd.2) (zip recs amounts))))%list w).2)
    as -> by by rewrite Hcall.
  rewrite call_issued, load_things_trace.
  2:{ rewrite call_unfold in Hcall.
      by destruct (load_things _ "" _ w) as [[[]|e] w1]. }
  f_equal. cbn [statements_for app]. rewrite statements_for_dicts. f_equal.
  - rewrite <-list_fmap_compose. apply list_fmap_ext. intros _ [p cc] _. simpl.
    apply participant_insert.
  - cbn [statements_for].
    rewrite <-(app_nil_r (TDict <$> _)), statements_for_dicts. simpl.
    rewrite app_nil_r, fmap_imap. apply imap_ext. intros i rd _. simpl.
    apply tip_insert.
Qed.

(** X24: The data that [setup_tips] builds pass the checks of the load:
    when the store has the tables [participants] and [tips], a call of
    [setup_tips] raises only in one of three ways.  [Decimal] raises on
    an amount, and then nothing was done.  Or the store raises on one
    of the statements of this call: the statements before it were
    executed, it is the last one handed over, and the store refuses it
    in the state that is left.  Or all the statements were executed
    and the dump after them raises. *)
Theorem setup_tips_failures recs w e w' :
  "participants" ∈ table_names (store w) → "tips" ∈ table_names (store w) →
  setup_tips Decimal utcnow recs w = (Raise e, w') →
  (∃ rec, rec ∈ recs ∧ Decimal (amount_of rec) = Raise e ∧ w' = w) ∨
  ∃ data, setup_tips_data Decimal utcnow recs = Ok data ∧
    ((∃ before statement after,
        statements_for "" data = (before ++ statement :: after)%list ∧
        issued w' = (issued w ++ before ++ [statement])%list ∧
        execute statement.1 statement.2 (store w') = Raise e) ∨
     (issued w' = (issued w ++ statements_for "" data)%list ∧
      (dump w').1 = Raise e)).
Proof.
  intros Hparticipants Htips.
  unfold setup_tips, mbind, M_bind, lift, reading.
  destruct (setup_tips_data Decimal utcnow recs) as [data|e0] eqn:Hdata.
  - intros Hcall. right. exists data. split; [done|].
    apply setup_tips_data_Ok in Hdata as (ps & tips & Hcollect & ->).
    destruct (collect_tips_tips _ _ _ _ _ _ Hcollect) as (amounts & _ & Htipsform).
    assert (Forall (λ r, ∃ now tipper tippee amount, r = tip now tipper tippee amount)
              tips) as Hform.
    { rewrite Htipsform. simpl. apply Forall_forall.
      intros r (i & rd & -> & _)%elem_of_lookup_imap. eauto. }
    pose proof (setup_tips_acceptable _ ps tips Hparticipants Htips Hform)
      as [[_ Hname] Hrest]%Forall_cons.
    rewrite call_unfold in Hcall.
    destruct (load_things _ "" _ w) as [[[]|e1] w1] eqn:Hload.
    + destruct ((dump w1).1) as [a|e1] eqn:Hdump; [done|].
      injection Hcall as -> <-. right. split; [|done].
      assert (w1 = (load_things (table_names (store w)) ""
                (TStr "participants"
                   :: (TDict <$> ((λ item, participant item.1 item.2) <$> map_to_list ps))
                   ++ TStr "tips" :: (TDict <$> tips))%list w).2) as ->
        by by rewrite Hload.
      apply load_things_trace. by rewrite Hload.
    + injection Hcall as -> <-. left.
      cbn [app load_things statements_for] in Hload |- *.
      rewrite decide_True in Hload by done.
      destruct (load_things_refused _ "participants" _ w e Hname Hrest)
        as (before & statement & after & Hsplit & Hissued & Hexec);
        [by rewrite Hload|].
      rewrite Hload in Hissued, Hexec. simpl in Hissued, Hexec.
      by exists before, statement, after.
  - intros [= -> <-]. left. unfold setup_tips_data in Hdata.
    apply bind_Raise in Hdata as [Hraise|([ps tips] & _ & [=])].
    apply collect_tips_Raise in Hraise as (rec & Hin & Hrec). eauto.
Qed.

End setup_tips_properties.

(** * The methods on concrete inputs *)

Example dump_of_widgets :
  (dump widgets_world).1
  = Ok {[ "widgets" := {[ VInt 1 := widget 1 "A" ]} ]}.
Proof. vm_compute. reflexivity. Qed.

Example diff_of_widgets :
  (_diff widgets_before widgets_after false widgets_world).1
  = Ok {[ "widgets" := Full [widget 2 "C"] [widget 1 "B"] [] ]}.
Proof. vm_compute. reflexivity. Qed.

Example compact_diff_of_widgets :
  (_diff widgets_before widgets_after true widgets_world).1
  = Ok {[ "widgets" := Compact 1 1 0 ]}.
Proof. vm_compute. reflexivity. Qed.

(** * The theorems at concrete inputs *)

Lemma widgets_pkeys_read : (_get_primary_keys widgets_world).1 = Ok widgets_pkeys.
Proof. vm_compute. reflexivity. Defined.

Lemma diff_schema_drift_witness :
  _diff widgets_before ∅ false widgets_world = (Raise SchemaDriftError, widgets_world) ∧
  ∀ msg, (_diff widgets_before widgets_after false widgets_world).1
         ≠ Raise (AssertionError msg).
Proof.
  split.
  - apply (diff_schema_drift widgets_before ∅ false widgets_world widgets_pkeys).
    + apply widgets_pkeys_read.
    + vm_compute. discriminate.
  - apply (diff_schema_drift widgets_before widgets_after false widgets_world
             widgets_pkeys).
    + apply widgets_pkeys_read.
    + vm_compute. reflexivity.
Defined.

(** C6 as it is stated fails where the primary keys cannot be read:
    the two dumps do not have the same table names, and [_diff] raises
    what [_get_primary_keys] raises, not the assertion error. *)
Lemma diff_schema_drift_counterexample :
  dom widgets_before ≠ dom (∅ : snapshot) ∧
  _diff widgets_before ∅ false malformed_world
  = (Raise (IndexError "list index out of range"), malformed_world) ∧
  _diff widgets_before ∅ false unindexed_world
  = (Raise (UnboundLocalError "pkeys"), unindexed_world).
Proof.
  split; [|split; vm_compute; reflexivity].
  intros Heq. assert ("widgets" ∈ dom (∅ : snapshot)) as Hin.
  { rewrite <-Heq. apply elem_of_dom. by eexists. }
  by apply not_elem_of_empty in Hin.
Qed.

Lemma nan_free_widgets_after : nan_free widgets_after.
Proof. apply (bool_decide_unpack _). vm_compute. exact I. Defined.

Lemma diff_identity_witness :
  _diff widgets_after widgets_after false widgets_world = (Ok ∅, widgets_world).
Proof.
  apply (diff_identity widgets_after false widgets_world widgets_pkeys
           widgets_pkeys_read).
  apply nan_free_widgets_after.
Defined.

(** C5 as it is stated fails on a dump with a not-a-number, whose row
    is reported as updated, and where the primary keys cannot be read,
    where the diff raises. *)
Lemma diff_identity_counterexample :
  _diff nan_widgets nan_widgets false widgets_world
  = (Ok {[ "widgets" := Full [] [{[ "id" := VInt 1; "price" := VNaN 1 ]}] [] ]},
     widgets_world) ∧
  _diff widgets_before widgets_before false unindexed_world
  = (Raise (UnboundLocalError "pkeys"), unindexed_world).
Proof. split; vm_compute; reflexivity. Qed.

Lemma diff_column_mismatch_raises_witness :
  ∃ missing,
    _diff widgets_before widgets_stocked true widgets_world
    = (Raise (KeyError missing), widgets_world).
Proof.
  apply (diff_column_mismatch_raises widgets_before widgets_stocked true
           widgets_world widgets_pkeys "widgets"
           {[ VInt 1 := widget 1 "A" ]}
           {[ VInt 1 := <[ "stock" := VInt 7 ]> (widget 1 "A") ]}
           (VInt 1) (widget 1 "A") (<[ "stock" := VInt 7 ]> (widget 1 "A")) "stock").
  - apply widgets_pkeys_read.
  - vm_compute. reflexivity.
  - vm_compute. reflexivity.
  - vm_compute. reflexivity.
  - vm_compute. reflexivity.
  - vm_compute. reflexivity.
  - apply elem_of_dom. exists (VInt 7). vm_compute. reflexivity.
  - apply not_elem_of_dom. vm_compute. reflexivity.
Defined.

(** C1 as it is stated fails on rows that do not have the same columns.
    The two dumps have the same table names and the rows under key 1
    differ.  With the extra column in B the diff raises and classifies
    nothing; with the extra column in A it returns the empty diff and
    reports no update for key 1.  It fails also on a row with a
    not-a-number: the row is the same in both dumps, and is reported
    as updated. *)
Lemma diff_classifies_counterexample :
  dom widgets_narrow = dom widgets_before ∧
  ({[ "id" := VInt 1 ]} : row) ≠ widget 1 "A" ∧
  _diff widgets_narrow widgets_before false widgets_world
  = (Raise (KeyError (VStr "name")), widgets_world) ∧
  _diff widgets_before widgets_narrow false widgets_world = (Ok ∅, widgets_world) ∧
  _diff nan_widgets nan_widgets false widgets_world
  = (Ok {[ "widgets" := Full [] [{[ "id" := VInt 1; "price" := VNaN 1 ]}] [] ]},
     widgets_world).
Proof.
  split; [vm_compute; reflexivity|]. split; [|repeat split; vm_compute; reflexivity].
  intros Heq. apply (f_equal (λ r : row, r !! "name")) in Heq. vm_compute in Heq.
  discriminate.
Qed.


Lemma diff_classifies_witness :
  ∃ out, _diff widgets_before widgets_after false widgets_world = (Ok out, widgets_world).
Proof.
  destruct (diff_classifies widgets_before widgets_after widgets_world widgets_pkeys)
    as (out & Hout & _).
  - apply widgets_pkeys_read.
  - vm_compute. reflexivity.
  - intros t ta tb k ra rb Ha Hb Hra Hrb. unfold widgets_before, widgets_after in *.
    apply lookup_singleton_Some in Ha as [<- <-].
    apply lookup_singleton_Some in Hb as [_ <-].
    apply lookup_singleton_Some in Hra as [<- <-].
    rewrite lookup_insert_eq in Hrb. injection Hrb as <-.
    vm_compute. reflexivity.
  - intros t ta tb k ra rb Ha Hb Hra Hrb _. unfold widgets_before, widgets_after in *.
    apply lookup_singleton_Some in Ha as [<- <-].
    apply lookup_singleton_Some in Hb as [_ <-].
    apply lookup_singleton_Some in Hra as [<- <-].
    rewrite lookup_insert_eq in Hrb. injection Hrb as <-.
    exists "id". split; [vm_compute; reflexivity|].
    exists (VInt 1). vm_compute. reflexivity.
  - by exists out.
Defined.

(** C7 as it is stated fails: for the key of two columns of [gadgets]
    the introspection raises nothing and returns the entry ["a, b"],
    which is not the name of a column; [notes], without a primary key,
    raises nothing either. *)
Lemma primary_keys_counterexample :
  _get_table_names gadgets_world = (Ok ["gadgets"; "notes"], gadgets_world) ∧
  _get_primary_keys gadgets_world = (Ok {[ "gadgets" := "a, b" ]}, gadgets_world) ∧
  colname_re_match "a, b" = false.
Proof. repeat split; vm_compute; reflexivity. Qed.

Lemma primary_keys_unchecked_witness :
  ∃ pkeys, _get_primary_keys gadgets_world = (Ok pkeys, gadgets_world) ∧
    (∀ t, t ∈ dom pkeys ↔ t ∈ ["gadgets"]) ∧
    (∀ t pkey, pkeys !! t = Some pkey →
       ∃ indexdef,
         (t, indexdef)
         ∈ [("gadgets", "CREATE UNIQUE INDEX gadgets_pkey ON gadgets USING btree (a, b)")] ∧
         between_parens indexdef pkey).
Proof.
  apply (primary_keys_unchecked gadgets_world
           [("gadgets", "CREATE UNIQUE INDEX gadgets_pkey ON gadgets USING btree (a, b)")]).
  - reflexivity.
  - repeat constructor.
Defined.

Lemma delete_data_guard_witness :
  (∃ e, SafetyViolationError e ∧ _delete_data widgets_world = (Raise e, widgets_world)) ∧
  (∃ e, SafetyViolationError e ∧ _delete_data misarmed_world = (Raise e, misarmed_world)) ∧
  issued (_delete_data armed_world).2 = [("TRUNCATE TABLE widgets CASCADE", [])].
Proof.
  split; [|split].
  - destruct (delete_data_guard widgets_world) as [_ Hrefuse].
    destruct Hrefuse as (e & He & Hres & _); [vm_compute; discriminate|]. eauto.
  - destruct (delete_data_guard misarmed_world) as [_ Hrefuse].
    destruct Hrefuse as (e & He & Hres & _); [vm_compute; discriminate|]. eauto.
  - destruct (delete_data_guard armed_world) as [Hrun _].
    destruct Hrun as [-> _]; [vm_compute; reflexivity|]. vm_compute. reflexivity.
Defined.

Lemma identifier_and_newline_has_newline s :
  identifier_and_newline s → has_char newline s = true.
Proof.
  intros (word & _ & ->). rewrite has_char_app. apply orb_true_iff. by right.
Qed.

Lemma loader_checks_columns_witness :
  (__call__ [TStr "widgets"; TDict {[ "id" := VInt 2; "na me" := VStr "B" ]};
             TSeq [VInt 3; VStr "C"]] widgets_world).1
  = Raise InvalidIdentifierError ∧
  ∃ colnames values rest,
    issued (__call__ [TStr "widgets"; TDict (widget 2 "B"); TSeq [VInt 3; VStr "C"]]
              widgets_world).2
    = (insert_statement "widgets" colnames, values) :: rest ∧
    StronglySorted (strict String.le) colnames ∧
    (∀ c, c ∈ colnames ↔ c ∈ dom (widget 2 "B")) ∧
    Forall2 (λ c v, widget 2 "B" !! c = Some v) colnames values.
Proof.
  split.
  - destruct (loader_checks_columns [TStr "widgets"]
                {[ "id" := VInt 2; "na me" := VStr "B" ]} [TSeq [VInt 3; VStr "C"]]
                widgets_world) as [Hbad _].
    apply Hbad.
    + exists "na me". split; [|split; [vm_compute; reflexivity|]].
      * apply elem_of_dom. exists (VStr "B"). vm_compute. reflexivity.
      * intros Hnewline%identifier_and_newline_has_newline. vm_compute in Hnewline.
        discriminate.
    + vm_compute. reflexivity.
    + vm_compute. discriminate.
  - destruct (loader_checks_columns [TStr "widgets"] (widget 2 "B")
                [TSeq [VInt 3; VStr "C"]] widgets_world) as [_ Hgood].
    apply Hgood.
    + intros c [v Hv]%elem_of_dom. unfold widget in Hv.
      apply lookup_insert_Some in Hv as [[<- _]|[_ Hv]]; [vm_compute; reflexivity|].
      apply lookup_singleton_Some in Hv as [<- _]. vm_compute. reflexivity.
    + vm_compute. reflexivity.
    + vm_compute. discriminate.
Defined.

(** C2 as it is stated fails in two ways.  A record with the column
    name [na me] that comes before any table name raises the error of
    the missing table, not the error on the column name.  And the
    column name [id] with a newline after it, which is not a word
    over [[A-Za-z0-9_]], passes the check, since [$] matches before a
    final newline: the load returns and has executed the [INSERT]
    with that name in its text. *)
Lemma loader_checks_columns_counterexample :
  colname_re_match "na me" = false ∧
  __call__ [TDict {[ "na me" := VInt 1 ]}] widgets_world
  = (Raise (ValueError "What table am I INSERTing into?"), widgets_world) ∧
  all_word_chars id_newline = false ∧
  colname_re_match id_newline = true ∧
  (__call__ [TStr "widgets"; TDict {[ id_newline := VInt 2 ]}] widgets_world).1 = Ok () ∧
  issued (__call__ [TStr "widgets"; TDict {[ id_newline := VInt 2 ]}] widgets_world).2
  = [(insert_statement "widgets" [id_newline], [VInt 2])].
Proof. repeat split; vm_compute; reflexivity. Qed.

(** The deleted row that [diff] reports is object 3, a copy of the row
    of the baseline, which is object 2. *)
Example diff_of_loaded_state :
  (Objects.diff false loaded_state).1
  = Ok {[ "widgets" := Objects.Full [] [] [3%positive] ]} ∧
  Objects.deref (Objects.the_heap (Objects.diff false loaded_state).2) 3 = widget 2 "C".
Proof. split; vm_compute; reflexivity. Qed.

Lemma loaded_state_stands_for : stands_for loaded_state loaded_world.
Proof.
  split; [reflexivity|]. split; [vm_compute; reflexivity|].
  intros baseline l [= <-] (t & tb & key & Ht & Hl).
  apply lookup_singleton_Some in Ht as [_ <-].
  apply elem_of_dom.
  apply lookup_insert_Some in Hl as [[_ <-]|[_ Hl]]; [by eexists|].
  apply lookup_singleton_Some in Hl as [_ <-]. by eexists.
Defined.

Lemma diff_keeps_baseline_witness :
  after_diffs [false; true] loaded_world = loaded_world ∧
  ∃ res st',
    Objects.diff false loaded_state = (res, st') ∧
    Objects.the_self_a st' = Objects.the_self_a loaded_state ∧
    (fmap (M := gmap string) (resolve_entry (Objects.the_heap st')) <$> res)
    = (diff false loaded_world).1 ∧
    (∀ out l, res = Ok out → holds_row out l → l ∉ dom loaded_heap).
Proof.
  destruct (diff_keeps_baseline [false; true] false loaded_world loaded_state
              loaded_state_stands_for)
    as (Hworld & _ & res & st' & Hdiff & Hself & _ & _ & Hres & Hnew & _).
  split; [exact Hworld|]. exists res, st'. auto.
Defined.

(** * The further properties at concrete inputs *)

Lemma loader_unknown_table_witness :
  __call__ [TStr "widgets"; TSeq [VInt 2; VStr "B"]; TStr "gizmos"; TSeq [VInt 3]]
    widgets_world
  = (Raise (ValueError "Unknown table: gizmos"),
     World widgets_store ∅ None
       [("INSERT INTO widgets VALUES (%s, %s)", [VInt 2; VStr "B"])]).
Proof.
  assert ((load_things (table_names (store widgets_world)) ""
             [TStr "widgets"; TSeq [VInt 2; VStr "B"]] widgets_world).1 = Ok ()) as Hpre
    by (vm_compute; reflexivity).
  assert ("gizmos" ∉ table_names (store widgets_world)) as Hunknown
    by (apply (bool_decide_unpack _); vm_compute; exact I).
  pose proof (loader_unknown_table [TStr "widgets"; TSeq [VInt 2; VStr "B"]] "gizmos"
                [TSeq [VInt 3]] widgets_world Hpre Hunknown) as Hcall.
  vm_compute in Hcall. vm_compute. exact Hcall.
Defined.

Lemma loader_no_table_witness :
  __call__ [TSeq [VInt 2; VStr "B"]; TStr "widgets"] widgets_world
  = (Raise (ValueError "What table am I INSERTing into?"), widgets_world).
Proof.
  apply (loader_no_table [] (TSeq [VInt 2; VStr "B"]) [TStr "widgets"] widgets_world).
  - vm_compute. reflexivity.
  - vm_compute. reflexivity.
  - intros name. discriminate.
Defined.

Lemma loader_positional_record_witness :
  ∃ rest,
    issued (__call__ [TStr "widgets"; TSeq [VInt 2; VStr "B"]] widgets_world).2
    = ("INSERT INTO widgets VALUES (%s, %s)", [VInt 2; VStr "B"]) :: rest.
Proof.
  destruct (loader_positional_record [TStr "widgets"] [VInt 2; VStr "B"] []
              widgets_world) as [rest Hrest].
  - vm_compute. reflexivity.
  - vm_compute. discriminate.
  - exists rest. vm_compute in Hrest. vm_compute. exact Hrest.
Defined.

Lemma loader_trace_witness :
  issued (__call__ [TStr "widgets"; TDict (widget 2 "B"); TSeq [VInt 3; VStr "C"]]
            widgets_world).2
  = [("INSERT INTO widgets (id, name) VALUES (%s, %s)", [VInt 2; VStr "B"]);
     ("INSERT INTO widgets VALUES (%s, %s)", [VInt 3; VStr "C"])].
Proof.
  destruct (loader_trace [TStr "widgets"; TDict (widget 2 "B"); TSeq [VInt 3; VStr "C"]]
              widgets_world
              (__call__ [TStr "widgets"; TDict (widget 2 "B"); TSeq [VInt 3; VStr "C"]]
                 widgets_world).2) as [Hissued _].
  - vm_compute. reflexivity.
  - rewrite Hissued. vm_compute. reflexivity.
Defined.

Lemma loader_failure_keeps_baseline_witness :
  self_a (__call__ [TStr "widgets"; TSeq [VInt 3; VStr "C"]; TStr "gizmos"]
            loaded_world).2
  = self_a loaded_world.
Proof.
  destruct (loader_failure_keeps_baseline
              [TStr "widgets"; TSeq [VInt 3; VStr "C"]; TStr "gizmos"] loaded_world
              (ValueError "Unknown table: gizmos")
              (__call__ [TStr "widgets"; TSeq [VInt 3; VStr "C"]; TStr "gizmos"]
                 loaded_world).2) as [Hself _].
  - vm_compute. reflexivity.
  - exact Hself.
Defined.

Lemma load_then_diff_empty_witness :
  diff false (__call__ [TStr "widgets"; TSeq [VInt 2; VStr "B"]] widgets_world).2
  = (Ok ∅, (__call__ [TStr "widgets"; TSeq [VInt 2; VStr "B"]] widgets_world).2).
Proof.
  apply (load_then_diff_empty [TStr "widgets"; TSeq [VInt 2; VStr "B"]] widgets_world
           _ widgets_before).
  - vm_compute. reflexivity.
  - vm_compute. reflexivity.
  - apply (bool_decide_unpack _). vm_compute. exact I.
Defined.

Lemma empty_diff_equal_witness :
  widgets_before = <["widgets" := {[ VInt 1 := widget 1 "A" ]}]> ∅.
Proof.
  apply (empty_diff_equal _ _ false widgets_world widgets_world).
  - vm_compute. reflexivity.
  - intros t ta tb key ra rb Ha Hb Hra Hrb. unfold widgets_before in Ha.
    apply lookup_singleton_Some in Ha as [<- <-].
    apply lookup_insert_Some in Hb as [[_ <-]|[? _]]; [|done].
    congruence.
Defined.

Lemma diff_swap_witness :
  (lists_at {[ "widgets" := Full [widget 2 "C"] [widget 1 "B"] [] ]} "widgets").1.1
  = (lists_at {[ "widgets" := Full [] [widget 1 "A"] [widget 2 "C"] ]} "widgets").2 ∧
  (lists_at {[ "widgets" := Full [widget 2 "C"] [widget 1 "B"] [] ]} "widgets").2
  = (lists_at {[ "widgets" := Full [] [widget 1 "A"] [widget 2 "C"] ]} "widgets").1.1.
Proof.
  apply (diff_swap widgets_before widgets_after widgets_world widgets_world widgets_world).
  - vm_compute. reflexivity.
  - vm_compute. reflexivity.
Defined.

Lemma diff_exceptions_witness :
  (_diff widgets_before ∅ false widgets_world).2 = widgets_world ∧
  ((_get_primary_keys widgets_world).1 = Raise SchemaDriftError ∨
   SchemaDriftError = SchemaDriftError ∨ ∃ key, SchemaDriftError = KeyError key).
Proof.
  apply (diff_exceptions widgets_before ∅ false widgets_world SchemaDriftError).
  vm_compute. reflexivity.
Defined.

Lemma diff_counts_balance_witness :
  length (lists_at {[ "widgets" := Full [widget 2 "C"] [widget 1 "B"] [] ]}
            "widgets").1.1
  + size ({[ VInt 1 := widget 1 "A" ]} : table)
  = length (lists_at {[ "widgets" := Full [widget 2 "C"] [widget 1 "B"] [] ]}
              "widgets").2
    + size ({[ VInt 1 := widget 1 "B"; VInt 2 := widget 2 "C" ]} : table).
Proof.
  apply (diff_counts_balance widgets_before widgets_after widgets_world widgets_world).
  - vm_compute. reflexivity.
  - vm_compute. reflexivity.
  - vm_compute. reflexivity.
Defined.

Lemma dump_tables_listed_witness :
  "widgets" ∈ dom widgets_before ↔ "widgets" ∈ table_names widgets_store.
Proof.
  apply (dump_tables_listed widgets_world widgets_before).
  vm_compute. reflexivity.
Defined.

Lemma dump_rows_witness :
  ({[ VInt 1 := widget 1 "A" ]} : table) !! VInt 1 = Some (widget 1 "A") ↔
  ∃ before after,
    default [] (select_all "widgets" widgets_store) = (before ++ widget 1 "A" :: after)%list ∧
    widget 1 "A" !! "id" = Some (VInt 1) ∧
    Forall (λ r', r' !! "id" ≠ Some (VInt 1)) after.
Proof.
  apply (dump_rows widgets_world widgets_before widgets_pkeys "widgets").
  - vm_compute. reflexivity.
  - apply widgets_pkeys_read.
  - vm_compute. reflexivity.
  - vm_compute. reflexivity.
Defined.

Lemma dump_raises_witness :
  (dump gadgets_world).2 = gadgets_world ∧
  ((_get_primary_keys gadgets_world).1 = Raise (KeyError (VStr "notes")) ∨
   ∃ pkeys t,
     (_get_primary_keys gadgets_world).1 = Ok pkeys ∧
     t ∈ table_names (store gadgets_world) ∧
     (pkeys !! t = None ∧ KeyError (VStr "notes") = KeyError (VStr t) ∨
      ∃ pkey r, pkeys !! t = Some pkey ∧
                r ∈ default [] (select_all t (store gadgets_world)) ∧
                r !! pkey = None ∧ KeyError (VStr "notes") = KeyError (VStr pkey))).
Proof.
  apply (dump_raises gadgets_world (KeyError (VStr "notes"))).
  vm_compute. reflexivity.
Defined.

Lemma primary_key_read_witness :
  ∃ pkeys, _get_primary_keys widgets_world = (Ok pkeys, widgets_world) ∧
           pkeys !! "widgets" = Some "id".
Proof.
  apply (primary_key_read widgets_world
           [("widgets", "CREATE UNIQUE INDEX widgets_pkey ON widgets USING btree (id)")]
           "widgets" "CREATE UNIQUE INDEX widgets_pkey ON widgets USING btree " "id" "").
  - reflexivity.
  - apply Forall_cons. split; [vm_compute; reflexivity|apply Forall_nil_2].
  - apply NoDup_singleton.
  - apply list_elem_of_singleton. reflexivity.
  - vm_compute. reflexivity.
  - vm_compute. reflexivity.
  - vm_compute. reflexivity.
Defined.

Lemma no_primary_key_index_witness :
  dump unindexed_world = (Raise (UnboundLocalError "pkeys"), unindexed_world) ∧
  (∀ a b compact,
     _diff a b compact unindexed_world
     = (Raise (UnboundLocalError "pkeys"), unindexed_world)) ∧
  (∀ compact, is_Some (self_a unindexed_world) →
     diff compact unindexed_world = (Raise (UnboundLocalError "pkeys"), unindexed_world)).
Proof. apply (no_primary_key_index unindexed_world). reflexivity. Defined.


Lemma setup_tips_participants_witness :
  ∃ ps tips,
    returned [] (setup_tips_data text_Decimal counting_utcnow two_tips)
    = (TStr "participants"
         :: (TDict <$> ((λ item, participant item.1 item.2) <$> map_to_list ps))
         ++ TStr "tips" :: (TDict <$> tips))%list ∧
    participants_for two_tips ps.
Proof.
  apply (setup_tips_participants text_Decimal counting_utcnow two_tips).
  vm_compute. reflexivity.
Defined.

Lemma setup_tips_statements_witness :
  ∃ ps amounts for_participants,
    participants_for two_tips ps ∧
    for_participants ≡ₚ participant_statement <$> map_to_list ps ∧
    Forall2 (λ rec amount, text_Decimal (amount_of rec) = Ok amount) two_tips amounts ∧
    issued (setup_tips text_Decimal counting_utcnow two_tips tips_world).2
    = (issued tips_world ++ for_participants
       ++ imap (λ i rd, tip_statement (counting_utcnow i) (tipper_of rd.1)
                          (tippee_of rd.1) rd.2)
            (zip two_tips amounts))%list.
Proof.
  apply (setup_tips_statements text_Decimal counting_utcnow two_tips tips_world).
  vm_compute. reflexivity.
Defined.

Lemma setup_tips_failures_witness :
  (∃ rec, rec ∈ two_tips ∧
          text_Decimal (amount_of rec) = Raise (KeyError (VStr "tips")) ∧
          (setup_tips text_Decimal counting_utcnow two_tips unkeyed_tips_world).2
          = unkeyed_tips_world) ∨
  ∃ data, setup_tips_data text_Decimal counting_utcnow two_tips = Ok data ∧
    ((∃ before statement after,
        statements_for "" data = (before ++ statement :: after)%list ∧
        issued (setup_tips text_Decimal counting_utcnow two_tips unkeyed_tips_world).2
        = (issued unkeyed_tips_world ++ before ++ [statement])%list ∧
        execute statement.1 statement.2
          (store (setup_tips text_Decimal counting_utcnow two_tips
                    unkeyed_tips_world).2)
        = Raise (KeyError (VStr "tips"))) ∨
     (issued (setup_tips text_Decimal counting_utcnow two_tips unkeyed_tips_world).2
      = (issued unkeyed_tips_world ++ statements_for "" data)%list ∧
      (dump (setup_tips text_Decimal counting_utcnow two_tips unkeyed_tips_world).2).1
      = Raise (KeyError (VStr "tips")))).
Proof.
  apply (setup_tips_failures text_Decimal counting_utcnow two_tips unkeyed_tips_world).
  - apply (bool_decide_unpack _). vm_compute. exact I.
  - apply (bool_decide_unpack _). vm_compute. exact I.
  - vm_compute. reflexivity.
Defined.
